(** * ARVIDA C++ preprocessor: a shallow embedding of [arvidapp] and
  [arvidapp.generator], with the properties of its annotation decoders,
  type-spelling parser, annotation index and triple/path IR builder. *)

From Stdlib Require Import ZArith Ascii String List Lia Bool DecimalString Sorted.
From Stdlib Require DecimalNat DecimalFacts.
From stdpp Require Import base gmap strings list.

Set Warnings "-register-all".
Local Open Scope Z_scope.

(** * Python string primitives

  Python 2 [str] values are modelled as [string] (a sequence of 8-bit
  characters).  Indices are [nat]; [find]/[rfind] return [None] where
  Python returns [-1]. *)
Module PyStr.

(** The double quote character, code 34, and the backslash, code 92. *)
Definition dquote : ascii := "034"%char.
Definition backslash : ascii := "092"%char.

(** [s.startswith(p)] *)
Fixpoint startswith (s p : string) {struct p} : bool :=
  match p, s with
  | EmptyString, _ => true
  | String _ _, EmptyString => false
  | String c p', String d s' => if Ascii.eqb c d then startswith s' p' else false
  end.

(** [s[n:]] *)
Fixpoint drop (n : nat) (s : string) : string :=
  match n, s with
  | O, _ => s
  | S _, EmptyString => EmptyString
  | S n', String _ s' => drop n' s'
  end.

(** [s[:n]] *)
Fixpoint take (n : nat) (s : string) : string :=
  match n, s with
  | O, _ => EmptyString
  | S _, EmptyString => EmptyString
  | S n', String c s' => String c (take n' s')
  end.

(** [s.endswith(p)] *)
Definition endswith (s p : string) : bool :=
  String.eqb (drop (String.length s - String.length p) s) p
  && (String.length p <=? String.length s)%nat.

(** [s.find(c)] for a one-character needle. *)
Fixpoint find (c : ascii) (s : string) : option nat :=
  match s with
  | EmptyString => None
  | String d s' => if Ascii.eqb d c then Some O else S <$> find c s'
  end.

(** [s.rfind(c)] for a one-character needle. *)
Fixpoint rfind (c : ascii) (s : string) : option nat :=
  match s with
  | EmptyString => None
  | String d s' =>
      match rfind c s' with
      | Some i => Some (S i)
      | None => if Ascii.eqb d c then Some O else None
      end
  end.

(** [needle in s] *)
Fixpoint contains (s needle : string) : bool :=
  startswith s needle
  || match s with
     | EmptyString => false
     | String _ s' => contains s' needle
     end.

(** [s.replace(old, new)]: leftmost, non-overlapping occurrences.  [skip]
    counts the characters of a matched occurrence that are still to be
    passed over.  An empty [old] matches before every character and at the
    end. *)
Fixpoint replace_go (old new : string) (skip : nat) (s : string) : string :=
  match s with
  | EmptyString => EmptyString
  | String c s' =>
      match skip with
      | S k => replace_go old new k s'
      | O =>
          if startswith s old
          then new +:+ replace_go old new (String.length old - 1) s'
          else String c (replace_go old new O s')
      end
  end.

Fixpoint interleave (new s : string) : string :=
  match s with
  | EmptyString => new
  | String c s' => new +:+ String c (interleave new s')
  end.

Definition replace (s old new : string) : string :=
  match old with
  | EmptyString => interleave new s
  | String _ _ => replace_go old new O s
  end.

(** [sep.join(l)] *)
Fixpoint join (sep : string) (l : list string) : string :=
  match l with
  | [] => EmptyString
  | [x] => x
  | x :: l' => x +:+ sep +:+ join sep l'
  end.

(** [s.split(c, 1)]: at most one split, on a one-character separator. *)
Definition split1 (c : ascii) (s : string) : list string :=
  match find c s with
  | Some i => [take i s; drop (S i) s]
  | None => [s]
  end.

End PyStr.

(** * The AST adapter: [CursorWrapper] *)
Module Clang.

Inductive TypeKind :=
| TK_INVALID | TK_LVALUEREFERENCE | TK_RVALUEREFERENCE | TK_POINTER
| TK_FUNCTIONPROTO | TK_RECORD | TK_BUILTIN.

Inductive CursorKind :=
| CK_NO_DECL_FOUND | CK_CXX_METHOD | CK_FUNCTION_DECL | CK_FIELD_DECL
| CK_CLASS_DECL | CK_STRUCT_DECL | CK_OTHER.

Global Instance TypeKind_eq_dec : EqDecision TypeKind.
Proof. solve_decision. Defined.
Global Instance CursorKind_eq_dec : EqDecision CursorKind.
Proof. solve_decision. Defined.

(** What the adapter reads from a libclang declaration handle. *)
Record Cursor := mkCursor {
  c_kind : CursorKind;
  c_spelling : string;
  c_num_arguments : nat
}.

(** What the adapter reads from a libclang type handle: its kind, its
    qualifiers, its pointee (for pointers and references) and the
    declaration [get_declaration()] answers. *)
Inductive CType := mkCType {
  t_kind : TypeKind;
  t_const : bool;
  t_volatile : bool;
  t_restrict : bool;
  t_pointee : option CType;
  t_declaration : Cursor
}.

Definition no_decl : Cursor := mkCursor CK_NO_DECL_FOUND "" 0.

Definition invalid_type : CType :=
  mkCType TK_INVALID false false false None no_decl.

(** [type.get_pointee()]: libclang answers an invalid type when there is
    no pointee. *)
Definition get_pointee (t : CType) : CType := default invalid_type (t_pointee t).

Record CursorWrapper := mkCW {
  cursor : Cursor;
  type : CType;
  no_const : bool;
  no_volatile : bool;
  no_restrict : bool
}.

(** [CursorWrapper(a_type)]: the declaration is looked up from the type. *)
Definition of_type (t : CType) : CursorWrapper :=
  mkCW (t_declaration t) t false false false.

(** [CursorWrapper(cursor, type, no_const=.., no_volatile=.., no_restrict=..)] *)
Definition of_cursor (c : Cursor) (t : CType) (nc nv nr : bool) : CursorWrapper :=
  mkCW c t nc nv nr.

Definition is_dereferencable (self : CursorWrapper) : bool :=
  bool_decide (t_kind (type self) ∈ [TK_LVALUEREFERENCE; TK_RVALUEREFERENCE; TK_POINTER]).

Definition is_reference (self : CursorWrapper) : bool :=
  bool_decide (t_kind (type self) ∈ [TK_LVALUEREFERENCE; TK_RVALUEREFERENCE]).

Definition is_pointer (self : CursorWrapper) : bool :=
  bool_decide (t_kind (type self) ∈ [TK_POINTER]).

Definition is_function (self : CursorWrapper) : bool :=
  bool_decide (c_kind (cursor self) ∈ [CK_CXX_METHOD; CK_FUNCTION_DECL])
  || bool_decide (t_kind (type self) ∈ [TK_FUNCTIONPROTO]).

Definition is_const (self : CursorWrapper) : bool :=
  negb (no_const self) && t_const (type self).

Definition is_volatile (self : CursorWrapper) : bool :=
  negb (no_volatile self) && t_volatile (type self).

Definition is_restrict (self : CursorWrapper) : bool :=
  negb (no_restrict self) && t_restrict (type self).

Definition remove_const (self : CursorWrapper) : CursorWrapper :=
  if negb (is_const self) then self
  else of_cursor (cursor self) (type self) true false false.

Definition remove_volatile (self : CursorWrapper) : CursorWrapper :=
  if negb (is_volatile self) then self
  else of_cursor (cursor self) (type self) false true false.

Definition remove_restrict (self : CursorWrapper) : CursorWrapper :=
  if negb (is_restrict self) then self
  else of_cursor (cursor self) (type self) false false true.

(** [remove_cv]: the guard is written [not is_const() and not not
    is_volatile()] in the source, and is kept as written. *)
Definition remove_cv (self : CursorWrapper) : CursorWrapper :=
  if negb (is_const self) && negb (negb (is_volatile self)) then self
  else of_cursor (cursor self) (type self) true true false.

Definition remove_reference (self : CursorWrapper) : option CursorWrapper :=
  if is_reference self then Some (of_type (get_pointee (type self))) else None.

Definition remove_pointer (self : CursorWrapper) : option CursorWrapper :=
  if is_pointer self then Some (of_type (get_pointee (type self))) else None.

Definition deref (self : CursorWrapper) : option CursorWrapper :=
  if is_pointer self || is_reference self
  then Some (of_type (get_pointee (type self))) else None.

(** [value_type]: [None] stands for Python's [None]; a wrapper object is
    always truthy, so [if vt:] only tests for [None]. *)
Definition value_type (self : CursorWrapper) : option CursorWrapper :=
  if is_reference self then
    match remove_reference self with
    | Some vt => Some (remove_cv vt)
    | None => None
    end
  else Some self.

(** [len(self.arguments)] *)
Definition num_arguments (self : CursorWrapper) : nat :=
  if is_function self then c_num_arguments (cursor self) else O.

(** A reference never refers to a reference (C++ collapses them), and a
    reference or pointer type has a pointee. *)
Definition ref_wf (t : CType) : Prop :=
  t_kind t ∈ [TK_LVALUEREFERENCE; TK_RVALUEREFERENCE] →
  ∃ p, t_pointee t = Some p ∧ t_kind p ∉ [TK_LVALUEREFERENCE; TK_RVALUEREFERENCE].

End Clang.

(** * Python exceptions as an error monad *)
Module Py.

Inductive Exn :=
| ValueError | AssertionError | AttributeError | IndexError | TypeError
| Exception (msg : string)
| OutOfFuel.

Inductive Result (A : Type) :=
| Ok (a : A)
| Raise (e : Exn).
Global Arguments Ok {A} a.
Global Arguments Raise {A} e.

Definition bind {A B} (m : Result A) (k : A → Result B) : Result B :=
  match m with
  | Ok a => k a
  | Raise e => Raise e
  end.

Definition assert (b : bool) : Result unit :=
  if b then Ok tt else Raise AssertionError.

(** [l[i]] on a Python list. *)
Definition index {A} (l : list A) (i : nat) : Result A :=
  match l !! i with
  | Some x => Ok x
  | None => Raise IndexError
  end.

End Py.

Global Instance Result_mbind : MBind Py.Result := fun A B k m => Py.bind m k.
Global Instance Result_mret : MRet Py.Result := fun A a => Py.Ok a.

(** * The type-spelling parser *)
Module TypeSpelling.
Import Py.

(** A token is an [int] (integer literals) or a [str] (punctuation and
    every other run). *)
Inductive Token :=
| TokInt (n : Z)
| TokStr (s : string).

Global Instance Token_eq_dec : EqDecision Token.
Proof. solve_decision. Defined.

(** [\s] on a byte string: space, tab, newline, carriage return, form feed,
    vertical tab. *)
Definition is_space (c : ascii) : bool :=
  match c with
  | " " | "009" | "010" | "011" | "012" | "013" => true
  | _ => false
  end%char.

Definition is_digit (c : ascii) : bool :=
  let n := nat_of_ascii c in (48 <=? n)%nat && (n <=? 57)%nat.

Definition is_hexdigit (c : ascii) : bool :=
  let n := nat_of_ascii c in
  is_digit c || ((65 <=? n)%nat && (n <=? 70)%nat) || ((97 <=? n)%nat && (n <=? 102)%nat).

(** [[<>,]] *)
Definition is_punct (c : ascii) : bool :=
  match c with
  | "<" | ">" | "," => true
  | _ => false
  end%char.

(** The longest prefix of characters satisfying [p], and what follows it. *)
Fixpoint span (p : ascii → bool) (s : string) : string * string :=
  match s with
  | EmptyString => (EmptyString, EmptyString)
  | String c s' =>
      if p c then let '(a, b) := span p s' in (String c a, b)
      else (EmptyString, s)
  end.

(** [(?:::|[^<>:,])*], greedy: a pair of colons, or any character other than
    [<], [>], [:] and [,]. *)
Fixpoint scan_rest (s : string) : string * string :=
  match s with
  | EmptyString => (EmptyString, EmptyString)
  | String ":" (String ":" s') =>
      let '(a, b) := scan_rest s' in (String ":" (String ":" a), b)
  | String c s' =>
      if is_punct c || Ascii.eqb c ":" then (EmptyString, s)
      else let '(a, b) := scan_rest s' in (String c a, b)
  end.

(** [0[xX][0-9A-Fa-f]+] at the head of [s]. *)
Definition scan_hex (s : string) : option (string * string) :=
  match s with
  | String "0" (String x s') =>
      if Ascii.eqb x "x" || Ascii.eqb x "X" then
        match span is_hexdigit s' with
        | (EmptyString, _) => None
        | (h, r) => Some (String "0" (String x h), r)
        end
      else None
  | _ => None
  end.

(** [int(s)] on a run of decimal digits. *)
Definition int_of_digits (s : string) : Z :=
  fold_left (fun acc c => acc * 10 + Z.of_nat (nat_of_ascii c - 48))
            (list_ascii_of_string s) 0.

(** One match of [TOKEN_SCANNER] per round, alternatives in their order.
    [int()] of a hexadecimal literal raises [ValueError]; an empty match
    (a lone colon) advances by one character.  Each round consumes at least
    one character, so [S (length s)] rounds are enough. *)
Fixpoint tokenize_go (fuel : nat) (s : string) : Result (list Token) :=
  match fuel with
  | O => Raise OutOfFuel
  | S fuel' =>
      match s with
      | EmptyString => Ok []
      | String c s' =>
          match span is_space s with
          | (String _ _, r) => tokenize_go fuel' r
          | (EmptyString, _) =>
              match scan_hex s with
              | Some _ => Raise ValueError
              | None =>
                  match span is_digit s with
                  | (String d ds, r) =>
                      ts ← tokenize_go fuel' r;
                      Ok (TokInt (int_of_digits (String d ds)) :: ts)
                  | (EmptyString, _) =>
                      if is_punct c then
                        ts ← tokenize_go fuel' s';
                        Ok (TokStr (String c EmptyString) :: ts)
                      else
                        match scan_rest s with
                        | (String e es, r) =>
                            ts ← tokenize_go fuel' r;
                            Ok (TokStr (String e es) :: ts)
                        | (EmptyString, _) => tokenize_go fuel' s'
                        end
                  end
              end
          end
      end
  end.

Definition tokenize_type_spelling (s : string) : Result (list Token) :=
  tokenize_go (S (String.length s)) s.

(** A template argument is a reference to a [TypeSpellingInfo] object or an
    integer literal. *)
Inductive Arg :=
| ArgRef (addr : nat)
| ArgLit (n : Z).

(** A [TypeSpellingInfo] object: [template_arguments] is [None] or a list. *)
Record TypeSpellingInfo := mkTSI {
  name : Token;
  template_arguments : option (list Arg)
}.

(** The parser state: the object store, the variables [tsi] and [tsi_arg]
    (either may hold an integer) and the stack. *)
Record PState := mkPState {
  heap : list TypeSpellingInfo;
  tsi : Arg;
  tsi_arg : Arg;
  stack : list Arg
}.

(** Attribute access on [tsi]: an [int] has no [template_arguments]. *)
Definition deref_tsi (h : list TypeSpellingInfo) (a : Arg) : Result (nat * TypeSpellingInfo) :=
  match a with
  | ArgLit _ => Raise AttributeError
  | ArgRef p => match h !! p with
                | Some o => Ok (p, o)
                | None => Raise AttributeError
                end
  end.

(** [tsi.add_argument(x)] *)
Definition add_argument (o : TypeSpellingInfo) (x : Arg) : TypeSpellingInfo :=
  match template_arguments o with
  | None => mkTSI (name o) (Some [x])
  | Some l => mkTSI (name o) (Some (l ++ [x]))
  end.

(** One iteration of the [while] loop. *)
Definition step (tok : Token) (st : PState) : Result PState :=
  if decide (tok = TokStr "<") then
    '(p, o) ← deref_tsi (heap st) (tsi st);
    let h := match template_arguments o with
             | None => <[p := mkTSI (name o) (Some [])]> (heap st)
             | Some _ => heap st
             end in
    Ok (mkPState h (tsi_arg st) (tsi_arg st) (stack st ++ [tsi st]))
  else if decide (tok = TokStr ">") then
    match reverse (stack st) with
    | [] => Raise AssertionError
    | top :: rest => Ok (mkPState (heap st) top (tsi_arg st) (reverse rest))
    end
  else if decide (tok = TokStr ",") then Ok st
  else
    let '(h, arg) := match tok with
                     | TokInt n => (heap st, ArgLit n)
                     | TokStr _ => (heap st ++ [mkTSI tok None], ArgRef (length (heap st)))
                     end in
    '(p, o) ← deref_tsi h (tsi st);
    Ok (mkPState (<[p := add_argument o arg]> h) (tsi st) arg (stack st)).

Fixpoint run (toks : list Token) (st : PState) : Result PState :=
  match toks with
  | [] => Ok st
  | tok :: toks' => st' ← step tok st; run toks' st'
  end.

(** The tree a [TypeSpellingInfo] object stands for. *)
Inductive Tree :=
| Node (name : Token) (args : option (list Tree))
| Lit (n : Z).

(** Reading the tree at [a] out of the store.  An argument is always
    allocated after the object it is added to, so the depth is bounded by the
    size of the store. *)
Fixpoint reify (fuel : nat) (h : list TypeSpellingInfo) (a : Arg) : Result Tree :=
  match a with
  | ArgLit n => Ok (Lit n)
  | ArgRef p =>
      match fuel, h !! p with
      | S fuel', Some o =>
          match template_arguments o with
          | None => Ok (Node (name o) None)
          | Some l =>
              ts ← foldr (fun x acc => t ← reify fuel' h x; ts ← acc; Ok (t :: ts))
                         (Ok []) l;
              Ok (Node (name o) (Some ts))
          end
      | O, _ => Raise OutOfFuel
      | _, None => Raise AttributeError
      end
  end.

(** [analyze_type_spelling]: [Ok None] is Python's [None]. *)
Definition analyze_type_spelling (s : string) : Result (option Tree) :=
  tokens ← tokenize_type_spelling s;
  match tokens with
  | [] => Ok None
  | t0 :: rest =>
      if bool_decide (t0 ∈ [TokStr "<"; TokStr ">"; TokStr ","]) then Ok None
      else
        let st0 := mkPState [mkTSI t0 None] (ArgRef 0) (ArgRef 0) [] in
        st ← run rest st0;
        assert (bool_decide (stack st = [])) ;;
        t ← reify (S (length (heap st))) (heap st) (tsi st);
        Ok (Some t)
  end.

(** [str(n)] for an [int]. *)
Definition str_of_int (n : Z) : string :=
  DecimalString.NilZero.string_of_int (Z.to_int n).

Definition str_of_token (t : Token) : string :=
  match t with
  | TokInt n => str_of_int n
  | TokStr s => s
  end.

(** [TypeSpellingInfo.__str__], and [str] of a literal argument. *)
Fixpoint to_str (t : Tree) : string :=
  match t with
  | Lit n => str_of_int n
  | Node nm None => str_of_token nm
  | Node nm (Some l) =>
      let res := str_of_token nm +:+ "<" +:+ PyStr.join ", " (map to_str l) in
      (if PyStr.endswith res ">" then res +:+ " " else res) +:+ ">"
  end.

End TypeSpelling.

(** * The annotation decoders *)
Module Decoder.
Import Py.

Definition PARAM_BEGIN_PREFIX : string := "arvida-".
Definition PARAM_END : string := "arvida-eop".
Definition PARAM_VALUE_PREFIX : string := "arvida-param-".

(** ** The call-argument protocol *)

Inductive ParamKind := INVALID_PARAM | STRING_PARAM | OBJECT_PARAM | TYPE_PARAM.

Global Instance ParamKind_eq_dec : EqDecision ParamKind.
Proof. solve_decision. Defined.

(** [value] is the string of a string parameter; for an object or type
    parameter the referenced definition is known by its [full_name]. *)
Record AnnotationParam := mkParam {
  kind : ParamKind;
  value : string;
  full_name : option string
}.

Global Instance AnnotationParam_eq_dec : EqDecision AnnotationParam.
Proof. solve_decision. Defined.

Definition is_invalid (p : AnnotationParam) : bool := bool_decide (kind p = INVALID_PARAM).
Definition is_string (p : AnnotationParam) : bool := bool_decide (kind p = STRING_PARAM).
Definition is_object (p : AnnotationParam) : bool := bool_decide (kind p = OBJECT_PARAM).
Definition is_type (p : AnnotationParam) : bool := bool_decide (kind p = TYPE_PARAM).
Definition is_item (p : AnnotationParam) : bool := is_type p || is_object p.

Definition is_end_of_parameters (p : AnnotationParam) : bool :=
  is_string p && String.eqb (value p) PARAM_END.

(** [AnnotationParam.__str__]; [None] where it would answer [None]. *)
Definition param_str (p : AnnotationParam) : option string :=
  if is_string p then Some (value p) else full_name p.

(** The kinds of argument cursor the decoder tells apart. *)
Inductive ArgKind := TYPE_REF | DECL_REF_EXPR | STRING_LITERAL | OTHER_EXPR.

(** An expression cursor below a marker call: its kind, the full name of
    the definition it refers to ([get_full_name], a string for the functions
    whose name is cut below), whether its type is a function prototype, its
    spelling (or display name), and its children. *)
Inductive ArgCursor :=
| mkArg (k : ArgKind) (def_full_name : option string) (is_functionproto : bool)
        (spelling : string) (children : list ArgCursor).

Definition arg_children (c : ArgCursor) : list ArgCursor :=
  match c with mkArg _ _ _ _ ch => ch end.

(** A [for] loop whose body appends to [result] and may raise. *)
Fixpoint collect {A B} (f : A → Result (list B)) (l : list A) : Result (list B) :=
  match l with
  | [] => Ok []
  | x :: l' => r ← f x; rs ← collect f l'; Ok (r ++ rs)
  end.

Section WithJson.

(** What [json.loads] (Python's library) answers on a text that starts with
    a double quote: the string it stands for, or [None] where [json.loads]
    raises [ValueError] (a text that is not one JSON string: an escape C has
    and JSON has not, adjacent literals). *)
Variable json_loads : string → option string.

(** [json.loads(s)] *)
Definition loads (s : string) : Result string :=
  match json_loads s with
  | Some v => Ok v
  | None => Raise ValueError
  end.

(** [get_string_literal] *)
Definition get_string_literal (spelling : string) : Result string :=
  if PyStr.startswith spelling (String PyStr.dquote EmptyString)
  then loads spelling else Ok spelling.

(** [AnnotationParam.from_cursor] *)
Definition param_from_cursor (c : ArgCursor) : Result (option AnnotationParam) :=
  match c with
  | mkArg TYPE_REF fn _ _ _ => Ok (Some (mkParam TYPE_PARAM "" fn))
  | mkArg DECL_REF_EXPR fn fp _ _ =>
      Ok (Some (mkParam OBJECT_PARAM ""
                  (if fp then (fun s => PyStr.take (String.length s - 2) s) <$> fn else fn)))
  | mkArg STRING_LITERAL _ _ sp _ =>
      s ← get_string_literal sp; Ok (Some (mkParam STRING_PARAM s None))
  | mkArg OTHER_EXPR _ _ _ _ => Ok None
  end.

(** The inner [visitor] of [collect_annotation_params]: the children of a
    cursor are classified; an unclassified child is searched in turn. *)
Fixpoint visitor (c : ArgCursor) : Result (list AnnotationParam) :=
  match c with
  | mkArg _ _ _ _ children =>
      collect (fun child =>
                 annotation ← param_from_cursor child;
                 match annotation with
                 | Some a => Ok [a]
                 | None => visitor child
                 end) children
  end.

(** [collect_annotation_params(cursor.get_arguments())] *)
Definition collect_annotation_params (args : list ArgCursor)
    : Result (list AnnotationParam) :=
  collect visitor args.

End WithJson.

Record Annotation := mkAnnotation {
  a_name : option string;
  a_params : list AnnotationParam
}.

Record AnnotatedItem := mkItem {
  action : string;
  item : option AnnotationParam;
  annotations : list Annotation
}.

(** The variables of the grouping loop of [AnnotatedItem.from_cursor]. *)
Record GroupState := mkGS {
  first_param : bool;
  annotation_name : option string;
  annotation_params : list AnnotationParam;
  g_annotations : list Annotation
}.

Definition group_init : GroupState := mkGS true None [] [].

(** One iteration of [for param in params[1:]]. *)
Definition group_step (st : GroupState) (param : AnnotationParam) : GroupState :=
  if is_end_of_parameters param then
    mkGS true None []
         (g_annotations st ++ [mkAnnotation (annotation_name st) (annotation_params st)])
  else if first_param st then
    mkGS false (if is_string param then param_str param else annotation_name st)
         (annotation_params st) (g_annotations st)
  else
    mkGS false (annotation_name st) (annotation_params st ++ [param]) (g_annotations st).

Definition group (params : list AnnotationParam) : list Annotation :=
  g_annotations (fold_left group_step params group_init).

(** [AnnotatedItem.from_cursor] on a marker call with spelling [spelling]
    and arguments [args]; [None] is Python's [None]. *)
Definition from_cursor (json_loads : string → option string)
    (spelling : string) (args : list ArgCursor) : Result (option AnnotatedItem) :=
  match args with
  | [] => Ok None
  | _ :: _ =>
      params ← collect_annotation_params json_loads args;
      match params with
      | [] => Ok None
      | p0 :: rest =>
          let item := if negb (is_type p0) && negb (is_object p0) then None else Some p0 in
          Ok (Some (mkItem spelling item (group rest)))
      end
  end.

(** ** The marker-attribute protocol *)

(** An annotation value: a flag without a value is [True], a [key=value]
    flag is a string, a begin/value/end parameter is a tuple of strings. *)
Inductive AnnoValue :=
| AVTrue
| AVStr (s : string)
| AVTuple (l : list string).

Global Instance AnnoValue_eq_dec : EqDecision AnnoValue.
Proof. solve_decision. Defined.

(** [self.annotations[key].append(v)] on a [defaultdict(list)]. *)
Definition dd_append (key : string) (v : AnnoValue)
    (m : gmap string (list AnnoValue)) : gmap string (list AnnoValue) :=
  <[key := default [] (m !! key) ++ [v]]> m.

(** A child of a declaration: whether it is an [ANNOTATE_ATTR] node, and its
    display name. *)
Record Child := mkChild {
  is_annotate_attr : bool;
  displayname : string
}.

(** The variables of the loop of [get_annotations_from_cursor];
    [current_param_name] and [current_param_value] are set and reset
    together, so they are one optional pair. *)
Record AttrState := mkAS {
  result : gmap string (list AnnoValue);
  current_param : option (string * list string)
}.

Definition attr_step (st : AttrState) (c : Child) : AttrState :=
  if is_annotate_attr c then
    match current_param st with
    | Some (name, values) =>
        if PyStr.startswith (displayname c) (PARAM_END +:+ "-") then
          mkAS (dd_append name (AVTuple values) (result st)) None
        else if PyStr.startswith (displayname c) PARAM_VALUE_PREFIX then
          let value := PyStr.drop (String.length PARAM_VALUE_PREFIX) (displayname c) in
          let value := match PyStr.find ":" value with
                       | Some pos => PyStr.drop (pos + 1) value
                       | None => value
                       end in
          mkAS (result st) (Some (name, values ++ [value]))
        else st
    | None =>
        if PyStr.startswith (displayname c) PARAM_BEGIN_PREFIX then
          let name := PyStr.drop (String.length PARAM_BEGIN_PREFIX) (displayname c) in
          let name := match PyStr.rfind "-" name with
                      | Some pos => PyStr.take pos name
                      | None => name
                      end in
          mkAS (result st) (Some (name, []))
        else
          match PyStr.split1 "=" (displayname c) with
          | [k; v] => mkAS (dd_append k (AVStr v) (result st)) None
          | _ => mkAS (dd_append (displayname c) AVTrue (result st)) None
          end
    end
  else st.

(** After the loop an open parameter is committed. *)
Definition attr_finish (st : AttrState) : gmap string (list AnnoValue) :=
  match current_param st with
  | Some (name, values) => dd_append name (AVTuple values) (result st)
  | None => result st
  end.

(** [get_annotations_from_cursor(node)], [children] being
    [node.get_children()] in the order libclang lists them. *)
Definition get_annotations_from_cursor (children : list Child) : gmap string (list AnnoValue) :=
  attr_finish (fold_left attr_step (reverse children) (mkAS ∅ None)).

(** Modelled from the spec: the begin marker the annotation macros attach
    (their C++ header is not among the sources); the name of the parameter is
    embedded after the prefix and followed by a disambiguating suffix. *)
Definition begin_marker (name sfx : string) : Child :=
  mkChild true (PARAM_BEGIN_PREFIX +:+ name +:+ "-" +:+ sfx).

(** Modelled from the spec: a value marker of the annotation macros; the
    value follows a disambiguation token and a colon. *)
Definition value_marker (tv : string * string) : Child :=
  mkChild true (PARAM_VALUE_PREFIX +:+ tv.1 +:+ ":" +:+ tv.2).

(** Modelled from the spec: the end marker of the annotation macros, with
    its disambiguating suffix. *)
Definition end_marker (sfx : string) : Child :=
  mkChild true (PARAM_END +:+ "-" +:+ sfx).

End Decoder.

(** * The semantic model: fields, functions, classes, the environment *)
Module Model.
Import Py Decoder.

(** [Annotatable.add_annotation] works on a [defaultdict(list)]. *)
Definition add_annotation := dd_append.

(** [Annotatable.has_annotations]: the dictionary is not empty. *)
Definition dict_nonempty (m : gmap string (list AnnoValue)) : bool :=
  bool_decide (m ≠ ∅).

Record Field := mkField {
  f_name : string;
  f_annotations : gmap string (list AnnoValue)
}.

Record Function := mkFunction {
  fn_name : string;
  fn_annotations : gmap string (list AnnoValue);
  fn_cw : Clang.CursorWrapper
}.

(** [Field.is_getter], [Field.is_setter] *)
Definition field_is_getter (f : Field) : bool := true.
Definition field_is_setter (f : Field) : bool := true.

(** [Function.is_getter], [Function.is_setter] *)
Definition function_is_getter (f : Function) : bool :=
  PyStr.startswith (fn_name f) "get"
  && Clang.is_function (fn_cw f)
  && ((Clang.num_arguments (fn_cw f) =? 0)%nat || (Clang.num_arguments (fn_cw f) =? 1)%nat).

Definition function_is_setter (f : Function) : bool :=
  PyStr.startswith (fn_name f) "set"
  && Clang.is_function (fn_cw f)
  && (Clang.num_arguments (fn_cw f) =? 1)%nat.

(** A member of a class, as [Class.members] yields them. *)
Inductive Member :=
| MField (f : Field)
| MFunction (f : Function).

Definition member_annotations (m : Member) : gmap string (list AnnoValue) :=
  match m with
  | MField f => f_annotations f
  | MFunction f => fn_annotations f
  end.

Definition member_is_getter (m : Member) : bool :=
  match m with
  | MField f => field_is_getter f
  | MFunction f => function_is_getter f
  end.

Definition member_is_setter (m : Member) : bool :=
  match m with
  | MField f => field_is_setter f
  | MFunction f => function_is_setter f
  end.

(** A class object.  Class objects are compared by identity; a class of the
    environment is identified by its position in [Environment.classes], and
    the sets [_annotated_base_classes] and [_annotated_sub_classes] hold such
    positions (listed in insertion order: a Python [set] iterates in an order
    of its own). *)
Inductive Class := mkClass {
  full_name : string;
  c_annotations : gmap string (list AnnoValue);
  _functions : list Function;
  _fields : list Field;
  _bases : list string;
  anonymous : list Class;
  _annotated_base_classes : list nat;
  _annotated_sub_classes : list nat
}.

Definition field_add (key : string) (v : AnnoValue) (f : Field) : Field :=
  mkField (f_name f) (add_annotation key v (f_annotations f)).

Definition function_add (key : string) (v : AnnoValue) (f : Function) : Function :=
  mkFunction (fn_name f) (add_annotation key v (fn_annotations f)) (fn_cw f).

Definition class_add (key : string) (v : AnnoValue) (c : Class) : Class :=
  mkClass (full_name c) (add_annotation key v (c_annotations c)) (_functions c) (_fields c)
          (_bases c) (anonymous c) (_annotated_base_classes c) (_annotated_sub_classes c).

(** [Class.has_annotations(True)]: the class's own dictionary, then its own
    functions and fields (members of anonymous records are not looked at). *)
Definition has_annotations (c : Class) : bool :=
  dict_nonempty (c_annotations c)
  || existsb (fun f => dict_nonempty (fn_annotations f)) (_functions c)
  || existsb (fun f => dict_nonempty (f_annotations f)) (_fields c).

(** [find_functions(name)]: the class's own functions of that name. *)
Definition find_functions (nm : string) (c : Class) : list Function :=
  filter (fun m => fn_name m = nm) (_functions c).

(** The first element of [l] satisfying [p], replaced by its image. *)
Fixpoint update_first {A} (p : A → bool) (f : A → A) (l : list A) : option (list A) :=
  match l with
  | [] => None
  | x :: l' => if p x then Some (f x :: l') else (x ::.) <$> update_first p f l'
  end.

(** [field = cls.find_field(name); if field: field.add_annotation(key, v)]:
    the first field of that name, the class's own fields first, then the
    anonymous records in order.  [None] when there is no such field. *)
Fixpoint annotate_field (nm key : string) (v : AnnoValue) (c : Class) : option Class :=
  match c with
  | mkClass fn an fns flds bs anon ab asub =>
      match update_first (fun f => String.eqb (f_name f) nm) (field_add key v) flds with
      | Some flds' => Some (mkClass fn an fns flds' bs anon ab asub)
      | None =>
          match (fix go (l : list Class) : option (list Class) :=
                   match l with
                   | [] => None
                   | a :: l' =>
                       match annotate_field nm key v a with
                       | Some a' => Some (a' :: l')
                       | None => (a ::.) <$> go l'
                       end
                   end) anon with
          | Some anon' => Some (mkClass fn an fns flds bs anon' ab asub)
          | None => None
          end
      end
  end.

(** [for member in cls.find_members(name): member.add_annotation(key, v)]:
    every field and function of that name, in anonymous records too. *)
Fixpoint annotate_members (nm key : string) (v : AnnoValue) (c : Class) : Class :=
  match c with
  | mkClass fn an fns flds bs anon ab asub =>
      mkClass fn an
        (map (fun f => if String.eqb (fn_name f) nm then function_add key v f else f) fns)
        (map (fun f => if String.eqb (f_name f) nm then field_add key v f else f) flds)
        bs (map (annotate_members nm key v) anon) ab asub
  end.

(** [Class.members]: own fields, own functions, then the members of the
    anonymous records. *)
Fixpoint members (c : Class) : list Member :=
  match c with
  | mkClass _ _ fns flds _ anon _ _ =>
      (MField <$> flds) ++ (MFunction <$> fns) ++ flat_map members anon
  end.

(** [OrderedSet.add] and [set.add]: nothing happens when the key is there. *)
Definition set_add (i : nat) (l : list nat) : list nat :=
  if bool_decide (i ∈ l) then l else l ++ [i].

Record Environment := mkEnv {
  classes : list Class;
  annotations : list AnnotatedItem;
  global_annotations : gmap string (list string);
  annotated_classes : list nat;
  name_to_class_map : gmap string nat;
  name_to_annotation_map : gmap string AnnotatedItem;
  includes : list string;
  prolog : list string;
  epilog : list string
}.

(** [str(x)] of a parameter; [__str__] answering [None] is a [TypeError]. *)
Definition str_param (p : AnnotationParam) : Result string :=
  match param_str p with
  | Some s => Ok s
  | None => Raise TypeError
  end.

(** [AnnotatedItem.is_global], [.full_name] and [.name] *)
Definition item_is_global (a : AnnotatedItem) : bool :=
  match item a with None => true | Some _ => false end.

Definition item_full_name (a : AnnotatedItem) : Result string :=
  match item a with
  | None => Ok ""
  | Some p => str_param p
  end.

(** [str(ca.params[i])] *)
Definition param (ca : Annotation) (i : nat) : Result string :=
  p ← index (a_params ca) i; str_param p.

(** [self.global_annotations[key].append(value)] *)
Definition add_global_annotation (key value : string)
    (m : gmap string (list string)) : gmap string (list string) :=
  <[key := default [] (m !! key) ++ [value]]> m.

(** A [for] loop whose body may raise. *)
Fixpoint foldM {A S} (f : S → A → Result S) (l : list A) (s : S) : Result S :=
  match l with
  | [] => Ok s
  | x :: l' => s' ← f s x; foldM f l' s'
  end.

(** [[f(x) for x in l]], [f] being called on the items in their order. *)
Fixpoint mapM {A B} (f : A → Result B) (l : list A) : Result (list B) :=
  match l with
  | [] => Ok []
  | x :: l' => y ← f x; ys ← mapM f l'; Ok (y :: ys)
  end.

Definition has_name (ca : Annotation) (nm : string) : bool :=
  bool_decide (a_name ca = Some nm).

(** ** [Environment.build_index] *)

(** First loop: the name index and the classes annotated by attributes. *)
Definition index_class (st : gmap string nat * list nat) (ic : nat * Class)
    : gmap string nat * list nat :=
  (<[full_name ic.2 := ic.1]> st.1,
   if has_annotations ic.2 then set_add ic.1 st.2 else st.2).

Definition index_classes (cls : list Class) : gmap string nat * list nat :=
  fold_left index_class (imap pair cls) (∅, []).

(** Second loop: [name_to_annotation_map[a.name] = a] for the items that
    have a target. *)
Definition index_item (m : gmap string AnnotatedItem) (a : AnnotatedItem)
    : Result (gmap string AnnotatedItem) :=
  if item_is_global a then Ok m
  else nm ← item_full_name a; Ok (<[nm := a]> m).

(** The invocations of a global item. *)
Definition global_step (g : gmap string (list string)) (ga : Annotation)
    : Result (gmap string (list string)) :=
  if has_name ga "arvida-include" then
    s ← param ga 0; Ok (add_global_annotation "include" s g)
  else if has_name ga "arvida-prolog" then
    s ← param ga 0; Ok (add_global_annotation "prolog" s g)
  else if has_name ga "arvida-epilog" then
    s ← param ga 0; Ok (add_global_annotation "epilog" s g)
  else if has_name ga "arvida-uid-method" then
    s ← param ga 0; Ok (add_global_annotation "uid-method" s g)
  else Ok g.

(** The invocations of an item whose target class was found. *)
Definition class_step (cls : Class) (ca : Annotation) : Result Class :=
  if has_name ca "arvida-object-semantic" then
    foldM (fun c s => v ← str_param s; Ok (class_add "semantic" (AVStr v) c))
          (a_params ca) cls
  else if has_name ca "arvida-field-semantic" then
    field_name ← param ca 0;
    anno_value ← param ca 1;
    Ok (default cls (annotate_field field_name "semantic" (AVStr anno_value) cls))
  else if has_name ca "arvida-member-semantic" then
    member_name ← param ca 0;
    anno_value ← param ca 1;
    Ok (annotate_members member_name "semantic" (AVStr anno_value) cls)
  else if has_name ca "arvida-annotate-member" then
    member_name ← param ca 0;
    anno_name ← param ca 1;
    anno_value ← param ca 2;
    Ok (annotate_members member_name anno_name (AVStr anno_value) cls)
  else if has_name ca "arvida-class-stmt" then
    a ← param ca 0;
    b ← param ca 1;
    c ← param ca 2;
    Ok (class_add "triple" (AVTuple [a; b; c]) cls)
  else if has_name ca "arvida-class-include" then
    include ← param ca 0;
    Ok (class_add "include" (AVStr include) cls)
  else if has_name ca "arvida-class-use-visitor" then
    use_visitor ← param ca 0;
    Ok (class_add "use-visitor" (AVStr use_visitor) cls)
  else if has_name ca "arvida-member-stmt" then
    member_name ← param ca 0;
    a ← param ca 1;
    b ← param ca 2;
    c ← param ca 3;
    Ok (annotate_members member_name "triple" (AVTuple [a; b; c]) cls)
  else if has_name ca "arvida-member-path" then
    member_name ← param ca 0;
    path ← param ca 1;
    Ok (annotate_members member_name "path" (AVStr path) cls)
  else if has_name ca "arvida-member-absolute-path" then
    member_name ← param ca 0;
    path ← param ca 1;
    Ok (annotate_members member_name "absolute-path" (AVStr path) cls)
  else if has_name ca "arvida-member-create-element" then
    member_name ← param ca 0;
    nm ← param ca 1;
    Ok (annotate_members member_name "create-element" (AVStr nm) cls)
  else Ok cls.

(** [self.name_to_class_map.get(name, None)]: the position of the class
    object the map holds, and the object. *)
Definition get_class (m : gmap string nat) (cls : list Class) (nm : string)
    : option (nat * Class) :=
  i ← m !! nm; c ← cls !! i; Some (i, c).

(** The state of the third loop: the global annotations, the class objects
    and the annotated-class set. *)
Record IndexState := mkIS {
  is_global_annotations : gmap string (list string);
  is_classes : list Class;
  is_annotated : list nat
}.

(** One iteration of the third loop, [for a in self.annotations]. *)
Definition annotation_step (names : gmap string nat) (st : IndexState) (a : AnnotatedItem)
    : Result IndexState :=
  g ← (if item_is_global a then foldM global_step (Decoder.annotations a) (is_global_annotations st)
       else Ok (is_global_annotations st));
  fn ← item_full_name a;
  match get_class names (is_classes st) fn with
  | None => Ok (mkIS g (is_classes st) (is_annotated st))
  | Some (i, cls) =>
      cls' ← foldM class_step (Decoder.annotations a) cls;
      Ok (mkIS g (<[i := cls']> (is_classes st)) (set_add i (is_annotated st)))
  end.

(** The loop over the global uid-accessor names: every class that defines a
    method of that name gets the [uid-method] annotation and is annotated. *)
Definition has_method (method_name : string) (c : Class) : bool :=
  bool_decide (find_functions method_name c ≠ []).

Definition uid_mark (method_name : string) (c : Class) : Class :=
  if has_method method_name c then class_add "uid-method" (AVStr method_name) c else c.

Definition uid_collect (method_name : string) (ann : list nat) (ic : nat * Class) : list nat :=
  if has_method method_name ic.2 then set_add ic.1 ann else ann.

Definition uid_step (st : list Class * list nat) (method_name : string)
    : list Class * list nat :=
  (uid_mark method_name <$> st.1,
   fold_left (uid_collect method_name) (imap pair st.1) st.2).

(** Base- and sub-class relations, for the pairs with both ends annotated. *)
Definition add_base (b : nat) (c : Class) : Class :=
  mkClass (full_name c) (c_annotations c) (_functions c) (_fields c) (_bases c)
          (anonymous c) (set_add b (_annotated_base_classes c)) (_annotated_sub_classes c).

Definition add_sub (s : nat) (c : Class) : Class :=
  mkClass (full_name c) (c_annotations c) (_functions c) (_fields c) (_bases c)
          (anonymous c) (_annotated_base_classes c) (set_add s (_annotated_sub_classes c)).

Definition relate (names : gmap string nat) (ann : list nat)
    (cls : list Class) (ib : nat * string) : list Class :=
  match get_class names cls ib.2 with
  | None => cls
  | Some (b, _) =>
      let cls := if bool_decide (b ∈ ann) then alter (add_base b) ib.1 cls else cls in
      if bool_decide (ib.1 ∈ ann) then alter (add_sub ib.1) b cls else cls
  end.

Definition base_pairs (cls : list Class) : list (nat * string) :=
  mjoin (imap (fun i c => pair i <$> _bases c) cls).

Section WithJson.

Variable json_loads : string → option string.

(** [unquote_string_literal] *)
Definition unquote_string_literal (s : string) : Result string :=
  if PyStr.startswith s (String PyStr.dquote EmptyString) then loads json_loads s else Ok s.


(** The values of the [include] annotation of a class, flattened; a flag
    without a value has no [startswith]. *)
Definition include_values (v : AnnoValue) : Result (list string) :=
  match v with
  | AVStr s => Ok [s]
  | AVTuple l => Ok l
  | AVTrue => Raise AttributeError
  end.

Definition class_includes (c : Class) : Result (list string) :=
  foldM (fun acc v => l ← include_values v; Ok (acc ++ l))
        (default [] (c_annotations c !! "include")) [].

Definition quote_include (i : string) : string :=
  if negb (PyStr.startswith i (String PyStr.dquote EmptyString))
     && negb (PyStr.startswith i "<")
  then String PyStr.dquote (i +:+ String PyStr.dquote EmptyString)
  else i.

Definition build_index (self : Environment) : Result Environment :=
  let '(names, annotated) := index_classes (classes self) in
  amap ← foldM index_item (annotations self) (name_to_annotation_map self);
  st ← foldM (annotation_step names) (annotations self)
             (mkIS (global_annotations self) (classes self) annotated);
  let '(cls, annotated) :=
    fold_left uid_step (default [] (is_global_annotations st !! "uid-method"))
              (is_classes st, is_annotated st) in
  let cls := fold_left (relate names annotated) (base_pairs cls) cls in
  let g := is_global_annotations st in
  prolog ← mapM unquote_string_literal (default [] (g !! "prolog"));
  epilog ← mapM unquote_string_literal (default [] (g !! "epilog"));
  class_incs ← foldM (fun acc i =>
                        l ← from_option class_includes (Ok []) (cls !! i); Ok (acc ++ l))
                     annotated [];
  let all_includes := default [] (g !! "include") ++ class_incs in
  Ok (mkEnv cls (annotations self) g annotated names amap
            (quote_include <$> all_includes) prolog epilog).

End WithJson.

End Model.

(** * The path and triple IR builder ([arvidapp.generator]) *)
Module Generator.
Import Py Decoder Model.

Inductive PathType := ABSOLUTE_PATH | RELATIVE_PATH | RELATIVE_TO_BASE_PATH | NO_PATH.

Global Instance PathType_eq_dec : EqDecision PathType.
Proof. solve_decision. Defined.

(** [is_emptystring(s)]: [not s or s == '""'] *)
Definition is_emptystring (s : string) : bool :=
  String.eqb s "" || String.eqb s (String PyStr.dquote (String PyStr.dquote EmptyString)).

(** A segment of an inline template. *)
Inductive Segment :=
| TextValue (value : string)
| SubstValue (value : string).

(** The variables of the loop of [parse_inline_template]. *)
Record TemplateState := mkTS {
  ts_result : list Segment;
  curstr : string;
  brace_level : nat;
  as_is : bool
}.

(** One iteration, on the item [c = s[i]].  For a [str] the items are its
    characters; the comparisons and [curstr += c] are the same for the
    items of a tuple of strings. *)
Definition template_step (st : TemplateState) (c : string) : TemplateState :=
  let keep := mkTS (ts_result st) (curstr st +:+ c) in
  if as_is st then keep (brace_level st) false
  else if String.eqb c (String PyStr.backslash EmptyString) then mkTS (ts_result st) (curstr st) (brace_level st) true
  else if String.eqb c "{" then
    if (brace_level st =? 0)%nat then
      mkTS (if negb (String.length (curstr st) =? 0)%nat
            then ts_result st ++ [TextValue (curstr st)] else ts_result st)
           "" 1 false
    else keep (S (brace_level st)) false
  else if String.eqb c "}" then
    if (brace_level st =? 1)%nat then
      mkTS (ts_result st ++ [SubstValue (curstr st)]) "" 0 false
    else if (0 <? brace_level st)%nat then keep (brace_level st - 1)%nat false
    else keep (brace_level st) false
  else keep (brace_level st) false.

Definition template_finish (st : TemplateState) : list Segment :=
  if (0 <? String.length (curstr st))%nat then
    ts_result st ++ [if (0 <? brace_level st)%nat then SubstValue (curstr st)
                     else TextValue (curstr st)]
  else ts_result st.

(** [parse_inline_template] on the items of its argument. *)
Definition parse_items (items : list string) : list Segment :=
  template_finish (fold_left template_step items (mkTS [] "" 0 false)).

(** The items [s[0], s[1], ...] of a string: its characters. *)
Definition chars (s : string) : list string :=
  (fun c => String c EmptyString) <$> list_ascii_of_string s.

(** The items of an annotation value; [len(True)] is a [TypeError]. *)
Definition items_of (v : AnnoValue) : Result (list string) :=
  match v with
  | AVStr s => Ok (chars s)
  | AVTuple l => Ok l
  | AVTrue => Raise TypeError
  end.

Definition parse_inline_template (v : AnnoValue) : Result (list Segment) :=
  items ← items_of v; Ok (parse_items items).

(** [normalize_annotation_value]: a tuple of one element stands for the
    element. *)
Definition normalize_annotation_value (v : AnnoValue) : AnnoValue :=
  match v with
  | AVTuple [x] => AVStr x
  | _ => v
  end.

Definition DEFAULT_PATH_SUBST_LIST : list (string * string) :=
  [("$this", "this"); ("$that", "_that"); ("$element", "_element"); ("$ctx", "ctx")].

Definition CLASS_PATH_SUBST_LIST : list (string * string) :=
  [("$this", "_this"); ("$ctx", "ctx")].

(** [subst(str, subst_list)] *)
Definition subst (str : string) (subst_list : list (string * string)) : string :=
  fold_left (fun s on => PyStr.replace s on.1 on.2) subst_list str.

(** Truth value of an annotation value: empty strings and tuples are false. *)
Definition truthy (v : AnnoValue) : bool :=
  match v with
  | AVTrue => true
  | AVStr s => negb (String.eqb s "")
  | AVTuple l => negb (bool_decide (l = []))
  end.

Section WithJson.

(** [json.dumps] on the values an annotation can hold (Python's library). *)
Variable json_dumps : AnnoValue → string.

(** [arvidapp.quote_string_literal] *)
Definition quote_string_literal (v : AnnoValue) : string := json_dumps v.

(** One iteration of the loop joining the segments. *)
Definition join_step (path_subst_list : list (string * string))
    (pp_path : string) (i : Segment) : string :=
  let value := match i with
               | TextValue v => quote_string_literal (AVStr v)
               | SubstValue v => "(" +:+ subst v path_subst_list +:+ ")"
               end in
  if (0 <? String.length value)%nat then
    if (0 <? String.length pp_path)%nat
    then "Arvida::RDF::joinPath(" +:+ pp_path +:+ "," +:+ value +:+ ")"
    else value
  else pp_path.

(** [process_path_annotation]: the triple [(path, unquoted_path, pp_path)]. *)
Definition process_path_annotation (path_annotation_list : list AnnoValue)
    (path_subst_list : list (string * string))
    : Result (option string * option AnnoValue * string) :=
  let paths := normalize_annotation_value <$> path_annotation_list in
  let unquoted_path := last paths in
  match unquoted_path with
  | Some u =>
      if truthy u then
        let path := quote_string_literal u in
        subst_list ← parse_inline_template u;
        Ok (Some path, unquoted_path, fold_left (join_step path_subst_list) subst_list "")
      else Ok (None, unquoted_path, String PyStr.dquote (String PyStr.dquote EmptyString))
  | None => Ok (None, None, String PyStr.dquote (String PyStr.dquote EmptyString))
  end.

End WithJson.

(** ** Triple nodes *)

(** What a [Value] node refers to: the class, or the member. *)
Inductive Entity :=
| EClass (c : nat)
| EMember (m : Member).

Definition THAT_ELEMENT_NAMES : list string :=
  ["$that.foreach"; "$that.element"; "$that.item"].

(** The subclasses of [TripleNode]; [id] is the [TemplateObject] id. *)
Inductive TripleNode :=
| Blank (label var_name : string) (id : nat)
| IRI (value : string) (id : nat)
| PrefixedName (value : string) (id : nat)
| Value (value : Entity) (meta_var : string) (id : nat).

Definition is_that_element_ref (v : TripleNode) : bool :=
  match v with
  | Value _ meta_var _ => bool_decide (meta_var ∈ THAT_ELEMENT_NAMES)
  | _ => false
  end.

Definition is_that_ref (v : TripleNode) : bool :=
  match v with
  | Value _ meta_var _ => String.eqb meta_var "$that"
  | _ => false
  end.

Definition is_this_ref (v : TripleNode) : bool :=
  match v with
  | Value _ meta_var _ => String.eqb meta_var "$this"
  | _ => false
  end.

Definition is_blank_node (v : TripleNode) : bool :=
  match v with Blank _ _ _ => true | _ => false end.

Definition is_iri_node (v : TripleNode) : bool :=
  match v with IRI _ _ => true | _ => false end.

Definition is_prefixed_name (v : TripleNode) : bool :=
  match v with PrefixedName _ _ => true | _ => false end.

Definition is_value_node (v : TripleNode) : bool :=
  match v with Value _ _ _ => true | _ => false end.

(** [Value.getter] and [Value.setter], set by the constructor from the
    entity the node refers to. *)
Definition value_is_getter (v : TripleNode) : bool :=
  match v with
  | Value (EMember m) _ _ => member_is_getter m
  | _ => false
  end.

Definition value_is_setter (v : TripleNode) : bool :=
  match v with
  | Value (EMember m) _ _ => member_is_setter m
  | _ => false
  end.

(** A [Triple] object.  [Triple(id)] starts from the value
    [[None, None, None]]: a node is [None] until it is set. *)
Record Triple := mkTriple {
  t_id : nat;
  subject : option TripleNode;
  predicate : option TripleNode;
  object : option TripleNode
}.

(** [Triple.value], the list iterated by [for i in triple]. *)
Definition nodes (t : Triple) : list (option TripleNode) :=
  [subject t; predicate t; object t].

(** [triple[index] = value]: [self.value[key]] is an [IndexError] past the
    third node. *)
Definition set_node (index : nat) (value : TripleNode) (t : Triple) : Result Triple :=
  match index with
  | 0%nat => Ok (mkTriple (t_id t) (Some value) (predicate t) (object t))
  | 1%nat => Ok (mkTriple (t_id t) (subject t) (Some value) (object t))
  | 2%nat => Ok (mkTriple (t_id t) (subject t) (predicate t) (Some value))
  | _ => Raise IndexError
  end.

(** [v.method()] for an item [v] of a triple: on [None] it is an
    [AttributeError]. *)
Definition on_node {A} (method : TripleNode → A) (v : option TripleNode) : Result A :=
  match v with
  | Some n => Ok (method n)
  | None => Raise AttributeError
  end.

(** [Triple.is_for_reader], [.is_for_writer], [.is_common]; [None] is no
    instance of [Value]. *)
Definition triple_is_for_reader (t : Triple) : bool :=
  existsb (from_option (fun v => is_value_node v && value_is_setter v) false) (nodes t).

Definition triple_is_for_writer (t : Triple) : bool :=
  existsb (from_option (fun v => is_value_node v && value_is_getter v) false) (nodes t).

Definition triple_is_common (t : Triple) : bool :=
  negb (triple_is_for_reader t) && negb (triple_is_for_writer t).

(** [for i in l: if i.p(): return True] and then [return False] *)
Fixpoint any_node (p : TripleNode → bool) (l : list (option TripleNode)) : Result bool :=
  match l with
  | [] => Ok false
  | i :: l' => on_node p i ≫= fun b : bool => if b then Ok true else any_node p l'
  end.

Definition has_that_element_ref (t : Triple) : Result bool :=
  any_node is_that_element_ref (nodes t).

(** ** Member triple containers *)

Record MemberTripleContainer := mkMTC {
  mtc_id : nat;
  triples : list Triple;
  member_triples : list Triple;
  member_element_triples : list Triple;
  member : option Member;
  class_ : nat;
  path_type : option PathType;
  path : option string;
  unquoted_path : option AnnoValue;
  pp_path : option string;
  element_path_type : option PathType;
  element_path : option string;
  unquoted_element_path : option AnnoValue;
  pp_element_path : option string;
  getter : bool;
  setter : bool
}.

(** [annotations.get(key, default)] *)
Definition anno_get (m : gmap string (list AnnoValue)) (key : string)
    (dflt : list AnnoValue) : list AnnoValue :=
  default dflt (m !! key).

(** [MemberTripleContainer.__init__], but for [create_element], which no
    property below reads. *)
Definition new_mtc (json_dumps : AnnoValue → string)
    (mem : option Member) (cls id : nat) : Result MemberTripleContainer :=
  match mem with
  | Some m =>
      let paths := anno_get (member_annotations m) "path" [] in
      let absolute_paths := anno_get (member_annotations m) "absolute-path" [] in
      let '(paths, pt) := if bool_decide (absolute_paths ≠ [])
                          then (absolute_paths, ABSOLUTE_PATH)
                          else (paths, RELATIVE_PATH) in
      '(p, up, pp) ← process_path_annotation json_dumps paths DEFAULT_PATH_SUBST_LIST;
      let pt := if is_emptystring pp then NO_PATH else pt in
      let element_paths := anno_get (member_annotations m) "element-path" paths in
      let absolute_element_paths :=
        anno_get (member_annotations m) "absolute-element-path" absolute_paths in
      let '(element_paths, ept) := if bool_decide (absolute_element_paths ≠ [])
                                   then (absolute_element_paths, ABSOLUTE_PATH)
                                   else (element_paths, RELATIVE_PATH) in
      '(ep, uep, epp) ←
        process_path_annotation json_dumps element_paths DEFAULT_PATH_SUBST_LIST;
      let ept := if is_emptystring epp then NO_PATH else ept in
      Ok (mkMTC id [] [] [] mem cls (Some pt) p up (Some pp) (Some ept) ep uep (Some epp)
                (member_is_getter m) (member_is_setter m))
  | None =>
      Ok (mkMTC id [] [] [] None cls None None None None None None None None false false)
  end.

Definition is_global (self : MemberTripleContainer) : bool :=
  match member self with None => true | Some _ => false end.

Definition is_getter (self : MemberTripleContainer) : bool := getter self.
Definition is_setter (self : MemberTripleContainer) : bool := setter self.

(** [MemberTripleContainer.is_common], [.is_for_reader], [.is_for_writer] *)
Definition is_common (self : MemberTripleContainer) : bool :=
  negb (is_setter self) && negb (is_getter self).

Definition is_for_reader (self : MemberTripleContainer) : bool :=
  is_global self || is_setter self.

Definition is_for_writer (self : MemberTripleContainer) : bool :=
  is_global self || is_getter self.

(** ** [process_triples] *)

Definition node_value (v : TripleNode) : Z :=
  if is_this_ref v then 1
  else if is_that_ref v then 10
  else if is_that_element_ref v then 100
  else if is_iri_node v || is_prefixed_name v then 1000
  else if is_blank_node v then 10000
  else 100000.

(** The sum [cmp_triple] compares; [node_value] starts with a method call
    on the node it is given. *)
Definition triple_value (x : Triple) : Result Z :=
  s ← on_node node_value (subject x);
  p ← on_node node_value (predicate x);
  o ← on_node node_value (object x);
  Ok (s + p + o).

(** [cmp_triple]: Python's [cmp] of the two sums. *)
Definition cmp_triple (x y : Triple) : Result comparison :=
  x_value ← triple_value x;
  y_value ← triple_value y;
  Ok (x_value ?= y_value).

(** [sorted(l, cmp=...)].  Python's sort is stable; for a comparison that
    orders by a key, as [cmp_triple] does, the sorted and stable arrangement
    of a list is unique (see [stable_sort_unique] below), and insertion from
    the right computes it: an element goes before the first element that is
    not smaller.  A comparison that raises ends the sort.  Python's sort
    compares every item of a list of two or more at least once, and so does
    the insertion: for [cmp_triple], which asks both triples for their sums,
    both raise exactly when the list has two or more triples and one of
    them lacks a node. *)
Fixpoint insert_sorted {A} (cmp : A → A → Result comparison) (x : A) (l : list A)
    : Result (list A) :=
  match l with
  | [] => Ok [x]
  | y :: l' =>
      cmp x y ≫= fun c : comparison =>
      match c with
      | Gt => r ← insert_sorted cmp x l'; Ok (y :: r)
      | _ => Ok (x :: l)
      end
  end.

Definition sorted {A} (cmp : A → A → Result comparison) (l : list A) : Result (list A) :=
  foldr (fun x acc => l' ← acc; insert_sorted cmp x l') (Ok []) l.

(** The body of the loop over the sorted triples: the pair of
    [member_triples] and [member_element_triples]. *)
Definition route (lists : list Triple * list Triple) (triple : Triple)
    : Result (list Triple * list Triple) :=
  has_that_element_ref triple ≫= fun has_element_ref : bool =>
  Ok (if has_element_ref then (lists.1, lists.2 ++ [triple])
      else (lists.1 ++ [triple], lists.2)).

(** [process_triples]: the two lists are emptied and filled again from the
    sorted triples. *)
Definition process_triples (self : MemberTripleContainer) : Result MemberTripleContainer :=
  ts ← sorted cmp_triple (triples self);
  lists ← foldM route ts ([], []);
  Ok (mkMTC (mtc_id self) (triples self) lists.1 lists.2
            (member self) (class_ self) (path_type self) (path self) (unquoted_path self)
            (pp_path self) (element_path_type self) (element_path self)
            (unquoted_element_path self) (pp_element_path self) (getter self) (setter self)).

(** ** Building the triples of a class (the loop "Process triples") *)

(** What the loop keeps for a class: the id generator [id_gen] and the
    blank nodes, [cls.blank_id] and the ordered dictionary [cls.blanks] from
    labels to variable names. *)
Record TripleGen := mkTG {
  id_gen : nat;
  blank_id : nat;
  blanks : list (string * string)
}.

(** [id_gen.next()] *)
Definition next_id (g : TripleGen) : nat * TripleGen :=
  (id_gen g, mkTG (S (id_gen g)) (blank_id g) (blanks g)).

(** ["%d" % n] *)
Definition str_of_nat (n : nat) : string :=
  DecimalString.NilZero.string_of_uint (Nat.to_uint n).

Definition blank_var (label : string) (l : list (string * string)) : option string :=
  snd <$> List.find (fun lv => String.eqb lv.1 label) l.

(** [create_blank]: one variable per label, numbered from 0 in the order of
    first use. *)
Definition create_blank (elem : string) (g : TripleGen) : TripleNode * TripleGen :=
  let '(var, g) :=
    match blank_var elem (blanks g) with
    | Some var => (var, g)
    | None =>
        let var := "_b" +:+ str_of_nat (blank_id g) in
        (var, mkTG (id_gen g) (S (blank_id g)) (blanks g ++ [(elem, var)]))
    end in
  let '(i, g) := next_id g in
  (Blank elem var i, g).

Section WithJson.

Variable json_dumps : AnnoValue → string.
Variable json_loads : string → option string.

(** The constructor of [Value] compiles the path annotation of the entity
    it refers to; the node is made when that does not raise. *)
Definition new_value (annotations : gmap string (list AnnoValue)) (e : Entity)
    (meta_var : string) (g : TripleGen) : Result (TripleNode * TripleGen) :=
  let paths := anno_get annotations "path" [] in
  let absolute_paths := anno_get annotations "absolute-path" [] in
  let paths := if bool_decide (absolute_paths ≠ []) then absolute_paths else paths in
  _ ← process_path_annotation json_dumps paths DEFAULT_PATH_SUBST_LIST;
  let '(i, g) := next_id g in
  Ok (Value e meta_var i, g).

(** The body of the loop of [create_triple] for one element. *)
Definition create_node (cls : nat) (c : Class) (mem : option Member)
    (elem : string) (g : TripleGen) : Result (TripleNode * TripleGen) :=
  if PyStr.startswith elem "_:" then Ok (create_blank elem g)
  else if String.eqb elem "$this" then new_value (c_annotations c) (EClass cls) elem g
  else if String.eqb elem "$that" || bool_decide (elem ∈ THAT_ELEMENT_NAMES) then
    match mem with
    | None => Raise (Exception ("Per class triple annotation cannot refer to " +:+ elem))
    | Some m => new_value (member_annotations m) (EMember m) elem g
    end
  else if PyStr.contains elem "://" then
    let '(i, g) := next_id g in Ok (IRI elem i, g)
  else if PyStr.contains elem ":" then
    let '(i, g) := next_id g in
    (* [PrefixedName.__init__] unquotes the element for its prefix *)
    _ ← unquote_string_literal json_loads elem;
    Ok (PrefixedName elem i, g)
  else Raise (Exception ("Unknown element in triple annotation: " +:+ elem)).

(** The loop [for index, elem in enumerate(triple)] of [create_triple],
    from [index] on: the node of the element is made, then set. *)
Fixpoint fill_triple (cls : nat) (c : Class) (mem : option Member)
    (index : nat) (elems : list string) (new_triple : Triple) (g : TripleGen)
    : Result (Triple * TripleGen) :=
  match elems with
  | [] => Ok (new_triple, g)
  | elem :: elems' =>
      '(value, g) ← create_node cls c mem elem g;
      new_triple ← set_node index value new_triple;
      fill_triple cls c mem (S index) elems' new_triple g
  end.

(** [create_triple].  The elements of the annotation are classified in
    turn; a fourth element has no place in the triple ([IndexError]); with
    fewer than three a node stays [None]. *)
Definition create_triple (cls : nat) (c : Class) (mem : option Member)
    (triple : AnnoValue) (g : TripleGen) : Result (Triple * TripleGen) :=
  let '(id, g) := next_id g in
  elems ← items_of triple;
  fill_triple cls c mem 0 elems (mkTriple id None None None) g.

(** [for triple_anno in annotations: mtc.triples.append(create_triple(..))] *)
Fixpoint create_triples (cls : nat) (c : Class) (mem : option Member)
    (annos : list AnnoValue) (g : TripleGen) : Result (list Triple * TripleGen) :=
  match annos with
  | [] => Ok ([], g)
  | anno :: annos' =>
      '(t, g) ← create_triple cls c mem anno g;
      '(ts, g) ← create_triples cls c mem annos' g;
      Ok (t :: ts, g)
  end.

Definition with_triples (self : MemberTripleContainer) (ts : list Triple)
    : MemberTripleContainer :=
  mkMTC (mtc_id self) ts (member_triples self) (member_element_triples self)
        (member self) (class_ self) (path_type self) (path self) (unquoted_path self)
        (pp_path self) (element_path_type self) (element_path self)
        (unquoted_element_path self) (pp_element_path self) (getter self) (setter self).

(** A container and its triples, for the class ([mem = None]) or a member. *)
Definition build_mtc (cls : nat) (c : Class) (mem : option Member)
    (annos : list AnnoValue) (g : TripleGen) : Result (MemberTripleContainer * TripleGen) :=
  let '(id, g) := next_id g in
  mtc ← new_mtc json_dumps mem cls id;
  '(ts, g) ← create_triples cls c mem annos g;
  Ok (with_triples mtc ts, g).

(** The containers of the members that have triple annotations, in the
    order of [cls.members]. *)
Fixpoint member_mtcs (cls : nat) (c : Class) (ms : list Member) (g : TripleGen)
    : Result (list MemberTripleContainer * TripleGen) :=
  match ms with
  | [] => Ok ([], g)
  | m :: ms' =>
      match member_annotations m !! "triple" with
      | Some (x :: l) =>
          '(mtc, g) ← build_mtc cls c (Some m) (x :: l) g;
          '(mtcs, g) ← member_mtcs cls c ms' g;
          Ok (mtc :: mtcs, g)
      | _ => member_mtcs cls c ms' g
      end
  end.

(** The body of the loop "Process triples" for the class at position
    [cls]: [cls.mtcs] after [process_triples] has run on each container. *)
Definition class_mtcs (cls : nat) (c : Class) : Result (list MemberTripleContainer) :=
  let g := mkTG 0 0 [] in
  '(global, g) ← match anno_get (c_annotations c) "triple" [] with
                 | x :: l => '(mtc, g) ← build_mtc cls c None (x :: l) g; Ok ([mtc], g)
                 | [] => Ok ([], g)
                 end;
  '(mtcs, _) ← member_mtcs cls c (members c) g;
  mapM process_triples (global ++ mtcs).

End WithJson.

End Generator.

(** * Propagation along inheritance ([TemplateProcessor]) *)
Module Propagation.
Import Py Decoder Model Generator.

(** [TemplateProcessor.propagate_annotation(cls, annotation_name,
    annotation_value)], [cls] being the class object at position [i].  The
    recursion follows [annotated_sub_classes] without a visited set, so the
    model is given [fuel] for its depth.  A value is a list of annotation
    values or [None]. *)
Fixpoint propagate_annotation (fuel : nat) (annotation_name : string)
    (cls : list Class) (i : nat) (annotation_value : option (list AnnoValue))
    : Result (list Class) :=
  match fuel with
  | O => Raise OutOfFuel
  | S fuel' =>
      match cls !! i with
      | None => Raise IndexError
      | Some c =>
          let '(cls1, cls_annotation_value) :=
            match c_annotations c !! annotation_name with
            | Some v => (cls, Some v)
            | None =>
                match annotation_value with
                | Some l =>
                    (<[i := fold_left (fun c x => class_add annotation_name x c) l c]> cls,
                     Some l)
                | None => (cls, None)
                end
            end in
          match cls_annotation_value with
          | Some (x :: l) =>
              foldM (fun cls sub_cls =>
                       propagate_annotation fuel' annotation_name cls sub_cls (Some (x :: l)))
                    (_annotated_sub_classes c) cls1
          | _ => Ok cls1
          end
      end
  end.

(** [for cls in environment.classes: self.propagate_annotation(cls,
    'uid-method', None)] *)
Definition propagate_uid_method (fuel : nat) (cls : list Class) : Result (list Class) :=
  foldM (fun cls i => propagate_annotation fuel "uid-method" cls i None)
        (seq 0 (length cls)) cls.

(** The attributes [process_environment] sets on an annotated class for its
    path. *)
Record ClassAttrs := mkAttrs {
  cls_path_type : PathType;
  cls_uid_method : option (list AnnoValue);
  cls_path : option string;
  cls_unquoted_path : option AnnoValue;
  cls_pp_path : string
}.

(** The body of the loop "Process per class path annotation". *)
Definition class_path (json_dumps : AnnoValue → string) (c : Class) : Result ClassAttrs :=
  let paths := anno_get (c_annotations c) "path" [] in
  let absolute_paths := anno_get (c_annotations c) "absolute-path" [] in
  let uid_method := c_annotations c !! "uid-method" in
  let '(paths, pt, um) :=
    if bool_decide (absolute_paths ≠ []) then (absolute_paths, ABSOLUTE_PATH, None)
    else match uid_method with
         | Some u => (paths, ABSOLUTE_PATH, Some u)
         | None => (paths, RELATIVE_PATH, None)
         end in
  '(p, up, pp) ← process_path_annotation json_dumps paths CLASS_PATH_SUBST_LIST;
  Ok (mkAttrs pt um p up pp).

(** The body of the loop "Process uid-method". *)
Definition class_uid (c : Class) (a : ClassAttrs) : ClassAttrs :=
  match c_annotations c !! "uid-method" with
  | Some u => mkAttrs RELATIVE_TO_BASE_PATH (Some u) (cls_path a) (cls_unquoted_path a)
                      (cls_pp_path a)
  | None => a
  end.

Definition path_step (json_dumps : AnnoValue → string) (cls : list Class)
    (attrs : gmap nat ClassAttrs) (i : nat) : Result (gmap nat ClassAttrs) :=
  match cls !! i with
  | Some c => a ← class_path json_dumps c; Ok (<[i := a]> attrs)
  | None => Raise IndexError
  end.

Definition uid_step (cls : list Class) (attrs : gmap nat ClassAttrs) (i : nat)
    : gmap nat ClassAttrs :=
  match cls !! i, attrs !! i with
  | Some c, Some a => <[i := class_uid c a]> attrs
  | _, _ => attrs
  end.

(** [process_environment], from its start to the loop "Process uid-method",
    but for the use-visitor flags, which are set in between on attributes of
    their own.  The result is the class objects and the path attributes of
    the annotated classes. *)
Definition process_environment (json_dumps : AnnoValue → string) (fuel : nat)
    (environment : Environment) : Result (list Class * gmap nat ClassAttrs) :=
  cls ← propagate_uid_method fuel (classes environment);
  attrs ← foldM (path_step json_dumps cls) (annotated_classes environment) ∅;
  Ok (cls, fold_left (uid_step cls) (annotated_classes environment) attrs).

End Propagation.

(** * Marker calls in function bodies ([build_annotations]) *)
Module Markers.
Import Py Decoder.

(** A cursor below a function declaration: whether its kind is
    [CALL_EXPR], its spelling, its arguments ([get_arguments()], for a call)
    and its children. *)
Inductive BodyCursor :=
| mkBody (is_call_expr : bool) (spelling : string) (arguments : list ArgCursor)
         (children : list BodyCursor).

Definition b_is_call_expr (c : BodyCursor) : bool :=
  match c with mkBody k _ _ _ => k end.
Definition b_spelling (c : BodyCursor) : string :=
  match c with mkBody _ s _ _ => s end.
Definition b_arguments (c : BodyCursor) : list ArgCursor :=
  match c with mkBody _ _ a _ => a end.
Definition b_children (c : BodyCursor) : list BodyCursor :=
  match c with mkBody _ _ _ ch => ch end.

(** The test of the inner [visitor]: a call of one of the four marker
    functions. *)
Definition is_marker_call (child : BodyCursor) : bool :=
  b_is_call_expr child
  && (String.eqb (b_spelling child) "arvida_reflect_get_type_ptr"
      || String.eqb (b_spelling child) "arvida_reflect_object"
      || String.eqb (b_spelling child) "arvida_reflect_object_ext"
      || String.eqb (b_spelling child) "arvida_global_annotation_func").

Section WithJson.

Variable json_loads : string → option string.

(** What the loop body does with a marker call: the decoded item is
    asserted to be there. *)
Definition decode_marker (child : BodyCursor) : Result AnnotatedItem :=
  annotation ← from_cursor json_loads (b_spelling child) (b_arguments child);
  match annotation with
  | Some annotation => Ok annotation
  | None => Raise AssertionError
  end.

(** The inner [visitor]: the items appended to [result] while the children
    of [cursor] are visited.  A marker call is decoded and not searched; any
    other child is searched in turn. *)
Fixpoint visitor (cursor : BodyCursor) : Result (list AnnotatedItem) :=
  match cursor with
  | mkBody _ _ _ children =>
      collect (fun child =>
                 if is_marker_call child
                 then annotation ← decode_marker child; Ok [annotation]
                 else visitor child) children
  end.

(** [build_annotations(cursor)]: every child of the function is searched. *)
Definition build_annotations (cursor : BodyCursor) : Result (list AnnotatedItem) :=
  collect visitor (b_children cursor).

End WithJson.

End Markers.

(** * [OrderedSet] *)
Module Collections.
Import Py.

(** A node [[key, prev, next]] of the doubly linked list.  [prev] and
    [next] refer to nodes: they are addresses of the node store.  The key of
    the sentinel is [None]. *)
Record Node (K : Type) := mkNode {
  n_key : option K;
  n_prev : nat;
  n_next : nat
}.
Global Arguments mkNode {K} _ _ _.
Global Arguments n_key {K} _.
Global Arguments n_prev {K} _.
Global Arguments n_next {K} _.

(** An [OrderedSet] object: the store of the nodes made so far, with the
    sentinel [self.end] at the address [END], and [self.map], from keys to
    nodes. *)
Record OrderedSet (K : Type) `{Countable K} := mkOS {
  os_nodes : list (Node K);
  os_map : gmap K nat
}.
Global Arguments mkOS {K _ _} _ _.
Global Arguments os_nodes {K _ _} _.
Global Arguments os_map {K _ _} _.

Definition END : nat := 0.

(** [pop(last)]: [KeyError] on the empty set, else the key and the set
    without it. *)
Inductive Popped (K : Type) `{Countable K} :=
| KeyError
| Pop (key : option K) (self : OrderedSet K).
Global Arguments KeyError {K _ _}.
Global Arguments Pop {K _ _} _ _.

Section OrderedSet.
Context {K : Type} {eq_dec_K : EqDecision K} {countable_K : Countable K}.

(** [OrderedSet()]: the sentinel refers to itself. *)
Definition new : OrderedSet K := mkOS [mkNode None END END] ∅.

(** The node a reference refers to. *)
Definition deref (h : list (Node K)) (a : nat) : Node K :=
  default (mkNode None END END) (h !! a).

(** [node[1] = p] and [node[2] = x] *)
Definition set_prev (p : nat) (n : Node K) : Node K := mkNode (n_key n) p (n_next n).
Definition set_next (x : nat) (n : Node K) : Node K := mkNode (n_key n) (n_prev n) x.

(** [len(self)] and [key in self] *)
Definition len (self : OrderedSet K) : nat := size (os_map self).

Definition contains (key : K) (self : OrderedSet K) : bool :=
  bool_decide (is_Some (os_map self !! key)).

(** [add]: [curr[2] = end[1] = self.map[key] = [key, curr, end]], the
    targets being assigned from left to right. *)
Definition add (key : K) (self : OrderedSet K) : OrderedSet K :=
  if contains key self then self
  else
    let curr := n_prev (deref (os_nodes self) END) in
    let node := length (os_nodes self) in
    let h := os_nodes self ++ [mkNode (Some key) curr END] in
    let h := alter (set_next node) curr h in
    let h := alter (set_prev node) END h in
    mkOS h (<[key := node]> (os_map self)).

(** [discard]: the node is taken out of the map and unlinked. *)
Definition discard (key : K) (self : OrderedSet K) : OrderedSet K :=
  match os_map self !! key with
  | None => self
  | Some a =>
      let n := deref (os_nodes self) a in
      let h := alter (set_next (n_next n)) (n_prev n) (os_nodes self) in
      let h := alter (set_prev (n_prev n)) (n_next n) h in
      mkOS h (delete key (os_map self))
  end.

(** [__iter__] and [__reversed__]: the keys met from [curr] until the
    sentinel is reached.  The loops have no bound of their own; the model is
    given the rounds. *)
Fixpoint iter_from (fuel : nat) (h : list (Node K)) (curr : nat) : Result (list (option K)) :=
  match fuel with
  | O => Raise OutOfFuel
  | S fuel' =>
      if (curr =? END)%nat then Ok []
      else rest ← iter_from fuel' h (n_next (deref h curr));
           Ok (n_key (deref h curr) :: rest)
  end.

Fixpoint reversed_from (fuel : nat) (h : list (Node K)) (curr : nat)
    : Result (list (option K)) :=
  match fuel with
  | O => Raise OutOfFuel
  | S fuel' =>
      if (curr =? END)%nat then Ok []
      else rest ← reversed_from fuel' h (n_prev (deref h curr));
           Ok (n_key (deref h curr) :: rest)
  end.

(** [list(self)] and [list(reversed(self))]; a list of [len(self)] nodes is
    walked in [len(self) + 1] rounds. *)
Definition iter (self : OrderedSet K) : Result (list (option K)) :=
  iter_from (S (len self)) (os_nodes self) (n_next (deref (os_nodes self) END)).

Definition reversed (self : OrderedSet K) : Result (list (option K)) :=
  reversed_from (S (len self)) (os_nodes self) (n_prev (deref (os_nodes self) END)).

Definition pop (last : bool) (self : OrderedSet K) : Popped K :=
  if (len self =? 0)%nat then KeyError
  else
    let e := deref (os_nodes self) END in
    let key := n_key (deref (os_nodes self) (if last then n_prev e else n_next e)) in
    Pop key (match key with
             | Some k => discard k self
             | None => self
             end).

End OrderedSet.

End Collections.

(** * The [use-visitor] pass of [process_environment] *)
Module UseVisitor.
Import Py Decoder Model.

(** The set [use_visitor_classes] and the attributes [use_visitor] and
    [use_visitor_top_class] of the class objects, by position: a class
    without an entry has no such attribute. *)
Record State := mkState {
  use_visitor_classes : gset nat;
  use_visitor : gmap nat bool;
  use_visitor_top_class : gmap nat bool
}.

(** [use_visitor_classes.add(cls); cls.use_visitor = True] *)
Definition mark (i : nat) (st : State) : State :=
  mkState ({[i]} ∪ use_visitor_classes st) (<[i := true]> (use_visitor st))
          (use_visitor_top_class st).

(** [cls.use_visitor_top_class = b] *)
Definition set_top_class (i : nat) (b : bool) (st : State) : State :=
  mkState (use_visitor_classes st) (use_visitor st) (<[i := b]> (use_visitor_top_class st)).

(** [cls.use_visitor = False] *)
Definition unmark (i : nat) (st : State) : State :=
  mkState (use_visitor_classes st) (<[i := false]> (use_visitor st))
          (use_visitor_top_class st).

(** [propagate_use_visitor(cls)], [cls] being the class object at position
    [i].  The recursion ends because of the set [use_visitor_classes]; the
    model is given [fuel] for its depth. *)
Fixpoint propagate_use_visitor (fuel : nat) (cls : list Class) (st : State) (i : nat)
    : Result State :=
  match fuel with
  | O => Raise OutOfFuel
  | S fuel' =>
      if bool_decide (i ∈ use_visitor_classes st) then Ok st
      else
        match cls !! i with
        | None => Raise IndexError
        | Some c =>
            let st := mark i st in
            st ← (if (length (_annotated_base_classes c) =? 0)%nat
                  then Ok (set_top_class i true st)
                  else foldM (propagate_use_visitor fuel' cls) (_annotated_base_classes c)
                             (set_top_class i false st));
            foldM (propagate_use_visitor fuel' cls) (_annotated_sub_classes c) st
        end
  end.

(** The body of the loop over [environment.annotated_classes]. *)
Definition use_visitor_step (fuel : nat) (cls : list Class) (st : State) (i : nat)
    : Result State :=
  match cls !! i with
  | None => Raise IndexError
  | Some c =>
      if bool_decide (is_Some (c_annotations c !! "use-visitor"))
      then propagate_use_visitor fuel cls st i
      else if bool_decide (use_visitor st !! i = None) then Ok (unmark i st)
      else Ok st
  end.

(** "Process use-visitor annotation": [cls] are the classes of the
    environment, [annotated_classes] the positions of its annotated classes,
    [use0] and [top0] the attributes the class objects have before. *)
Definition process_use_visitor (fuel : nat) (cls : list Class) (annotated_classes : list nat)
    (use0 top0 : gmap nat bool) : Result State :=
  foldM (use_visitor_step fuel cls) annotated_classes (mkState ∅ use0 top0).

End UseVisitor.

Module ClangFacts.
Import Clang.

Lemma is_reference_spec w :
  is_reference w = true ↔ t_kind (type w) ∈ [TK_LVALUEREFERENCE; TK_RVALUEREFERENCE].
Proof. unfold is_reference. apply bool_decide_eq_true. Qed.

Lemma remove_cv_const w :
  is_const w = true →
  remove_cv w = of_cursor (cursor w) (type w) true true false.
Proof. intros H. unfold remove_cv. by rewrite H. Qed.

Lemma remove_cv_plain w :
  is_volatile w = false →
  remove_cv w = of_cursor (cursor w) (type w) true true false.
Proof. intros H. unfold remove_cv. rewrite H. by rewrite andb_false_r. Qed.

(** The written guard returns the wrapper itself exactly when it is volatile
    and not const. *)
Lemma remove_cv_volatile_only w :
  is_const w = false → is_volatile w = true → remove_cv w = w.
Proof. intros Hc Hv. unfold remove_cv. by rewrite Hc, Hv. Qed.

(** A reference to a volatile, non-const type keeps its volatile qualifier
    through [value_type]. *)
Example value_type_volatile_ref :
  let vint := mkCType TK_BUILTIN false true false None no_decl in
  let r := of_type (mkCType TK_LVALUEREFERENCE false false false (Some vint) no_decl) in
  value_type r = Some (of_type vint) ∧ is_volatile (of_type vint) = true.
Proof. by vm_compute. Qed.

(** C8, as stated, fails: a wrapper that is not a reference is returned as it
    is, so a by-value [const] type comes back const-qualified. *)
Lemma C8_value_type_keeps_const_of_non_reference :
  ¬ (∀ w : CursorWrapper, ∃ vt, value_type w = Some vt ∧
       is_reference vt = false ∧ is_const vt = false ∧ is_volatile vt = false).
Proof.
  intros H.
  destruct (H (of_type (mkCType TK_BUILTIN true false false None no_decl)))
    as (vt & Hvt & _ & Hc & _).
  vm_compute in Hvt. inversion Hvt; subst. vm_compute in Hc. discriminate.
Qed.

(** C8 (amended): [value_type] returns a non-reference wrapper unchanged; for
    a reference whose pointee is const-qualified or is not volatile-qualified
    it returns a wrapper of the pointee that is neither const- nor
    volatile-qualified, and, the pointee of a reference never being a
    reference, not reference-kinded. *)
Theorem C8_value_type_strips_reference_then_cv (w : CursorWrapper) :
  (is_reference w = false → value_type w = Some w) ∧
  (∀ p, is_reference w = true → ref_wf (type w) → t_pointee (type w) = Some p →
        t_const p = true ∨ t_volatile p = false →
        ∃ vt, value_type w = Some vt ∧ type vt = p ∧
              is_reference vt = false ∧ is_const vt = false ∧ is_volatile vt = false).
Proof.
  split.
  - intros H. unfold value_type. by rewrite H.
  - intros p Href Hwf Hp Hq.
    unfold value_type, remove_reference. rewrite Href.
    unfold get_pointee. rewrite Hp. simpl.
    apply is_reference_spec in Href. destruct (Hwf Href) as (p' & Hp' & Hk).
    rewrite Hp in Hp'. inversion Hp'; subst p'.
    assert (Hcv : remove_cv (of_type p) =
                  of_cursor (cursor (of_type p)) (type (of_type p)) true true false).
    { destruct Hq as [Hc | Hv].
      - apply remove_cv_const. unfold is_const. simpl. by rewrite Hc.
      - apply remove_cv_plain. unfold is_volatile. simpl. by rewrite Hv. }
    eexists. split; [rewrite Hcv; reflexivity|]. simpl.
    repeat split; try reflexivity.
    unfold is_reference. simpl. by apply bool_decide_eq_false.
Qed.

Lemma C8_value_type_witness :
  let cint := mkCType TK_BUILTIN true false false None no_decl in
  let r := of_type (mkCType TK_LVALUEREFERENCE false false false (Some cint) no_decl) in
  ∃ vt, value_type r = Some vt ∧ type vt = cint ∧
        is_reference vt = false ∧ is_const vt = false ∧ is_volatile vt = false.
Proof.
  intros cint r.
  apply (proj2 (C8_value_type_strips_reference_then_cv r) cint).
  - reflexivity.
  - intros _. exists cint. split; [reflexivity|]. vm_compute. intros H.
    repeat (apply elem_of_cons in H as [H|H]; [discriminate|]). by apply elem_of_nil in H.
  - reflexivity.
  - left. reflexivity.
Defined.

End ClangFacts.

Module TypeSpellingFacts.
Import Py TypeSpelling.

Example tokenize_example :
  tokenize_type_spelling "Foo<Bar<int,4>,Baz>" =
  Ok [TokStr "Foo"; TokStr "<"; TokStr "Bar"; TokStr "<"; TokStr "int"; TokStr ",";
      TokInt 4; TokStr ">"; TokStr ","; TokStr "Baz"; TokStr ">"].
Proof. vm_compute. reflexivity. Qed.

Definition foo_tree : Tree :=
  Node (TokStr "Foo")
       (Some [Node (TokStr "Bar") (Some [Node (TokStr "int") None; Lit 4]);
              Node (TokStr "Baz") None]).

Example to_str_example : to_str foo_tree = "Foo<Bar<int, 4>, Baz>".
Proof. vm_compute. reflexivity. Qed.

(** C6: the spelling [Foo<Bar<int,4>,Baz>] parses to Foo(Bar(int,4), Baz),
    and the string of that tree parses back to the same tree. *)
Theorem C6_parse_and_round_trip :
  analyze_type_spelling "Foo<Bar<int,4>,Baz>" = Ok (Some foo_tree) ∧
  analyze_type_spelling (to_str foo_tree) = Ok (Some foo_tree).
Proof. split; vm_compute; reflexivity. Qed.

End TypeSpellingFacts.

Module PyStrFacts.
Import PyStr.

Lemma app_nil_l (s : string) : "" +:+ s = s.
Proof. reflexivity. Qed.

Lemma app_cons (c : ascii) (s t : string) : String c s +:+ t = String c (s +:+ t).
Proof. reflexivity. Qed.

Lemma startswith_app (p s : string) : startswith (p +:+ s) p = true.
Proof.
  induction p as [|c p IH]; [reflexivity|].
  rewrite app_cons. simpl. rewrite Ascii.eqb_refl. exact IH.
Qed.

Lemma drop_app (p s : string) : drop (String.length p) (p +:+ s) = s.
Proof. induction p as [|c p IH]; [by destruct s|]. rewrite app_cons. exact IH. Qed.

Lemma take_app (p s : string) : take (String.length p) (p +:+ s) = p.
Proof.
  induction p as [|c p IH]; [by destruct s|].
  rewrite app_cons. simpl. by rewrite IH.
Qed.

Lemma drop_app_cons (p : string) (c : ascii) (s : string) :
  drop (String.length p + 1) (p +:+ String c s) = s.
Proof.
  induction p as [|d p IH]; [by destruct s|]. rewrite app_cons. exact IH.
Qed.

Lemma find_app_fresh (c : ascii) (p s : string) :
  find c p = None → find c (p +:+ String c s) = Some (String.length p).
Proof.
  induction p as [|d p IH]; intros H.
  - rewrite app_nil_l. simpl. by rewrite Ascii.eqb_refl.
  - rewrite app_cons. simpl in *. destruct (Ascii.eqb d c); [discriminate|].
    destruct (find c p); [discriminate|]. by rewrite IH.
Qed.

Lemma rfind_app_fresh (c : ascii) (p s : string) :
  rfind c s = None → rfind c (p +:+ String c s) = Some (String.length p).
Proof.
  intros H. induction p as [|d p IH].
  - rewrite app_nil_l. simpl. rewrite H. by rewrite Ascii.eqb_refl.
  - rewrite app_cons. simpl. by rewrite IH.
Qed.

End PyStrFacts.

Module DecoderFacts.
Import Py PyStr PyStrFacts Decoder.

(** Reading a quoted literal without escapes: the quotes are taken off; a
    text that holds a backslash or a quote between its quotes, or does not
    end with a quote, is refused.  (An instance of [json.loads] for the
    examples below.) *)
Definition loads_plain (s : string) : option string :=
  let inner := PyStr.take (String.length s - 2) (PyStr.drop 1 s) in
  if PyStr.endswith s (String PyStr.dquote EmptyString)
     && (2 <=? String.length s)%nat
     && negb (PyStr.contains inner (String PyStr.backslash EmptyString))
     && negb (PyStr.contains inner (String PyStr.dquote EmptyString))
  then Some inner else None.

(** ** The call-argument protocol *)

Lemma group_step_keeps_annotations st p :
  is_end_of_parameters p = false →
  g_annotations (group_step st p) = g_annotations st.
Proof.
  intros H. unfold group_step. rewrite H. by destruct (first_param st).
Qed.

Lemma fold_group_no_sentinel tail st :
  Forall (fun p => is_end_of_parameters p = false) tail →
  g_annotations (fold_left group_step tail st) = g_annotations st.
Proof.
  intros H. revert st. induction H as [|p tail Hp _ IH]; intros st; [reflexivity|].
  simpl. rewrite IH. by apply group_step_keeps_annotations.
Qed.

(** Whatever follows the last end-of-parameters sentinel is absent from the
    output of the grouping loop. *)
Lemma group_drops_open_tail params tail :
  Forall (fun p => is_end_of_parameters p = false) tail →
  group (params ++ tail) = group params.
Proof.
  intros H. unfold group. rewrite fold_left_app. by apply fold_group_no_sentinel.
Qed.

Definition str_arg (s : string) : ArgCursor :=
  mkArg OTHER_EXPR None false ""
        [mkArg STRING_LITERAL None false s []].

Definition type_arg (full : string) : ArgCursor :=
  mkArg OTHER_EXPR None false "" [mkArg TYPE_REF (Some full) false "" []].

(** C1: the parameters that follow the last end-of-parameters sentinel of a
    marker call, an invocation that is still open when the argument list ends,
    leave no trace in the decoded item: its invocations are those of the
    parameters up to that sentinel.  The open invocation is not closed at the
    end of the list, it is lost. *)
Theorem C1_open_invocation_is_dropped (json_loads : string → option string)
    (spelling : string) (args : list ArgCursor)
    (p0 : AnnotationParam) (params tail : list AnnotationParam) :
  collect_annotation_params json_loads args = Ok (p0 :: params ++ tail) →
  Forall (fun p => is_end_of_parameters p = false) tail →
  ∃ it, from_cursor json_loads spelling args = Ok (Some it)
        ∧ annotations it = group params.
Proof.
  intros Hc Ht. unfold from_cursor. destruct args as [|a args]; [done|].
  rewrite Hc. eexists. split; [reflexivity|]. simpl.
  by apply group_drops_open_tail.
Qed.

(** The call [arvida_reflect_object(C, "arvida-object-semantic", "foo")],
    without sentinel, decodes to an item with no invocation at all. *)
Lemma C1_open_invocation_witness :
  ∃ it, from_cursor loads_plain "arvida_reflect_object"
          [type_arg "::C"; str_arg "arvida-object-semantic"; str_arg "foo"] = Ok (Some it)
        ∧ annotations it = [].
Proof.
  apply (C1_open_invocation_is_dropped loads_plain "arvida_reflect_object"
           [type_arg "::C"; str_arg "arvida-object-semantic"; str_arg "foo"]
           (mkParam TYPE_PARAM "" (Some "::C")) []
           [mkParam STRING_PARAM "arvida-object-semantic" None;
            mkParam STRING_PARAM "foo" None]).
  - reflexivity.
  - repeat constructor.
Defined.

(** With the sentinel the same invocation is decoded. *)
Example closed_invocation_is_decoded (json_loads : string → option string) :
  from_cursor json_loads "arvida_reflect_object"
    [type_arg "::C"; str_arg "arvida-object-semantic"; str_arg "foo"; str_arg "arvida-eop"]
  = Ok (Some (mkItem "arvida_reflect_object" (Some (mkParam TYPE_PARAM "" (Some "::C")))
                [mkAnnotation (Some "arvida-object-semantic")
                   [mkParam STRING_PARAM "foo" None]])).
Proof. reflexivity. Qed.

(** ** The marker-attribute protocol *)

Lemma dd_append_empty k v : dd_append k v ∅ = {[ k := [v] ]}.
Proof. unfold dd_append. by rewrite lookup_empty. Qed.

Lemma attr_step_begin r name sfx :
  rfind "-" sfx = None →
  attr_step (mkAS r None) (begin_marker name sfx) = mkAS r (Some (name, [])).
Proof.
  intros H. unfold attr_step, begin_marker. simpl. rewrite !app_nil_l.
  change ("-" +:+ sfx) with (String "-" sfx).
  rewrite (rfind_app_fresh _ _ _ H). by rewrite take_app.
Qed.

Lemma attr_step_value r name values tv :
  find ":" tv.1 = None →
  attr_step (mkAS r (Some (name, values))) (value_marker tv)
  = mkAS r (Some (name, values ++ [tv.2])).
Proof.
  intros H. unfold attr_step, value_marker. simpl. rewrite !app_nil_l.
  change (":" +:+ tv.2) with (String ":" tv.2).
  rewrite (find_app_fresh _ _ _ H). by rewrite drop_app_cons.
Qed.

Lemma attr_step_end r name values sfx :
  attr_step (mkAS r (Some (name, values))) (end_marker sfx)
  = mkAS (dd_append name (AVTuple values) r) None.
Proof.
  unfold attr_step, end_marker. reflexivity.
Qed.

Lemma attr_fold_values r name values tvs :
  Forall (fun tv => find ":" tv.1 = None) tvs →
  fold_left attr_step (value_marker <$> tvs) (mkAS r (Some (name, values)))
  = mkAS r (Some (name, values ++ tvs.*2)).
Proof.
  intros H. revert values. induction H as [|tv tvs Htv _ IH]; intros values.
  - simpl. by rewrite app_nil_r.
  - simpl. rewrite attr_step_value by done. rewrite IH. by rewrite <- app_assoc.
Qed.

Lemma attr_fold_filter l st :
  fold_left attr_step l st = fold_left attr_step (List.filter is_annotate_attr l) st.
Proof.
  revert st. induction l as [|c l IH]; intros st; [done|]. simpl.
  destruct (is_annotate_attr c) eqn:E; simpl; rewrite <- IH; [done|].
  unfold attr_step at 2. by rewrite E.
Qed.

(** While a parameter is open and no end marker comes, it stays open under
    its name, and nothing is committed. *)
Lemma attr_fold_open r name :
  ∀ rest values,
    Forall (fun c => PyStr.startswith (displayname c) (PARAM_END +:+ "-") = false) rest →
    ∃ values', fold_left attr_step rest (mkAS r (Some (name, values)))
               = mkAS r (Some (name, values')).
Proof.
  induction rest as [|c rest IH]; intros values H; [by exists values|].
  apply Forall_cons in H as [Hc H]. simpl.
  assert (∃ v1, attr_step (mkAS r (Some (name, values))) c = mkAS r (Some (name, v1)))
    as [v1 ->]; [|by apply IH].
  unfold attr_step.
  change (current_param (mkAS r (Some (name, values)))) with (Some (name, values)).
  cbv iota beta. rewrite Hc.
  destruct (is_annotate_attr c); [|by eexists].
  destruct (PyStr.startswith (displayname c) PARAM_VALUE_PREFIX); by eexists.
Qed.

(** ** A parameter among other marker attributes *)

(** The values a dictionary of annotations holds under a key. *)
Definition entries (key : string) (m : gmap string (list AnnoValue)) : list AnnoValue :=
  default [] (m !! key).

(** What the decoder makes of marker attributes given in authoring order. *)
Definition decode (markers : list Child) : gmap string (list AnnoValue) :=
  attr_finish (fold_left attr_step markers (mkAS ∅ None)).

(** No parameter is open after the marker attributes [markers]. *)
Definition closed (markers : list Child) : Prop :=
  current_param (fold_left attr_step markers (mkAS ∅ None)) = None.

(** The marker is no end marker. *)
Definition not_end (c : Child) : Prop :=
  PyStr.startswith (displayname c) (PARAM_END +:+ "-") = false.

(** The value a marker attribute inside a parameter carries: that of a
    value marker, the text after its disambiguation token and the colon. *)
Definition carried_value (c : Child) : option string :=
  if is_annotate_attr c && PyStr.startswith (displayname c) PARAM_VALUE_PREFIX then
    let value := PyStr.drop (String.length PARAM_VALUE_PREFIX) (displayname c) in
    Some (match PyStr.find ":" value with
          | Some pos => PyStr.drop (pos + 1) value
          | None => value
          end)
  else None.

Definition carried (inside : list Child) : list string := omap carried_value inside.

Lemma get_annotations_decode children :
  get_annotations_from_cursor children
  = decode (List.filter is_annotate_attr (reverse children)).
Proof. unfold get_annotations_from_cursor, decode. by rewrite attr_fold_filter. Qed.

Lemma entries_dd_append key k v m :
  entries key (dd_append k v m) = entries key m ++ (if decide (key = k) then [v] else []).
Proof.
  unfold entries, dd_append. destruct (decide (key = k)) as [->|Hne].
  - by rewrite lookup_insert_eq.
  - rewrite lookup_insert_ne by done. by rewrite app_nil_r.
Qed.

(** The decoder is additive: what is in the dictionary stays in front. *)
Definition ahead (r : gmap string (list AnnoValue)) (st st0 : AttrState) : Prop :=
  current_param st = current_param st0
  ∧ ∀ key, entries key (result st) = entries key r ++ entries key (result st0).

Lemma attr_step_ahead r st st0 c : ahead r st st0 → ahead r (attr_step st c) (attr_step st0 c).
Proof.
  destruct st as [m cp], st0 as [m0 cp0]. intros [Hcp He]. simpl in Hcp, He. subst cp0.
  assert (Hdd : ∀ k v, ∀ key, entries key (dd_append k v m)
                              = entries key r ++ entries key (dd_append k v m0)).
  { intros k v key. by rewrite !entries_dd_append, He, <- app_assoc. }
  unfold attr_step. cbn [current_param result].
  destruct (is_annotate_attr c); [|by split].
  destruct cp as [[name values]|].
  - destruct (PyStr.startswith _ _); [split; [done|apply Hdd]|].
    destruct (PyStr.startswith _ _); by split.
  - destruct (PyStr.startswith _ _); [by split|].
    destruct (PyStr.split1 "=" (displayname c)) as [|k [|v [|x l]]];
      (split; [done|apply Hdd]).
Qed.

Lemma attr_fold_ahead r l :
  ∀ st st0, ahead r st st0 → ahead r (fold_left attr_step l st) (fold_left attr_step l st0).
Proof.
  induction l as [|c l IH]; intros st st0 H; [done|]. simpl. by apply IH, attr_step_ahead.
Qed.

Lemma attr_finish_ahead r st st0 key :
  ahead r st st0 →
  entries key (attr_finish st) = entries key r ++ entries key (attr_finish st0).
Proof.
  destruct st as [m cp], st0 as [m0 cp0]. intros [Hcp He]. simpl in Hcp, He. subst cp0.
  unfold attr_finish. cbn [current_param result]. destruct cp as [[name values]|]; [|done].
  by rewrite !entries_dd_append, He, <- app_assoc.
Qed.

Lemma decode_after r after key :
  entries key (attr_finish (fold_left attr_step after (mkAS r None)))
  = entries key r ++ entries key (decode after).
Proof.
  apply attr_finish_ahead, attr_fold_ahead. split; [done|]. intros k. simpl.
  unfold entries at 3. by rewrite lookup_empty, app_nil_r.
Qed.

Lemma attr_step_inside r name values c :
  not_end c →
  attr_step (mkAS r (Some (name, values))) c
  = mkAS r (Some (name, values ++ from_option (fun v => [v]) [] (carried_value c))).
Proof.
  unfold not_end, attr_step, carried_value. cbn [current_param result]. intros ->.
  destruct (is_annotate_attr c); cbn [andb]; [|by rewrite app_nil_r].
  destruct (PyStr.startswith (displayname c) PARAM_VALUE_PREFIX); [done|].
  by rewrite app_nil_r.
Qed.

Lemma attr_fold_inside r name inside :
  ∀ values, Forall not_end inside →
    fold_left attr_step inside (mkAS r (Some (name, values)))
    = mkAS r (Some (name, values ++ carried inside)).
Proof.
  induction inside as [|c inside IH]; intros values H.
  - simpl. by rewrite app_nil_r.
  - apply Forall_cons in H as [Hc H]. cbn [fold_left].
    rewrite (attr_step_inside _ _ _ _ Hc), (IH _ H). unfold carried. cbn [omap list_omap].
    destruct (carried_value c); simpl; by rewrite <- app_assoc.
Qed.

Lemma carried_value_marker tv :
  PyStr.find ":" tv.1 = None → carried_value (value_marker tv) = Some tv.2.
Proof.
  intros H. unfold carried_value, value_marker. simpl. rewrite !app_nil_l.
  change (":" +:+ tv.2) with (String ":" tv.2).
  rewrite (find_app_fresh _ _ _ H). by rewrite drop_app_cons.
Qed.

Lemma carried_value_markers tvs :
  Forall (fun tv => PyStr.find ":" tv.1 = None) tvs →
  carried (value_marker <$> tvs) = tvs.*2 ∧ Forall not_end (value_marker <$> tvs).
Proof.
  induction 1 as [|tv tvs Htv _ [IH1 IH2]]; [by split; [|constructor]|].
  rewrite !fmap_cons. split.
  - unfold carried in *. cbn [omap list_omap]. rewrite (carried_value_marker _ Htv).
    simpl. by rewrite IH1.
  - constructor; [reflexivity|done].
Qed.

(** The decoder up to the end of a parameter that is begun while none is
    open. *)
Lemma attr_fold_parameter before name sfx inside :
  PyStr.rfind "-" sfx = None → closed before → Forall not_end inside →
  fold_left attr_step (before ++ begin_marker name sfx :: inside) (mkAS ∅ None)
  = mkAS (decode before) (Some (name, carried inside)).
Proof.
  intros Hs Hb Hi. rewrite fold_left_app. unfold closed in Hb. unfold decode, attr_finish.
  destruct (fold_left attr_step before (mkAS ∅ None)) as [r cp]. simpl in Hb. subst cp.
  cbn [fold_left current_param result]. rewrite attr_step_begin by done.
  by rewrite (attr_fold_inside _ _ _ [] Hi).
Qed.

(** C5, as stated, fails: a list with two sequences for [X] gives two tuples
    under [X]; and a list in which the begin marker for [X] comes while the
    parameter [Y] is open, gives the tuple of the values to [Y] and nothing to
    [X].  (The children are listed in the order of libclang, the reverse of
    the authoring order.) *)
Lemma C5_sequence_among_other_markers :
  get_annotations_from_cursor
    [mkChild true "arvida-eop-1"; mkChild true "arvida-param-1:d";
     mkChild true "arvida-param-1:c"; mkChild true "arvida-X-1";
     mkChild true "arvida-eop-0"; mkChild true "arvida-param-0:b";
     mkChild true "arvida-param-0:a"; mkChild true "arvida-X-0"]
  = {[ "X" := [AVTuple ["a"; "b"]; AVTuple ["c"; "d"]] ]}
  ∧
  get_annotations_from_cursor
    [mkChild true "arvida-eop-1"; mkChild true "arvida-param-1:b";
     mkChild true "arvida-param-1:a"; mkChild true "arvida-X-1"; mkChild true "arvida-Y-0"]
  = {[ "Y" := [AVTuple ["a"; "b"]] ]}.
Proof. split; vm_compute; reflexivity. Qed.

(** C5 (amended): when the marker attributes among the children of a
    declaration hold, in authoring order (the reverse of the order of the
    children), a begin marker for [name] that comes while no parameter is
    open, then markers none of which is an end marker, and an end marker, the
    decoder adds exactly one tuple under [name], that of the values carried by
    the markers in between: the values under [name] are those of the markers
    before, this tuple, and those of the markers after, and the other keys
    hold what the markers before and after give them.  Without the end marker
    the tuple is committed all the same when the list ends.  The values
    carried by value markers are their values, in their order. *)
Theorem C5_marker_sequence_commits_one_tuple
    (name sfx esfx : string) (before inside after : list Child) (children : list Child) :
  PyStr.rfind "-" sfx = None →
  closed before →
  Forall not_end inside →
  (List.filter is_annotate_attr (reverse children)
     = before ++ begin_marker name sfx :: inside ++ end_marker esfx :: after →
   ∀ key, entries key (get_annotations_from_cursor children)
          = entries key (decode before)
            ++ (if decide (key = name) then [AVTuple (carried inside)] else [])
            ++ entries key (decode after))
  ∧ (List.filter is_annotate_attr (reverse children)
       = before ++ begin_marker name sfx :: inside →
     ∀ key, entries key (get_annotations_from_cursor children)
            = entries key (decode before)
              ++ (if decide (key = name) then [AVTuple (carried inside)] else []))
  ∧ (∀ tvs, Forall (fun tv => PyStr.find ":" tv.1 = None) tvs →
            carried (value_marker <$> tvs) = tvs.*2
            ∧ Forall not_end (value_marker <$> tvs)).
Proof.
  intros Hs Hb Hi. split; [|split].
  - intros H key. rewrite get_annotations_decode, H. unfold decode at 1.
    replace (before ++ begin_marker name sfx :: inside ++ end_marker esfx :: after)
      with ((before ++ begin_marker name sfx :: inside) ++ end_marker esfx :: after)
      by (by rewrite <- List.app_assoc).
    rewrite fold_left_app, (attr_fold_parameter before name sfx inside Hs Hb Hi).
    cbn [fold_left]. rewrite attr_step_end, decode_after, entries_dd_append.
    by rewrite <- app_assoc.
  - intros H key. rewrite get_annotations_decode, H. unfold decode at 1.
    rewrite (attr_fold_parameter before name sfx inside Hs Hb Hi).
    unfold attr_finish. cbn [current_param result]. apply entries_dd_append.
  - apply carried_value_markers.
Qed.

(** A declaration with the flag [hidden], the sequence for [X] with the
    values [a] and [b], and a second sequence for [X]. *)
Lemma C5_marker_sequence_witness :
  let children :=
    [mkChild true "arvida-eop-1"; mkChild true "arvida-param-1:c"; mkChild true "arvida-X-1";
     mkChild true "arvida-eop-0"; mkChild true "arvida-param-0:b";
     mkChild false "getName"; mkChild true "arvida-param-0:a";
     mkChild true "arvida-X-0"; mkChild true "hidden"] in
  let after :=
    [mkChild true "arvida-X-1"; mkChild true "arvida-param-1:c"; mkChild true "arvida-eop-1"] in
  entries "X" (get_annotations_from_cursor children)
  = entries "X" (decode [mkChild true "hidden"]) ++ [AVTuple ["a"; "b"]]
    ++ entries "X" (decode after)
  ∧ entries "hidden" (get_annotations_from_cursor children)
    = entries "hidden" (decode [mkChild true "hidden"]) ++ []
      ++ entries "hidden" (decode after).
Proof.
  intros children after.
  pose proof (proj1 (C5_marker_sequence_commits_one_tuple "X" "0" "0"
                       [mkChild true "hidden"]
                       [mkChild true "arvida-param-0:a"; mkChild true "arvida-param-0:b"]
                       after children eq_refl eq_refl
                       ltac:(repeat constructor)) eq_refl) as H.
  split; [exact (H "X")|exact (H "hidden")].
Defined.

End DecoderFacts.

Module ModelFacts.
Import Py Decoder Model.
Import DecoderFacts.

Lemma bind_Ok {A B} (m : Result A) (k : A → Result B) (b : B) :
  (x ← m; k x) = Ok b ↔ ∃ a, m = Ok a ∧ k a = Ok b.
Proof.
  unfold mbind, Result_mbind, bind. destruct m as [a|e]; split.
  - intros H. by exists a.
  - by intros (a' & [= ->] & H).
  - discriminate.
  - by intros (a' & [=] & _).
Qed.

Definition plain_cw : Clang.CursorWrapper :=
  Clang.of_cursor (Clang.mkCursor Clang.CK_CXX_METHOD "" 0) Clang.invalid_type false false false.

Definition empty_class (nm : string) : Class := mkClass nm ∅ [] [] [] [] [] [].

Definition empty_env (cls : list Class) (items : list AnnotatedItem) : Environment :=
  mkEnv cls items ∅ [] ∅ ∅ [] [] [].

Definition sparam (s : string) : AnnotationParam := mkParam STRING_PARAM s None.
Definition tparam (s : string) : AnnotationParam := mkParam TYPE_PARAM "" (Some s).

(** A class, or one of its members, carries an annotation; or the class has
    a resolved uid-accessor. *)
Definition carries_annotation (c : Class) : bool :=
  dict_nonempty (c_annotations c)
  || existsb (fun m => dict_nonempty (member_annotations m)) (members c)
  || bool_decide (is_Some (c_annotations c !! "uid-method")).

(** The environment of one class [::C] without members, and one annotated
    declaration for [::C] whose only invocation names the field [missing]. *)
Definition lookup_miss_env : Environment :=
  empty_env [empty_class "::C"]
    [mkItem "arvida_reflect_object" (Some (tparam "::C"))
       [mkAnnotation (Some "arvida-field-semantic") [sparam "missing"; sparam "x"]]].

(** C9, as stated, fails: the target class of an annotated declaration is put
    into the annotated-class set even when every invocation of the declaration
    is dropped, so that neither the class nor a member carries an annotation. *)
Lemma C9_target_of_dropped_annotation_is_annotated :
  ∃ env', build_index loads_plain lookup_miss_env = Ok env' ∧
          annotated_classes env' = [0%nat] ∧
          classes env' = [empty_class "::C"] ∧
          carries_annotation (empty_class "::C") = false.
Proof. eexists. split; [vm_compute; reflexivity|]. by vm_compute. Qed.

(** ** Membership in the annotated-class set *)

Lemma foldM_inv {A S} (R : S → S → Prop) (f : S → A → Result S) :
  (∀ s, R s s) → (∀ a b c, R a b → R b c → R a c) →
  (∀ s x s', f s x = Ok s' → R s s') →
  ∀ l s s', foldM f l s = Ok s' → R s s'.
Proof.
  intros Hrefl Htrans Hstep l. induction l as [|x l IH]; intros s s' H; simpl in H.
  - injection H as <-. apply Hrefl.
  - apply bind_Ok in H as (s1 & H1 & H). eauto.
Qed.

Lemma set_add_elem (i j : nat) (l : list nat) : i ∈ set_add j l ↔ i = j ∨ i ∈ l.
Proof.
  unfold set_add. case_bool_decide.
  - split; [by right|]. by intros [->|?].
  - rewrite elem_of_app, list_elem_of_singleton. tauto.
Qed.

(** The names of the functions a class defines itself. *)
Definition fnames (c : Class) : list string := fn_name <$> _functions c.

Lemma has_method_fnames m c : has_method m c = true ↔ m ∈ fnames c.
Proof.
  unfold has_method, find_functions, fnames. rewrite bool_decide_eq_true.
  induction (_functions c) as [|f l IH]; simpl.
  - split; [done|]. by intros ?%elem_of_nil.
  - rewrite filter_cons. rewrite elem_of_cons. case_decide as Hf.
    + split; [intros _; by left|done].
    + rewrite IH. split; [by right|]. by intros [?|?].
Qed.

Lemma has_method_ext m c c' : fnames c = fnames c' → has_method m c = has_method m c'.
Proof.
  intros E. apply eq_true_iff_eq. rewrite !has_method_fnames. by rewrite E.
Qed.

Lemma fnames_class_add k v c : fnames (class_add k v c) = fnames c.
Proof. reflexivity. Qed.

Lemma fnames_annotate_members nm k v c : fnames (annotate_members nm k v c) = fnames c.
Proof.
  destruct c as [fn an fns flds bs anon ab asub]. unfold fnames. simpl.
  rewrite <- list_fmap_compose. apply list_fmap_ext. intros _ f _. simpl.
  by destruct (String.eqb (fn_name f) nm).
Qed.

Lemma fnames_annotate_field nm k v c c' :
  annotate_field nm k v c = Some c' → fnames c' = fnames c.
Proof.
  destruct c as [fn an fns flds bs anon ab asub]. simpl.
  intros H. repeat case_match; by simplify_eq.
Qed.

Lemma fnames_class_step cls ca cls' :
  class_step cls ca = Ok cls' → fnames cls' = fnames cls.
Proof.
  unfold class_step. intros H.
  repeat match type of H with
         | (if ?b then _ else _) = _ => destruct b
         | (_ ← _; _) = Ok _ => apply bind_Ok in H as (? & _ & H)
         | Ok _ = Ok _ => injection H as <-
         end;
    rewrite ?fnames_annotate_members, ?fnames_class_add; try done.
  - revert H. apply (foldM_inv (fun a b => fnames b = fnames a)); [done|congruence|].
    intros s x s' (v & _ & [= <-])%bind_Ok. done.
  - destruct (annotate_field _ _ _ cls) eqn:E; simpl; [|done].
    by apply fnames_annotate_field in E.
Qed.

Lemma fnames_insert (cls : list Class) i c c' :
  cls !! i = Some c → fnames c' = fnames c →
  fnames <$> <[i := c']> cls = fnames <$> cls.
Proof.
  intros Hi E. rewrite list_fmap_insert, E.
  apply list_insert_id. by rewrite list_lookup_fmap, Hi.
Qed.

Lemma get_class_Some names (cls : list Class) nm i c :
  get_class names cls nm = Some (i, c) ↔ names !! nm = Some i ∧ cls !! i = Some c.
Proof.
  unfold get_class. destruct (names !! nm) as [j|]; simpl.
  - destruct (cls !! j) as [d|] eqn:E; simpl.
    + split; [by intros [= <- <-]|].
      intros [[= <-] Hc]. rewrite E in Hc. by injection Hc as <-.
    + split; [done|]. intros [[= <-] Hc]. by rewrite E in Hc.
  - split; [done|]. by intros [? _].
Qed.

Lemma get_class_None names (cls : list Class) nm :
  get_class names cls nm = None ↔ ∀ i, names !! nm = Some i → cls !! i = None.
Proof.
  unfold get_class. destruct (names !! nm) as [j|]; simpl.
  - destruct (cls !! j) as [d|] eqn:E; simpl.
    + split; [done|]. intros H. specialize (H j eq_refl). by rewrite E in H.
    + split; [|done]. by intros _ i [= <-].
  - split; [|done]. by intros _ i.
Qed.

(** What one annotated declaration does to the function names and to the
    annotated-class set. *)
Definition step_rel (names : gmap string nat) (items : list AnnotatedItem)
    (st st' : IndexState) : Prop :=
  fnames <$> is_classes st' = fnames <$> is_classes st ∧
  ∀ i, i ∈ is_annotated st' ↔
       i ∈ is_annotated st ∨
       ∃ a fn, a ∈ items ∧ item_full_name a = Ok fn ∧
               names !! fn = Some i ∧ (i < length (is_classes st))%nat.

Lemma annotation_step_rel names st a st' :
  annotation_step names st a = Ok st' → step_rel names [a] st st'.
Proof.
  unfold annotation_step. intros H.
  apply bind_Ok in H as (g & _ & H). apply bind_Ok in H as (fn & Hfn & H).
  destruct (get_class names (is_classes st) fn) as [[i cls]|] eqn:Hg.
  - apply bind_Ok in H as (cls' & Hcls & [= <-]). simpl.
    apply get_class_Some in Hg as [Hn Hi].
    assert (fnames cls' = fnames cls) as E.
    { revert Hcls. apply (foldM_inv (fun a b => fnames b = fnames a)); [done|congruence|].
      intros ???. apply fnames_class_step. }
    split; [by eapply fnames_insert|].
    intros j. simpl. rewrite set_add_elem. split.
    + intros [->|?]; [right|by left]. exists a, fn. rewrite list_elem_of_singleton.
      repeat split; try done. by eapply lookup_lt_Some.
    + intros [?|(a' & fn' & ->%list_elem_of_singleton & Hfn' & Hn' & _)]; [by right|].
      left. congruence.
  - injection H as <-. simpl. split; [done|].
    intros j. split; [by left|].
    intros [?|(a' & fn' & ->%list_elem_of_singleton & Hfn' & Hn' & Hlt)]; [done|].
    assert (fn' = fn) as -> by congruence.
    apply lookup_lt_is_Some in Hlt as [c Hc].
    rewrite get_class_None in Hg. specialize (Hg _ Hn'). congruence.
Qed.

Lemma annotation_fold_rel names items st st' :
  foldM (annotation_step names) items st = Ok st' → step_rel names items st st'.
Proof.
  revert st. induction items as [|a items IH]; intros st H; simpl in H.
  - injection H as <-. split; [done|]. intros i. split; [by left|].
    intros [?|(a & fn & ?%elem_of_nil & _)]; done.
  - apply bind_Ok in H as (st1 & H1 & H).
    apply annotation_step_rel in H1 as [E1 M1]. apply IH in H as [E2 M2].
    split; [congruence|].
    assert (length (is_classes st1) = length (is_classes st)) as L.
    { by rewrite <- (length_fmap fnames), E1, length_fmap. }
    intros i. rewrite M2, M1, L. split.
    + intros [[?|(a' & fn & ->%list_elem_of_singleton & ?)]|(a' & fn & ? & ?)].
      * by left.
      * right. exists a, fn. split; [by left|done].
      * right. exists a', fn. split; [by right|done].
    + intros [?|(a' & fn & [->|?]%elem_of_cons & ?)].
      * by left; left.
      * left; right. exists a, fn. by rewrite list_elem_of_singleton.
      * right. by exists a', fn.
Qed.

Lemma index_classes_go (l : list Class) (k : nat) (m : gmap string nat) (ann : list nat) :
  let r := fold_left index_class (imap (fun j c => ((k + j)%nat, c)) l) (m, ann) in
  (∀ i, i ∈ r.2 ↔ i ∈ ann ∨ ∃ j c, l !! j = Some c ∧ i = (k + j)%nat ∧ has_annotations c = true)
  ∧ (∀ nm i, r.1 !! nm = Some i → m !! nm = Some i ∨ (k ≤ i < k + length l)%nat).
Proof.
  revert k m ann. induction l as [|c l IH]; intros k m ann; simpl.
  - split; [|by left]. intros i. split; [by left|].
    intros [?|(j & c & H & _)]; [done|by rewrite lookup_nil in H].
  - rewrite (imap_ext _ (fun j c => ((S k + j)%nat, c))) by (intros; simpl; f_equal; lia).
    destruct (IH (S k) (<[full_name c := (k + 0)%nat]> m)
                 (if has_annotations c then set_add (k + 0) ann else ann)) as [M N].
    split.
    + intros i. unfold index_class at 2. simpl. rewrite M. split.
      * intros [Hi|(j & c' & Hj & -> & Hc)].
        -- destruct (has_annotations c) eqn:Hc; [|by left].
           apply set_add_elem in Hi as [->|?]; [|by left].
           right. by exists 0%nat, c.
        -- right. exists (S j), c'. repeat split; [done|lia|done].
      * intros [Hi|([|j] & c' & Hj & -> & Hc)].
        -- left. destruct (has_annotations c); [|done]. apply set_add_elem. by right.
        -- simpl in Hj. injection Hj as <-. left. rewrite Hc. apply set_add_elem. by left.
        -- right. exists j, c'. repeat split; [done|lia|done].
    + intros nm i Hi. unfold index_class at 2 in Hi. simpl in Hi.
      apply N in Hi as [Hi|?]; [|right; lia].
      apply lookup_insert_Some in Hi as [[_ <-]|[_ ?]]; [right; lia|by left].
Qed.

Lemma index_classes_spec (cls : list Class) :
  (∀ i, i ∈ (index_classes cls).2 ↔ ∃ c, cls !! i = Some c ∧ has_annotations c = true)
  ∧ (∀ nm i, (index_classes cls).1 !! nm = Some i → (i < length cls)%nat).
Proof.
  destruct (index_classes_go cls 0 ∅ []) as [M N]. unfold index_classes. split.
  - intros i. rewrite M. split.
    + intros [?%elem_of_nil|(j & c & ? & -> & ?)]; [done|]. by exists c.
    + intros (c & ? & ?). right. by exists i, c.
  - intros nm i Hi. apply N in Hi as [Hi|?]; [by rewrite lookup_empty in Hi|lia].
Qed.

Lemma uid_collect_go (m : string) (l : list Class) (k : nat) (ann : list nat) (i : nat) :
  i ∈ fold_left (uid_collect m) (imap (fun j c => ((k + j)%nat, c)) l) ann ↔
  i ∈ ann ∨ ∃ j c, l !! j = Some c ∧ i = (k + j)%nat ∧ has_method m c = true.
Proof.
  revert k ann. induction l as [|c l IH]; intros k ann; simpl.
  - split; [by left|]. intros [?|(j & c & H & _)]; [done|by rewrite lookup_nil in H].
  - rewrite (imap_ext _ (fun j c => ((S k + j)%nat, c))) by (intros; simpl; f_equal; lia).
    rewrite IH. unfold uid_collect at 1. simpl. split.
    + intros [Hi|(j & c' & Hj & -> & Hc)].
      * destruct (has_method m c) eqn:Hc; [|by left].
        apply set_add_elem in Hi as [->|?]; [|by left].
        right. by exists 0%nat, c.
      * right. exists (S j), c'. repeat split; [done|lia|done].
    + intros [Hi|([|j] & c' & Hj & -> & Hc)].
      * left. destruct (has_method m c); [|done]. apply set_add_elem. by right.
      * simpl in Hj. injection Hj as <-. left. rewrite Hc. apply set_add_elem. by left.
      * right. exists j, c'. repeat split; [done|lia|done].
Qed.

Lemma fnames_uid_mark m (cls : list Class) :
  fnames <$> (uid_mark m <$> cls) = fnames <$> cls.
Proof.
  rewrite <- list_fmap_compose. apply list_fmap_ext. intros _ c _. simpl.
  unfold uid_mark. by destruct (has_method m c).
Qed.

Lemma has_method_lookup_ext m (cls cls' : list Class) i :
  fnames <$> cls' = fnames <$> cls →
  (∃ c, cls' !! i = Some c ∧ has_method m c = true) ↔
  (∃ c, cls !! i = Some c ∧ has_method m c = true).
Proof.
  intros E.
  assert (fnames <$> (cls' !! i) = fnames <$> (cls !! i)) as Ei
    by (by rewrite <- !list_lookup_fmap, E).
  split; intros (c & Hc & Hm); rewrite Hc in Ei; simpl in Ei.
  - destruct (cls !! i) as [d|]; [|done]. exists d. split; [done|].
    injection Ei as Ei. by rewrite (has_method_ext m d c).
  - destruct (cls' !! i) as [d|]; [|done]. exists d. split; [done|].
    injection Ei as Ei. by rewrite (has_method_ext m d c).
Qed.

Lemma uid_fold_spec (ms : list string) (cls : list Class) (ann : list nat) :
  let r := fold_left uid_step ms (cls, ann) in
  fnames <$> r.1 = fnames <$> cls ∧
  ∀ i, i ∈ r.2 ↔
       i ∈ ann ∨ ∃ m c, m ∈ ms ∧ cls !! i = Some c ∧ has_method m c = true.
Proof.
  revert cls ann. induction ms as [|m ms IH]; intros cls ann; simpl.
  - split; [done|]. intros i. split; [by left|].
    intros [?|(m & c & ?%elem_of_nil & _)]; done.
  - unfold uid_step at 2. simpl.
    destruct (IH (uid_mark m <$> cls) (fold_left (uid_collect m) (imap pair cls) ann))
      as [E M].
    split; [by rewrite E, fnames_uid_mark|].
    intros i. rewrite M.
    rewrite (imap_ext pair (fun j c => ((0 + j)%nat, c))) by done.
    rewrite uid_collect_go. split.
    + intros [[?|(j & c & Hj & -> & Hc)]|(m' & c & Hm' & Hc)].
      * by left.
      * right. exists m, c. split; [by left|done].
      * right.
        destruct (proj1 (has_method_lookup_ext m' cls _ i (fnames_uid_mark m cls)))
          as (d & ? & ?); [by exists c|].
        exists m', d. split; [by right|done].
    + intros [?|(m' & c & [->|Hm']%elem_of_cons & Hi & Hc)].
      * by left; left.
      * left; right. by exists i, c.
      * right. exists m'.
        destruct (proj2 (has_method_lookup_ext m' cls _ i (fnames_uid_mark m cls)))
          as (d & ? & ?); [by exists c|].
        by exists d.
Qed.

(** What puts a class into the annotated-class set, in the terms of the
    code. *)
Lemma annotated_classes_spec (json_loads : string → option string) (env env' : Environment) :
  build_index json_loads env = Ok env' →
  ∀ i, i ∈ annotated_classes env' ↔
       (∃ c, classes env !! i = Some c ∧ has_annotations c = true)
       ∨ (∃ a fn, a ∈ annotations env ∧ item_full_name a = Ok fn ∧
                  name_to_class_map env' !! fn = Some i)
       ∨ (∃ m c, m ∈ default [] (global_annotations env' !! "uid-method") ∧
                 classes env !! i = Some c ∧ has_method m c = true).
Proof.
  unfold build_index. intros H i.
  destruct (index_classes (classes env)) as [names annotated] eqn:Hidx.
  destruct (index_classes_spec (classes env)) as [M1 V]. rewrite Hidx in M1, V. simpl in *.
  apply bind_Ok in H as (amap & _ & H). apply bind_Ok in H as (st & Hst & H).
  apply annotation_fold_rel in Hst as [E2 M2]. simpl in *.
  destruct (fold_left uid_step _ _) as [cls annotated'] eqn:Hu.
  destruct (uid_fold_spec (default [] (is_global_annotations st !! "uid-method"))
              (is_classes st) (is_annotated st)) as [E3 M3].
  rewrite Hu in E3, M3. simpl in *.
  apply bind_Ok in H as (prolog & _ & H). apply bind_Ok in H as (epilog & _ & H).
  apply bind_Ok in H as (incs & _ & [= <-]). simpl.
  rewrite M3, M2, M1. split.
  - intros [[?|(a & fn & ? & ? & ? & ?)]|(m & c & Hm & Hc)].
    + by left.
    + right; left. by exists a, fn.
    + right; right.
      destruct Hc as [Hc Hh].
      destruct (proj1 (has_method_lookup_ext m (classes env) (is_classes st) i E2))
        as (d & ? & ?); [by exists c|]. by exists m, d.
  - intros [?|[(a & fn & ? & ? & Hn)|(m & c & Hm & Hc & Hh)]].
    + by left; left.
    + left; right. exists a, fn. repeat split; try done. by eapply V.
    + right.
      destruct (proj2 (has_method_lookup_ext m (classes env) (is_classes st) i E2))
        as (d & ? & ?); [by exists c|]. by exists m, d.
Qed.

(** No member of an anonymous record of the class carries an annotation. *)
Definition anonymous_unannotated (c : Class) : Prop :=
  existsb (fun m => dict_nonempty (member_annotations m)) (flat_map members (anonymous c))
  = false.

Lemma existsb_fmap {A B} (f : A → B) (p : B → bool) (l : list A) :
  existsb p (f <$> l) = existsb (fun x => p (f x)) l.
Proof.
  induction l as [|x l IH]; [done|]. rewrite fmap_cons. cbn [existsb]. by rewrite IH.
Qed.

Lemma dict_nonempty_lookup (m : gmap string (list AnnoValue)) k :
  is_Some (m !! k) → dict_nonempty m = true.
Proof.
  intros [v Hv]. apply bool_decide_eq_true. intros ->. by rewrite lookup_empty in Hv.
Qed.

(** For such a class, the test of [build_index] tells whether the class or
    one of its members carries an annotation. *)
Lemma carries_has_annotations c :
  anonymous_unannotated c → carries_annotation c = has_annotations c.
Proof.
  unfold carries_annotation, has_annotations, anonymous_unannotated.
  destruct c as [nm ann fns flds bases anon ab asub].
  cbn [members c_annotations _functions _fields anonymous]. intros Hanon.
  rewrite !existsb_app, Hanon, orb_false_r, !existsb_fmap.
  cbn [member_annotations].
  destruct (dict_nonempty ann) eqn:Ed; [done|]. cbn [orb].
  case_bool_decide as Hu; [by rewrite (dict_nonempty_lookup _ _ Hu) in Ed|].
  rewrite orb_false_r. apply orb_comm.
Qed.

(** C9 (amended): after [build_index] a class is in the annotated-class set
    iff, when the index was built, the class or one of its members carried an
    annotation, or an annotated declaration names the class (whatever becomes
    of its invocations), or the class defines a method named by a global
    uid-accessor annotation; this for a class in whose anonymous records no
    member carries an annotation. *)
Theorem C9_annotated_classes_iff (json_loads : string → option string) (env env' : Environment) :
  build_index json_loads env = Ok env' →
  ∀ i, (∀ c, classes env !! i = Some c → anonymous_unannotated c) →
       i ∈ annotated_classes env' ↔
       (∃ c, classes env !! i = Some c ∧ carries_annotation c = true)
       ∨ (∃ a fn, a ∈ annotations env ∧ item_full_name a = Ok fn ∧
                  name_to_class_map env' !! fn = Some i)
       ∨ (∃ m c, m ∈ default [] (global_annotations env' !! "uid-method") ∧
                 classes env !! i = Some c ∧ has_method m c = true).
Proof.
  intros H i Hanon. rewrite (annotated_classes_spec json_loads env env' H i).
  split.
  - intros [(c & Hc & Ha)|Hr]; [|by right]. left. exists c. split; [done|].
    by rewrite (carries_has_annotations c (Hanon c Hc)).
  - intros [(c & Hc & Ha)|Hr]; [|by right]. left. exists c. split; [done|].
    by rewrite <- (carries_has_annotations c (Hanon c Hc)).
Qed.

Lemma C9_annotated_classes_witness :
  ∃ env', build_index loads_plain lookup_miss_env = Ok env' ∧
    (0%nat ∈ annotated_classes env' ↔
       (∃ c, classes lookup_miss_env !! 0%nat = Some c ∧ carries_annotation c = true)
       ∨ (∃ a fn, a ∈ annotations lookup_miss_env ∧ item_full_name a = Ok fn ∧
                  name_to_class_map env' !! fn = Some 0%nat)
       ∨ (∃ m c, m ∈ default [] (global_annotations env' !! "uid-method") ∧
                 classes lookup_miss_env !! 0%nat = Some c ∧ has_method m c = true)).
Proof.
  eexists. split; [vm_compute; reflexivity|].
  apply (C9_annotated_classes_iff loads_plain lookup_miss_env).
  - vm_compute. reflexivity.
  - intros c [= <-]. reflexivity.
Defined.

(** A class with an annotated anonymous record: the only annotation of [::C]
    is on a field of an anonymous record.  The field is a member of [::C], the test
    of [build_index] does not see it, and [::C] stays out of the set. *)
Definition anonymous_field_class : Class :=
  mkClass "::C" ∅ [] [] []
    [mkClass "" ∅ [] [mkField "x" {[ "semantic" := [AVStr "ex:x"] ]}] [] [] [] []] [] [].

Example anonymous_member_annotation_is_not_seen :
  carries_annotation anonymous_field_class = true
  ∧ has_annotations anonymous_field_class = false
  ∧ ∃ env', build_index loads_plain (empty_env [anonymous_field_class] []) = Ok env'
            ∧ annotated_classes env' = [].
Proof.
  split; [by vm_compute|]. split; [by vm_compute|].
  eexists. split; vm_compute; reflexivity.
Qed.

End ModelFacts.

Module PathFacts.
Import Py Decoder Model Generator.

(** Writing a value without characters that need an escape: strings in
    double quotes, a tuple as a JSON array.  (An instance of [json.dumps]
    for the examples below.) *)
Definition dumps_plain (v : AnnoValue) : string :=
  let q s := String PyStr.dquote (s +:+ String PyStr.dquote EmptyString) in
  match v with
  | AVTrue => "true"
  | AVStr s => q s
  | AVTuple l => "[" +:+ PyStr.join ", " (q <$> l) +:+ "]"
  end.

Example parse_this_name :
  parse_inline_template (AVStr "{$this}/name") = Ok [SubstValue "$this"; TextValue "/name"].
Proof. reflexivity. Qed.

(** A member with the path annotation [{$this}/name] and nothing else. *)
Definition name_path_field : Member :=
  MField (mkField "name" {[ "path" := [AVStr "{$this}/name"] ]}).


Lemma length_pos_iff (s : string) : (0 <? String.length s)%nat = true ↔ s ≠ "".
Proof. destruct s; simpl; split; try done. Qed.

Lemma join_variable_then_text (json_dumps : AnnoValue → string) (t : string) :
  json_dumps (AVStr t) ≠ "" →
  fold_left (join_step json_dumps DEFAULT_PATH_SUBST_LIST)
            [SubstValue "$this"; TextValue t] ""
  = "Arvida::RDF::joinPath((this)," +:+ json_dumps (AVStr t) +:+ ")".
Proof.
  intros H%length_pos_iff. simpl. unfold join_step at 1, quote_string_literal.
  rewrite H. reflexivity.
Qed.

(** The compiled form of a list of path annotations whose last one is
    [{$this}/name] (as a string, or as the tuple of one string the
    marker-attribute protocol makes). *)
Lemma process_this_name (json_dumps : AnnoValue → string) (l : list AnnoValue) :
  json_dumps (AVStr "/name") ≠ "" →
  normalize_annotation_value <$> last l = Some (AVStr "{$this}/name") →
  process_path_annotation json_dumps l DEFAULT_PATH_SUBST_LIST
  = Ok (Some (json_dumps (AVStr "{$this}/name")),
        Some (AVStr "{$this}/name"),
        "Arvida::RDF::joinPath((this)," +:+ json_dumps (AVStr "/name") +:+ ")").
Proof.
  intros H Hl. unfold process_path_annotation. rewrite fmap_last, Hl.
  change (truthy (AVStr "{$this}/name")) with true. cbv iota.
  change (parse_inline_template (AVStr "{$this}/name"))
    with (Ok (A := list Segment) [SubstValue "$this"; TextValue "/name"]).
  unfold mbind, Result_mbind, bind.
  by rewrite join_variable_then_text.
Qed.



End PathFacts.

Module SortFacts.
Import Py Generator ModelFacts.

(** [x] occurs before [y] in [l]. *)
Definition before {A} (x y : A) (l : list A) : Prop :=
  ∃ l1 l2 l3, l = l1 ++ x :: l2 ++ y :: l3.

Section Filter.
Context {A : Type}.
Implicit Types (p q : A → bool) (l : list A).

Lemma filter_comm p q l :
  List.filter p (List.filter q l) = List.filter q (List.filter p l).
Proof.
  induction l as [|a l IH]; [done|]. simpl.
  destruct (q a) eqn:Hq, (p a) eqn:Hp; simpl; rewrite ?Hq, ?Hp, IH; done.
Qed.

Lemma filter_cons_inv p l x r :
  List.filter p l = x :: r →
  ∃ l1 l2, l = l1 ++ x :: l2 ∧ List.filter p l1 = [] ∧ List.filter p l2 = r.
Proof.
  induction l as [|a l IH]; [done|]. simpl. destruct (p a) eqn:Hp.
  - intros [= -> <-]. by exists [], l.
  - intros (l1 & l2 & -> & H1 & H2)%IH. exists (a :: l1), l2. simpl. by rewrite Hp.
Qed.

Lemma filter_app_inv p l a b :
  List.filter p l = a ++ b →
  ∃ la lb, l = la ++ lb ∧ List.filter p la = a ∧ List.filter p lb = b.
Proof.
  revert a. induction l as [|x l IH]; intros a H; simpl in H.
  - symmetry in H. apply app_eq_nil in H as [-> ->]. by exists [], [].
  - destruct (p x) eqn:Hp.
    + destruct a as [|x' a]; simpl in H.
      * exists [], (x :: l). simpl. by rewrite Hp.
      * injection H as <- H. apply IH in H as (la & lb & -> & Ha & Hb).
        exists (x :: la), lb. simpl. by rewrite Hp, Ha.
    + apply IH in H as (la & lb & -> & Ha & Hb).
      exists (x :: la), lb. simpl. by rewrite Hp.
Qed.

Lemma before_filter p x y l :
  p x = true → p y = true → before x y l → before x y (List.filter p l).
Proof.
  intros Hx Hy (l1 & l2 & l3 & ->).
  exists (List.filter p l1), (List.filter p l2), (List.filter p l3).
  rewrite List.filter_app. simpl. rewrite Hx, List.filter_app. simpl. by rewrite Hy.
Qed.

Lemma before_filter_inv p x y l :
  before x y (List.filter p l) → before x y l.
Proof.
  intros (l1 & l2 & l3 & H).
  apply filter_app_inv in H as (la & lb & -> & _ & H).
  apply filter_cons_inv in H as (m1 & m2 & -> & _ & H).
  apply filter_app_inv in H as (ma & mb & -> & _ & H).
  apply filter_cons_inv in H as (n1 & n2 & -> & _ & _).
  exists (la ++ m1), (ma ++ n1), n2. by rewrite <- !app_assoc.
Qed.

End Filter.

(** The stable arrangement of a list by a comparison that answers: each
    element, from the right, goes before the first element that is not
    smaller. *)
Fixpoint insert_stable {A} (cmp : A → A → comparison) (x : A) (l : list A) : list A :=
  match l with
  | [] => [x]
  | y :: l' =>
      match cmp x y with
      | Gt => y :: insert_stable cmp x l'
      | _ => x :: l
      end
  end.

Definition stable_sort {A} (cmp : A → A → comparison) (l : list A) : list A :=
  foldr (insert_stable cmp) [] l.

(** Sorting by a key: what [sorted] computes when the comparison is the
    comparison of keys. *)
Section ByKey.
Context {A : Type} (key : A → Z).

Definition cmp_key (x y : A) : comparison := key x ?= key y.
Definition le_key (x y : A) : Prop := key x ≤ key y.
Definition has_key (k : Z) (x : A) : bool := key x =? k.

Lemma insert_sorted_perm x l : Permutation (insert_stable cmp_key x l) (x :: l).
Proof.
  induction l as [|y l IH]; [done|]. simpl. destruct (cmp_key x y); try done.
  rewrite IH. apply perm_swap.
Qed.

Lemma sorted_perm l : Permutation (stable_sort cmp_key l) l.
Proof.
  induction l as [|x l IH]; [done|]. simpl. rewrite insert_sorted_perm. by constructor.
Qed.

Lemma insert_sorted_sorted x l :
  StronglySorted le_key l → StronglySorted le_key (insert_stable cmp_key x l).
Proof.
  induction 1 as [|y l Hl IH Hy]; simpl; [repeat constructor|].
  unfold cmp_key at 1. destruct (Z.compare_spec (key x) (key y)) as [E|E|E].
  - constructor; [by constructor|]. constructor; [unfold le_key; lia|].
    eapply Forall_impl; [exact Hy|]. unfold le_key. intros; lia.
  - constructor; [by constructor|]. constructor; [unfold le_key; lia|].
    eapply Forall_impl; [exact Hy|]. unfold le_key. intros; lia.
  - constructor; [done|].
    rewrite (insert_sorted_perm x l). constructor; [unfold le_key; lia|done].
Qed.

Lemma sorted_sorted l : StronglySorted le_key (stable_sort cmp_key l).
Proof.
  induction l as [|x l IH]; simpl; [constructor|]. by apply insert_sorted_sorted.
Qed.

Lemma insert_sorted_filter k x l :
  List.filter (has_key k) (insert_stable cmp_key x l)
  = List.filter (has_key k) (x :: l).
Proof.
  induction l as [|y l IH]; [done|]. simpl in *.
  unfold cmp_key at 1. destruct (Z.compare_spec (key x) (key y)) as [E|E|E]; try done.
  simpl. rewrite IH. unfold has_key.
  destruct (Z.eqb_spec (key x) k), (Z.eqb_spec (key y) k); try done. lia.
Qed.

(** Stability: the elements of one key keep their order. *)
Lemma sorted_stable k l :
  List.filter (has_key k) (stable_sort cmp_key l) = List.filter (has_key k) l.
Proof.
  induction l as [|x l IH]; [done|]. simpl stable_sort.
  rewrite insert_sorted_filter. simpl. by rewrite IH.
Qed.

Lemma filter_key_nil k l :
  Forall (fun y => k < key y) l → List.filter (has_key k) l = [].
Proof.
  induction 1 as [|y l Hy _ IH]; [done|]. simpl. unfold has_key at 1.
  destruct (Z.eqb_spec (key y) k); [lia|done].
Qed.

(** A list that is sorted by the key is determined by its elements of each
    key, in their order: any stable sort computes what [sorted] computes. *)
Lemma has_key_refl x : has_key (key x) x = true.
Proof. unfold has_key. apply Z.eqb_refl. Qed.

Lemma has_key_ne k x : key x ≠ k → has_key k x = false.
Proof. unfold has_key. by intros ?%Z.eqb_neq. Qed.

Lemma stable_sort_unique l1 l2 :
  StronglySorted le_key l1 → StronglySorted le_key l2 →
  (∀ k, List.filter (has_key k) l1 = List.filter (has_key k) l2) →
  l1 = l2.
Proof.
  intros H1. revert l2. induction H1 as [|x l1 Hl1 IH Hx]; intros l2 H2 E.
  - destruct l2 as [|y l2]; [done|]. specialize (E (key y)). simpl in E.
    by rewrite has_key_refl in E.
  - destruct H2 as [|y l2 Hl2 Hy].
    { specialize (E (key x)). simpl in E. by rewrite has_key_refl in E. }
    assert (key x = key y) as Exy.
    { destruct (Z.lt_trichotomy (key x) (key y)) as [L|[?|L]]; [|done|]; exfalso.
      - specialize (E (key x)). simpl in E.
        rewrite has_key_refl, (has_key_ne _ y) in E by lia.
        rewrite (filter_key_nil _ l2) in E; [done|].
        eapply Forall_impl; [exact Hy|]. unfold le_key. simpl. intros; lia.
      - specialize (E (key y)). simpl in E.
        rewrite has_key_refl, (has_key_ne _ x) in E by lia.
        rewrite (filter_key_nil _ l1) in E; [done|].
        eapply Forall_impl; [exact Hx|]. unfold le_key. simpl. intros; lia. }
    assert (x = y) as ->.
    { specialize (E (key x)). simpl in E. rewrite has_key_refl in E.
      rewrite Exy, has_key_refl in E. by injection E. }
    f_equal. apply IH; [done|]. intros k. specialize (E k). simpl in E.
    destruct (has_key k y); [by injection E|done].
Qed.

Lemma sorted_before x y l :
  StronglySorted le_key l → In x l → In y l → key x < key y → before x y l.
Proof.
  induction 1 as [|a l Hl IH Ha]; [done|]. intros [->|Hx] [->|Hy] L.
  - lia.
  - apply in_split in Hy as (l1 & l2 & ->). by exists [], l1, l2.
  - rewrite List.Forall_forall in Ha. specialize (Ha _ Hx). unfold le_key in Ha. lia.
  - destruct (IH Hx Hy L) as (l1 & l2 & l3 & ->). by exists (a :: l1), l2, l3.
Qed.

Lemma sorted_filter p l :
  StronglySorted le_key l → StronglySorted le_key (List.filter p l).
Proof.
  induction 1 as [|a l Hl IH Ha]; simpl; [constructor|].
  destruct (p a); [|done]. constructor; [done|].
  rewrite List.Forall_forall in *. intros y [? _]%filter_In. by apply Ha.
Qed.

End ByKey.

(** [sorted] with a comparison that may raise, and that compares keys where
    it answers. *)
Section Raising.
Context {A : Type} (key : A → Z) (cmp : A → A → Result comparison).

Hypothesis cmp_Ok : ∀ x y c, cmp x y = Ok c → c = cmp_key key x y.

Lemma insert_sorted_Ok x l r :
  insert_sorted cmp x l = Ok r → r = insert_stable (cmp_key key) x l.
Proof.
  revert r. induction l as [|y l IH]; intros r; simpl.
  - by intros [= <-].
  - intros (c & Hc & H)%bind_Ok. rewrite <- (cmp_Ok _ _ _ Hc).
    destruct c; [by injection H as <-|by injection H as <-|].
    apply bind_Ok in H as (r' & Hr & [= <-]). by rewrite (IH _ Hr).
Qed.

(** What [sorted] answers is the stable arrangement by the key. *)
Lemma sorted_Ok l r : sorted cmp l = Ok r → r = stable_sort (cmp_key key) l.
Proof.
  revert r. induction l as [|x l IH]; intros r; simpl.
  - by intros [= <-].
  - intros (l' & Hl & H)%bind_Ok. rewrite <- (IH _ Hl). by apply insert_sorted_Ok.
Qed.

Lemma insert_sorted_total x l :
  (∀ y, y ∈ l → ∃ c, cmp x y = Ok c) → ∃ r, insert_sorted cmp x l = Ok r.
Proof.
  induction l as [|y l IH]; intros H; simpl; [by eexists|].
  destruct (H y) as [c ->]; [apply list_elem_of_here|]. simpl.
  destruct c; [by eexists|by eexists|].
  destruct IH as [r ->]; [|by eexists]. intros z Hz. by apply H, list_elem_of_further.
Qed.

(** [sorted] answers when the comparison answers on the items of the list. *)
Lemma sorted_total l :
  (∀ x y, x ∈ l → y ∈ l → ∃ c, cmp x y = Ok c) → ∃ r, sorted cmp l = Ok r.
Proof.
  induction l as [|x l IH]; intros H; simpl; [by eexists|].
  destruct IH as [l' Hl'].
  { intros y z Hy Hz. apply H; by apply list_elem_of_further. }
  rewrite Hl'. simpl. apply insert_sorted_total. intros y Hy.
  apply H; [apply list_elem_of_here|]. apply list_elem_of_further.
  rewrite (sorted_Ok _ _ Hl') in Hy. apply list_elem_of_In in Hy. apply list_elem_of_In.
  by apply (Permutation_in _ (sorted_perm key l)).
Qed.

Lemma insert_sorted_compared x l r :
  insert_sorted cmp x l = Ok r → l ≠ [] → ∃ y c, y ∈ l ∧ cmp x y = Ok c.
Proof.
  destruct l as [|y l]; [done|]. simpl. intros (c & Hc & _)%bind_Ok _.
  exists y, c. split; [apply list_elem_of_here|done].
Qed.

(** Every item of a list of two or more is compared with another one. *)
Lemma sorted_compared l r :
  sorted cmp l = Ok r → (2 ≤ length l)%nat →
  ∀ x, x ∈ l → ∃ y c, cmp x y = Ok c ∨ cmp y x = Ok c.
Proof.
  revert r. induction l as [|a l IH]; intros r H Hlen x Hx; [simpl in Hlen; lia|].
  simpl in H. apply bind_Ok in H as (l' & Hl & H).
  pose proof (sorted_Ok _ _ Hl) as ->.
  assert (Hne : stable_sort (cmp_key key) l ≠ []).
  { intros E. pose proof (Permutation_length (sorted_perm key l)) as Hp.
    rewrite E in Hp. simpl in *. lia. }
  destruct (insert_sorted_compared _ _ _ H Hne) as (y & c & Hy & Hc).
  apply elem_of_cons in Hx as [->|Hx]; [exists y, c; by left|].
  destruct l as [|b [|b' l]].
  - by apply elem_of_nil in Hx.
  - apply list_elem_of_singleton in Hx as ->. simpl in Hy.
    apply list_elem_of_singleton in Hy as ->. exists a, c. by right.
  - apply (IH _ Hl); [simpl; lia|done].
Qed.

End Raising.

End SortFacts.

Module TripleFacts.
Import Py Decoder Model Generator ModelFacts SortFacts.

(** The kinds of node as the specification lists them for the ordering:
    this, that, element reference, IRI or prefixed name, blank node,
    unrecognized. *)
Inductive NodeClass :=
| ThisRef | ThatRef | ElementRef | Named | BlankNode | Unrecognized.

Definition node_class (v : TripleNode) : NodeClass :=
  match v with
  | Value _ meta_var _ =>
      if String.eqb meta_var "$this" then ThisRef
      else if String.eqb meta_var "$that" then ThatRef
      else if bool_decide (meta_var ∈ THAT_ELEMENT_NAMES) then ElementRef
      else Unrecognized
  | IRI _ _ | PrefixedName _ _ => Named
  | Blank _ _ _ => BlankNode
  end.

Definition class_rank (c : NodeClass) : nat :=
  match c with
  | ThisRef => 0 | ThatRef => 1 | ElementRef => 2
  | Named => 3 | BlankNode => 4 | Unrecognized => 5
  end.

Definition class_weight (c : NodeClass) : Z :=
  match c with
  | ThisRef => 1 | ThatRef => 10 | ElementRef => 100
  | Named => 1000 | BlankNode => 10000 | Unrecognized => 100000
  end.

Lemma node_value_class v : node_value v = class_weight (node_class v).
Proof.
  destruct v as [l n i|x i|x i|e mv i]; try reflexivity.
  unfold node_value, node_class. simpl.
  destruct (String.eqb mv "$this"); [done|].
  destruct (String.eqb mv "$that"); [done|].
  by destruct (bool_decide (mv ∈ THAT_ELEMENT_NAMES)).
Qed.

Lemma class_weight_mono c d :
  (class_rank c < class_rank d)%nat → class_weight c < class_weight d.
Proof. destruct c, d; simpl; lia. Qed.

(** The weight of a triple, as the specification has it: the weights of the
    kinds of its subject, its predicate and its object, summed.  (A node that
    is not there adds nothing.) *)
Definition kind_weight (v : option TripleNode) : Z :=
  from_option (fun n => class_weight (node_class n)) 0 v.

Definition weight_sum (t : Triple) : Z :=
  kind_weight (subject t) + kind_weight (predicate t) + kind_weight (object t).

Definition sorted_by_weight : list Triple → Prop :=
  StronglySorted (fun x y => weight_sum x ≤ weight_sum y).

(** A triple refers to an element of the member: its subject, its predicate
    or its object is a value node for [$that.foreach], [$that.element] or
    [$that.item]. *)
Definition element_node (v : option TripleNode) : bool :=
  match v with
  | Some (Value _ meta_var _) =>
      bool_decide (meta_var = "$that.foreach" ∨ meta_var = "$that.element"
                   ∨ meta_var = "$that.item")
  | _ => false
  end.

Definition refers_to_element (t : Triple) : bool :=
  element_node (subject t) || element_node (predicate t) || element_node (object t).

(** The three nodes of the triple are set. *)
Definition complete (t : Triple) : Prop :=
  is_Some (subject t) ∧ is_Some (predicate t) ∧ is_Some (object t).

Lemma triple_value_Ok x v : triple_value x = Ok v → v = weight_sum x ∧ complete x.
Proof.
  unfold triple_value, weight_sum, complete.
  destruct (subject x) as [s|], (predicate x) as [p|], (object x) as [o|]; try done.
  simpl. intros [= <-]. rewrite !node_value_class. by repeat split; eexists.
Qed.

Lemma triple_value_complete x : complete x → triple_value x = Ok (weight_sum x).
Proof.
  unfold triple_value, weight_sum, complete. intros ([s ->] & [p ->] & [o ->]). simpl.
  by rewrite !node_value_class.
Qed.

Lemma cmp_triple_Ok x y c : cmp_triple x y = Ok c → c = cmp_key weight_sum x y.
Proof.
  unfold cmp_triple. intros (vx & Hx & H)%bind_Ok. apply bind_Ok in H as (vy & Hy & [= <-]).
  apply triple_value_Ok in Hx as [-> _]. by apply triple_value_Ok in Hy as [-> _].
Qed.

Lemma cmp_triple_complete x y c : cmp_triple x y = Ok c → complete x ∧ complete y.
Proof.
  unfold cmp_triple. intros (vx & Hx & H)%bind_Ok. apply bind_Ok in H as (vy & Hy & _).
  apply triple_value_Ok in Hx as [_ ?]. by apply triple_value_Ok in Hy as [_ ?].
Qed.

Lemma element_node_ref n : element_node (Some n) = is_that_element_ref n.
Proof.
  destruct n as [l v i|x i|x i|e mv i]; try reflexivity. simpl.
  apply bool_decide_ext. unfold THAT_ELEMENT_NAMES.
  rewrite !elem_of_cons, elem_of_nil. tauto.
Qed.

Lemma element_node_opt v : element_node v = from_option is_that_element_ref false v.
Proof. destruct v as [n|]; [apply element_node_ref|done]. Qed.

Lemma any_node_Ok p l b : any_node p l = Ok b → b = existsb (from_option p false) l.
Proof.
  induction l as [|[n|] l IH]; simpl; [by intros [= <-]| |done].
  destruct (p n); [by intros [= <-]|apply IH].
Qed.

Lemma any_node_complete p l :
  Forall is_Some l → any_node p l = Ok (existsb (from_option p false) l).
Proof.
  induction 1 as [|v l [n ->] _ IH]; simpl; [done|]. by destruct (p n).
Qed.

Lemma refers_to_element_nodes t :
  refers_to_element t = existsb (from_option is_that_element_ref false) (nodes t).
Proof.
  unfold refers_to_element, nodes. cbn [existsb].
  by rewrite !element_node_opt, orb_false_r, orb_assoc.
Qed.

(** What the test for an element reference answers, when it answers. *)
Lemma has_that_element_ref_Ok t b :
  has_that_element_ref t = Ok b → b = refers_to_element t.
Proof. rewrite refers_to_element_nodes. apply any_node_Ok. Qed.

Lemma has_that_element_ref_complete t :
  complete t → has_that_element_ref t = Ok (refers_to_element t).
Proof.
  intros (Hs & Hp & Ho). rewrite refers_to_element_nodes. apply any_node_complete.
  unfold nodes. by repeat constructor.
Qed.

(** What [process_triples] answers, when it answers: the stable arrangement
    of the triples by their weight, sorted into the two lists. *)
Definition routed (self : MemberTripleContainer) : MemberTripleContainer :=
  let ts := stable_sort (cmp_key weight_sum) (triples self) in
  mkMTC (mtc_id self) (triples self)
        (List.filter (fun t => negb (refers_to_element t)) ts)
        (List.filter refers_to_element ts)
        (member self) (class_ self) (path_type self) (path self) (unquoted_path self)
        (pp_path self) (element_path_type self) (element_path self)
        (unquoted_element_path self) (pp_element_path self) (getter self) (setter self).

Lemma route_fold ts :
  ∀ lists lists', foldM route ts lists = Ok lists' →
    lists' = (lists.1 ++ List.filter (fun t => negb (refers_to_element t)) ts,
              lists.2 ++ List.filter refers_to_element ts).
Proof.
  induction ts as [|t ts IH]; intros [mt met] lists' H; simpl in H.
  - injection H as <-. simpl. by rewrite !app_nil_r.
  - apply bind_Ok in H as (l1 & H1 & H). unfold route in H1.
    apply bind_Ok in H1 as (b & Hb & [= <-]).
    apply has_that_element_ref_Ok in Hb as ->.
    rewrite (IH _ _ H). simpl. destruct (refers_to_element t); simpl.
    + by rewrite <- app_assoc.
    + by rewrite <- app_assoc.
Qed.

Lemma route_fold_total ts :
  Forall complete ts → ∀ lists, ∃ lists', foldM route ts lists = Ok lists'.
Proof.
  induction 1 as [|t ts Ht _ IH]; intros lists; simpl; [by eexists|].
  unfold route at 2. rewrite (has_that_element_ref_complete t Ht). simpl. apply IH.
Qed.

Lemma process_triples_Ok self self' : process_triples self = Ok self' → self' = routed self.
Proof.
  unfold process_triples, routed. intros (ts & Hts & H)%bind_Ok.
  apply bind_Ok in H as (lists & Hl & [= <-]).
  apply (sorted_Ok weight_sum _ cmp_triple_Ok) in Hts as ->.
  by rewrite (route_fold _ _ _ Hl).
Qed.

(** [process_triples] answers when every triple has its three nodes. *)
Lemma process_triples_complete self :
  Forall complete (triples self) → process_triples self = Ok (routed self).
Proof.
  intros Hc.
  assert (∃ self', process_triples self = Ok self') as [self' H].
  { unfold process_triples.
    destruct (sorted_total weight_sum cmp_triple cmp_triple_Ok (triples self)) as [ts Hts].
    { intros x y Hx Hy. rewrite Forall_forall in Hc. unfold cmp_triple.
      rewrite (triple_value_complete x (Hc x Hx)), (triple_value_complete y (Hc y Hy)).
      by eexists. }
    rewrite Hts. simpl.
    destruct (route_fold_total ts) with (lists := ([], []) : list Triple * list Triple)
      as [lists ->]; [|by eexists].
    apply (sorted_Ok weight_sum _ cmp_triple_Ok) in Hts as ->.
    rewrite Forall_forall in *. intros x Hx. apply Hc.
    apply list_elem_of_In. apply list_elem_of_In in Hx.
    by apply (Permutation_in _ (sorted_perm weight_sum (triples self))). }
  by rewrite H, (process_triples_Ok _ _ H).
Qed.

(** With two triples or more, [process_triples] answers only when every
    triple has its three nodes. *)
Lemma process_triples_two self self' :
  process_triples self = Ok self' → (2 ≤ length (triples self))%nat →
  Forall complete (triples self).
Proof.
  unfold process_triples. intros (ts & Hts & _)%bind_Ok Hlen.
  apply Forall_forall. intros x Hx.
  destruct (sorted_compared weight_sum cmp_triple cmp_triple_Ok _ _ Hts Hlen x Hx)
    as (y & c & [Hc|Hc]); by apply cmp_triple_complete in Hc as [? ?].
Qed.

Lemma process_triples_member self :
  member_triples (routed self)
  = List.filter (fun t => negb (refers_to_element t))
                (stable_sort (cmp_key weight_sum) (triples self)).
Proof. reflexivity. Qed.

Lemma process_triples_element self :
  member_element_triples (routed self)
  = List.filter refers_to_element (stable_sort (cmp_key weight_sum) (triples self)).
Proof. reflexivity. Qed.

(** The triples [[blank, this, rdf:type]] and [[this, ex:hasName, that]]. *)
Definition blank_this_type (b n : string) (cls i j k l : nat) : Triple :=
  mkTriple i (Some (Blank b n j)) (Some (Value (EClass cls) "$this" k))
           (Some (PrefixedName "rdf:type" l)).

Definition this_name_that (cls : nat) (m : Member) (i j k l : nat) : Triple :=
  mkTriple i (Some (Value (EClass cls) "$this" j)) (Some (PrefixedName "ex:hasName" k))
           (Some (Value (EMember m) "$that" l)).

(** C2: [process_triples] answers when the triples of the group have their
    three nodes; after it the member list and the member-element list are
    each sorted ascending by the weight sum, the weights of the kinds of
    subject, predicate and object added up; the weight [node_value] gives a
    node is that of its kind, and it grows with the kind, this < that <
    element reference < IRI or prefixed name < blank node < unrecognized; and
    wherever the triples [[this, ex:hasName, that]] and
    [[blank, this, rdf:type]] are in one group, the first comes before the
    second in the member list. *)
Theorem C2_triples_sorted_by_weight (self : MemberTripleContainer) :
  (Forall complete (triples self) → ∃ self', process_triples self = Ok self')
  ∧ ∀ self', process_triples self = Ok self' →
      sorted_by_weight (member_triples self')
      ∧ sorted_by_weight (member_element_triples self')
      ∧ (∀ a, node_value a = class_weight (node_class a))
      ∧ (∀ a b, (class_rank (node_class a) < class_rank (node_class b))%nat →
                node_value a < node_value b)
      ∧ (∀ b n cls m i j k l i' j' k' l',
            In (blank_this_type b n cls i j k l) (triples self) →
            In (this_name_that cls m i' j' k' l') (triples self) →
            before (this_name_that cls m i' j' k' l') (blank_this_type b n cls i j k l)
                   (member_triples self')).
Proof.
  split; [intros Hc; eexists; by apply process_triples_complete|].
  intros self' ->%process_triples_Ok.
  split; [|split; [|split; [|split]]].
  - rewrite process_triples_member. apply (sorted_filter weight_sum), sorted_sorted.
  - rewrite process_triples_element. apply (sorted_filter weight_sum), sorted_sorted.
  - apply node_value_class.
  - intros a b H. rewrite !node_value_class. by apply class_weight_mono.
  - intros b n cls m i j k l i' j' k' l' H1 H2.
    rewrite process_triples_member.
    apply (sorted_before weight_sum).
    + apply sorted_filter, sorted_sorted.
    + apply filter_In. split; [|reflexivity].
      apply (Permutation_in _ (Permutation_sym (sorted_perm weight_sum _))), H2.
    + apply filter_In. split; [|reflexivity].
      apply (Permutation_in _ (Permutation_sym (sorted_perm weight_sum _))), H1.
    + reflexivity.
Qed.

Definition name_member : Member := MField (mkField "name" ∅).

Definition sample_group : MemberTripleContainer :=
  mkMTC 0 [blank_this_type "_:b1" "_b0" 0 1 2 3 4; this_name_that 0 name_member 5 6 7 8]
        [] [] (Some name_member) 0 None None None None None None None None true true.

Definition sample_group_processed : MemberTripleContainer :=
  Eval vm_compute in
    match process_triples sample_group with
    | Ok self' => self'
    | Raise _ => sample_group
    end.

Lemma C2_triples_sorted_witness :
  member_triples sample_group_processed
  = [this_name_that 0 name_member 5 6 7 8; blank_this_type "_:b1" "_b0" 0 1 2 3 4]
  ∧ sorted_by_weight (member_triples sample_group_processed)
  ∧ before (this_name_that 0 name_member 5 6 7 8)
           (blank_this_type "_:b1" "_b0" 0 1 2 3 4)
           (member_triples sample_group_processed).
Proof.
  split; [reflexivity|].
  destruct (proj2 (C2_triples_sorted_by_weight sample_group) sample_group_processed)
    as (Hs & _ & _ & _ & Hb); [vm_compute; reflexivity|].
  split; [exact Hs|]. apply Hb.
  - left. reflexivity.
  - right. left. reflexivity.
Defined.

(** C10: in a group whose triples have their three nodes [process_triples]
    answers, and two triples of the group with equal summed weights, both
    with or both without an element reference, are in the list they are
    sorted into in the order in which they are in [triples], the order of
    their triple annotations. *)
Theorem C10_equal_weight_triples_keep_order
    (self : MemberTripleContainer) (x y : Triple) (b : bool) :
  Forall complete (triples self) →
  before x y (triples self) →
  triple_value x = triple_value y →
  has_that_element_ref x = Ok b →
  has_that_element_ref y = Ok b →
  ∃ self', process_triples self = Ok self'
    ∧ before x y (if b then member_element_triples self' else member_triples self').
Proof.
  intros Hc Hb Hw Hx Hy. exists (routed self). split; [by apply process_triples_complete|].
  assert (complete x ∧ complete y) as [Cx Cy].
  { destruct Hb as (l1 & l2 & l3 & E). rewrite Forall_forall in Hc.
    split; apply Hc; rewrite E.
    - apply elem_of_app. right. apply list_elem_of_here.
    - apply elem_of_app. right. apply list_elem_of_further, elem_of_app. right.
      apply list_elem_of_here. }
  rewrite (triple_value_complete x Cx), (triple_value_complete y Cy) in Hw.
  injection Hw as Hw.
  apply has_that_element_ref_Ok in Hx, Hy.
  set (k := weight_sum x).
  assert (has_key weight_sum k x = true) as Hkx by apply has_key_refl.
  assert (has_key weight_sum k y = true) as Hky by (unfold k; rewrite Hw; apply has_key_refl).
  destruct b.
  - rewrite process_triples_element.
    apply (before_filter_inv (has_key weight_sum k)).
    rewrite filter_comm, sorted_stable.
    by repeat apply before_filter.
  - rewrite process_triples_member.
    apply (before_filter_inv (has_key weight_sum k)).
    rewrite filter_comm, sorted_stable.
    repeat apply before_filter; try done; by rewrite <- ?Hx, <- ?Hy.
Qed.

Definition same_weight_group : MemberTripleContainer :=
  mkMTC 0 [this_name_that 0 name_member 1 2 3 4; blank_this_type "_:b1" "_b0" 0 5 6 7 8;
           this_name_that 0 name_member 9 10 11 12]
        [] [] (Some name_member) 0 None None None None None None None None true true.

Lemma C10_equal_weight_witness :
  ∃ self', process_triples same_weight_group = Ok self'
    ∧ before (this_name_that 0 name_member 1 2 3 4) (this_name_that 0 name_member 9 10 11 12)
             (member_triples self').
Proof.
  apply (C10_equal_weight_triples_keep_order same_weight_group
           (this_name_that 0 name_member 1 2 3 4) (this_name_that 0 name_member 9 10 11 12)
           false).
  - repeat constructor; by eexists.
  - by exists [], [blank_this_type "_:b1" "_b0" 0 5 6 7 8], [].
  - reflexivity.
  - reflexivity.
  - reflexivity.
Defined.

End TripleFacts.

Module ClassifyFacts.
Import Py Decoder Model Generator PathFacts.

Lemma get_is_not_set (s : string) :
  PyStr.startswith s "get" = true → PyStr.startswith s "set" = false.
Proof.
  destruct s as [|c s]; [done|].
  change (PyStr.startswith (String c s) "get")
    with (if Ascii.eqb "g" c then PyStr.startswith s "et" else false).
  change (PyStr.startswith (String c s) "set")
    with (if Ascii.eqb "s" c then PyStr.startswith s "et" else false).
  destruct (Ascii.eqb_spec "g" c) as [<-|]; done.
Qed.

Lemma getter_function_is_no_setter f :
  function_is_getter f = true → function_is_setter f = false.
Proof.
  unfold function_is_getter, function_is_setter.
  intros [[H _]%andb_true_iff _]%andb_true_iff. by rewrite (get_is_not_set _ H).
Qed.

Lemma new_mtc_flags json_dumps mem cls id mtc :
  new_mtc json_dumps mem cls id = Ok mtc →
  member mtc = mem
  ∧ getter mtc = from_option member_is_getter false mem
  ∧ setter mtc = from_option member_is_setter false mem.
Proof.
  unfold new_mtc. destruct mem as [m|]; [|by intros [= <-]].
  destruct (bool_decide _).
  - intros ([[p up] pp] & _ & H)%ModelFacts.bind_Ok.
    destruct (bool_decide _);
      apply ModelFacts.bind_Ok in H as ([[ep uep] epp] & _ & [= <-]); done.
  - intros ([[p up] pp] & _ & H)%ModelFacts.bind_Ok.
    destruct (bool_decide _);
      apply ModelFacts.bind_Ok in H as ([[ep uep] epp] & _ & [= <-]); done.
Qed.

(** The group of the public field [name]. *)
Definition name_field : Member := MField (mkField "name" ∅).

(** C3, as stated, fails: the group of a field is for the reader although the
    field is a getter (a field is both a getter and a setter). *)
Lemma C3_field_group_is_for_reader_and_getter :
  ∃ mtc, new_mtc dumps_plain (Some name_field) 0 0 = Ok mtc ∧
         is_getter mtc = true ∧ is_for_reader mtc = true.
Proof. eexists. split; [reflexivity|]. split; reflexivity. Qed.

(** C3 (amended): a triple group is common iff its member is neither a
    getter nor a setter; it is for the reader iff it is class-global or its
    member is a setter, and for the writer iff it is class-global or its
    member is a getter (a field is both); the group of a getter method (name
    prefix [get]) is for the writer, and neither for the reader nor common;
    and a triple is common iff none of its nodes refers to a getter or a
    setter. *)
Theorem C3_group_classification
    (json_dumps : AnnoValue → string) (mem : option Member) (cls id : nat)
    (mtc : MemberTripleContainer) :
  new_mtc json_dumps mem cls id = Ok mtc →
  (is_common mtc = true ↔
     ∀ m, mem = Some m → member_is_getter m = false ∧ member_is_setter m = false)
  ∧ (is_for_reader mtc = true ↔ mem = None ∨ ∃ m, mem = Some m ∧ member_is_setter m = true)
  ∧ (is_for_writer mtc = true ↔ mem = None ∨ ∃ m, mem = Some m ∧ member_is_getter m = true)
  ∧ (∀ f, mem = Some (MFunction f) → function_is_getter f = true →
          is_for_writer mtc = true ∧ is_for_reader mtc = false ∧ is_common mtc = false)
  ∧ (∀ t, triple_is_common t = true ↔
          ∀ v, In (Some v) (nodes t) → value_is_getter v = false ∧ value_is_setter v = false).
Proof.
  intros (Hm & Hg & Hs)%new_mtc_flags.
  unfold is_common, is_for_reader, is_for_writer, is_global, is_getter, is_setter.
  rewrite Hm, Hg, Hs. clear Hm Hg Hs.
  split; [|split; [|split; [|split]]].
  - destruct mem as [m|]; simpl.
    + split.
      * intros [Hs Hg]%andb_true_iff m' [= <-].
        by destruct (member_is_getter m), (member_is_setter m).
      * intros H. by destruct (H m eq_refl) as [-> ->].
    + split; [by intros _ m' [=]|done].
  - destruct mem as [m|]; simpl.
    + split; [intros H; right; by exists m|].
      by intros [[=]|(m' & [= <-] & H)].
    + split; [by left|done].
  - destruct mem as [m|]; simpl.
    + split; [intros H; right; by exists m|].
      by intros [[=]|(m' & [= <-] & H)].
    + split; [by left|done].
  - intros f -> Hf. simpl. rewrite Hf, (getter_function_is_no_setter f Hf). done.
  - intros t. unfold triple_is_common, triple_is_for_reader, triple_is_for_writer. split.
    + intros [Hr Hw]%andb_true_iff v Hv.
      apply negb_true_iff in Hr, Hw.
      assert (∀ f, existsb f (nodes t) = false → f (Some v) = false) as Hex.
      { intros f Hf. destruct (f (Some v)) eqn:E; [|done].
        rewrite <- Hf. symmetry. apply existsb_exists. by exists (Some v). }
      apply Hex in Hr, Hw. simpl in Hr, Hw. by destruct v.
    + intros H. apply andb_true_iff. split; apply negb_true_iff.
      * destruct (existsb _ _) eqn:E; [|done].
        apply existsb_exists in E as ([v|] & Hv & E); [|done].
        simpl in E. apply andb_true_iff in E as [_ E].
        destruct (H v Hv) as [_ ?]. congruence.
      * destruct (existsb _ _) eqn:E; [|done].
        apply existsb_exists in E as ([v|] & Hv & E); [|done].
        simpl in E. apply andb_true_iff in E as [_ E].
        destruct (H v Hv) as [? _]. congruence.
Qed.

Definition getName : Function :=
  mkFunction "getName" ∅
    (Clang.of_cursor (Clang.mkCursor Clang.CK_CXX_METHOD "getName" 0)
                     Clang.invalid_type false false false).

Lemma C3_getter_group_witness :
  ∃ mtc, new_mtc dumps_plain (Some (MFunction getName)) 0 0 = Ok mtc ∧
         is_for_writer mtc = true ∧ is_for_reader mtc = false ∧ is_common mtc = false.
Proof.
  eexists. split; [reflexivity|].
  eapply (proj1 (proj2 (proj2 (proj2
            (C3_group_classification dumps_plain (Some (MFunction getName)) 0 0 _ eq_refl)))));
    reflexivity.
Defined.

End ClassifyFacts.

Module PropagationFacts.
Import Py Decoder Model Generator Propagation DecoderFacts ModelFacts.

Lemma foldM_app {A S} (f : S → A → Result S) (l1 l2 : list A) (s s' : S) :
  foldM f (l1 ++ l2) s = Ok s' ↔ ∃ s1, foldM f l1 s = Ok s1 ∧ foldM f l2 s1 = Ok s'.
Proof.
  revert s. induction l1 as [|x l1 IH]; intros s; simpl.
  - split; [intros H; by exists s|]. by intros (s1 & [= <-] & H).
  - rewrite bind_Ok. split.
    + intros (a & Ha & (s1 & H1 & H2)%IH). exists s1. split; [|done].
      apply bind_Ok. by exists a.
    + intros (s1 & (a & Ha & H1)%bind_Ok & H2). exists a. split; [done|].
      apply IH. by exists s1.
Qed.

Section Directive.

(** The propagated annotation. *)
Variable name : string.

(** The directive of the class at position [i], if it has one. *)
Definition value_of (cls : list Class) (i : nat) : option (list AnnoValue) :=
  c ← cls !! i; c_annotations c !! name.

(** The annotated sub-classes of the class at position [i]. *)
Definition subs (cls : list Class) (i : nat) : list nat :=
  from_option _annotated_sub_classes [] (cls !! i).

Definition same_shape (cls cls' : list Class) : Prop :=
  length cls' = length cls ∧ ∀ i, subs cls' i = subs cls i.

(** Class [i] had no directive and now has the one of a base class. *)
Definition inherits (cls cls' : list Class) (i : nat) : Prop :=
  value_of cls i = None ∧
  ∃ b v, i ∈ subs cls b ∧ value_of cls' b = Some v ∧ value_of cls' i = Some v ∧ v ≠ [].

Definition extends (cls cls' : list Class) : Prop :=
  same_shape cls cls' ∧ ∀ i, value_of cls' i = value_of cls i ∨ inherits cls cls' i.

Lemma same_shape_refl cls : same_shape cls cls.
Proof. by split. Qed.

Lemma same_shape_trans a b c : same_shape a b → same_shape b c → same_shape a c.
Proof. intros [L1 S1] [L2 S2]. split; [congruence|]. intros i. by rewrite S2. Qed.

Lemma extends_refl cls : extends cls cls.
Proof. split; [apply same_shape_refl|]. intros i. by left. Qed.

Lemma extends_keeps cls cls' i v :
  extends cls cls' → value_of cls i = Some v → value_of cls' i = Some v.
Proof. intros [_ H] Hv. destruct (H i) as [->|[Hn _]]; [done|congruence]. Qed.

Lemma extends_trans a b c : extends a b → extends b c → extends a c.
Proof.
  intros Hab Hbc. pose proof Hab as [Sab Vab]. pose proof Hbc as [Sbc Vbc].
  split; [by eapply same_shape_trans|].
  intros i. destruct (Vbc i) as [E|(Hn & b' & v & Hs & Hb & Hi & Hv)].
  - destruct (Vab i) as [E'|(Hn & b' & v & Hs & Hb & Hi & Hv)].
    + left. congruence.
    + right. split; [done|]. exists b', v. repeat split; try done.
      * by eapply extends_keeps.
      * congruence.
  - destruct (Vab i) as [E'|(Hn' & b'' & v' & _ & _ & Hi' & _)]; [|congruence].
    right. split; [congruence|]. exists b', v. repeat split; try done.
    destruct Sab as [_ Sab]. by rewrite <- Sab.
Qed.

(** [for x in l: cls.add_annotation(name, x)] *)
Definition add_all (l : list AnnoValue) (c : Class) : Class :=
  fold_left (fun c x => class_add name x c) l c.

Lemma add_all_subs l c : _annotated_sub_classes (add_all l c) = _annotated_sub_classes c.
Proof. revert c. induction l as [|x l IH]; intros c; [done|]. simpl. by rewrite IH. Qed.

Lemma add_all_lookup x l c :
  c_annotations (add_all (x :: l) c) !! name
  = Some (default [] (c_annotations c !! name) ++ x :: l).
Proof.
  revert x c. induction l as [|y l IH]; intros x c.
  - simpl. unfold add_annotation, dd_append. by rewrite lookup_insert_eq.
  - change (add_all (x :: y :: l) c) with (add_all (y :: l) (class_add name x c)).
    rewrite IH. simpl. unfold add_annotation, dd_append. rewrite lookup_insert_eq. simpl.
    by rewrite <- app_assoc.
Qed.

(** The assignment of a directive to a class that has none. *)
Lemma assign_spec cls i c l :
  cls !! i = Some c → c_annotations c !! name = None →
  let cls1 := <[i := add_all l c]> cls in
  same_shape cls cls1
  ∧ value_of cls1 i = (if l is [] then None else Some l)
  ∧ ∀ j, j ≠ i → value_of cls1 j = value_of cls j.
Proof.
  intros Hi Hn cls1. assert (i < length cls)%nat as Hlt by by eapply lookup_lt_Some.
  split; [|split].
  - split; [apply length_insert|]. intros j. unfold subs, cls1.
    destruct (decide (j = i)) as [->|Hne].
    + rewrite list_lookup_insert_eq, Hi by done. simpl. apply add_all_subs.
    + by rewrite list_lookup_insert_ne.
  - unfold value_of, cls1. rewrite list_lookup_insert_eq by done. simpl.
    destruct l as [|x l]; [done|]. by rewrite add_all_lookup, Hn.
  - intros j Hne. unfold value_of, cls1. by rewrite list_lookup_insert_ne.
Qed.

Lemma extends_keeps_some cls cls' i :
  extends cls cls' → is_Some (value_of cls i) → is_Some (value_of cls' i).
Proof. intros H [v Hv]. exists v. by eapply extends_keeps. Qed.

(** A call passes a value down only from a base class that holds it. *)
Definition justified (cls : list Class) (i : nat) (av : option (list AnnoValue)) : Prop :=
  ∀ l, av = Some l → ∃ b, i ∈ subs cls b ∧ value_of cls b = Some l.

(** What a call of [propagate_annotation] on class [i] establishes. *)
Definition post (cls : list Class) (i : nat) (av : option (list AnnoValue))
    (cls' : list Class) : Prop :=
  extends cls cls'
  ∧ (∀ l, av = Some l → l ≠ [] → is_Some (value_of cls' i))
  ∧ (∀ v, value_of cls' i = Some v → v ≠ [] →
          ∀ d, d ∈ subs cls i → is_Some (value_of cls' d)).

Definition step_ok (fuel : nat) : Prop :=
  ∀ cls i av cls', justified cls i av →
    propagate_annotation fuel name cls i av = Ok cls' → post cls i av cls'.

Lemma fold_subs_spec fuel (IH : step_ok fuel) cls0 i l :
  l ≠ [] → value_of cls0 i = Some l →
  ∀ ss st st', extends cls0 st → (∀ s, s ∈ ss → s ∈ subs cls0 i) →
    foldM (fun cls s => propagate_annotation fuel name cls s (Some l)) ss st = Ok st' →
    extends st st' ∧ ∀ s, s ∈ ss → is_Some (value_of st' s).
Proof.
  intros Hl Hv ss. induction ss as [|a ss IHss]; intros st st' Hext Hin H; simpl in H.
  - injection H as <-. split; [apply extends_refl|]. by intros s ?%elem_of_nil.
  - apply bind_Ok in H as (st1 & H1 & H).
    apply IH in H1 as (E1 & Ha & _).
    2:{ intros l' [= <-]. exists i. split.
        - destruct Hext as [[_ Hs] _]. rewrite Hs. apply Hin. by left.
        - by eapply extends_keeps. }
    apply IHss in H as [E2 Hss].
    2:{ by eapply extends_trans. }
    2:{ intros s ?. apply Hin. by right. }
    split; [by eapply extends_trans|].
    intros s [->|?]%elem_of_cons; [|by apply Hss].
    eapply extends_keeps_some; [exact E2|]. by apply (Ha l).
Qed.

Lemma propagate_spec fuel : step_ok fuel.
Proof.
  induction fuel as [|fuel IH]; intros cls i av cls' Hj H; simpl in H; [done|].
  destruct (cls !! i) as [c|] eqn:Hi; [|done].
  assert (value_of cls i = c_annotations c !! name) as Hval
    by (unfold value_of; by rewrite Hi).
  assert (subs cls i = _annotated_sub_classes c) as Hsub
    by (unfold subs; by rewrite Hi).
  destruct (c_annotations c !! name) as [v0|] eqn:Hcur.
  - destruct v0 as [|x l0].
    + injection H as <-. split; [apply extends_refl|]. split.
      * intros. rewrite Hval. by eexists.
      * intros v Hv. rewrite Hval in Hv. by injection Hv as <-.
    + apply (fold_subs_spec fuel IH cls i (x :: l0)) in H as [E Hss];
        [|done|done|apply extends_refl|by intros s; rewrite Hsub].
      split; [done|]. split.
      * intros. eapply extends_keeps_some; [done|]. rewrite Hval. by eexists.
      * intros v _ _ d Hd. apply Hss. by rewrite <- Hsub.
  - destruct av as [l|].
    + destruct (assign_spec cls i c l Hi Hcur) as (Hshape & Hnew & Hother).
      assert (extends cls (<[i := add_all l c]> cls)) as E1.
      { split; [done|]. intros j. destruct (decide (j = i)) as [->|Hne].
        - rewrite Hnew. destruct l as [|x l]; [left; congruence|].
          right. split; [done|].
          destruct (Hj _ eq_refl) as (b & Hb & Hbv).
          exists b, (x :: l). repeat split; try done.
          rewrite Hother; [done|]. intros ->. congruence.
        - left. by apply Hother. }
      change (fold_left _ l c) with (add_all l c) in H.
      destruct l as [|x l].
      * injection H as <-. split; [done|]. split; [by intros l' [= <-]|].
        intros v Hv. change (value_of (<[i:=add_all [] c]> cls) i = Some v) in Hv.
        rewrite Hnew in Hv. done.
      * apply (fold_subs_spec fuel IH (<[i:=add_all (x :: l) c]> cls) i (x :: l))
          in H as [E Hss]; [|done|done|apply extends_refl|].
        2:{ intros s. destruct Hshape as [_ Hs]. by rewrite Hs, Hsub. }
        split; [by eapply extends_trans|]. split.
        -- intros. eapply extends_keeps_some; [done|]. rewrite Hnew. by eexists.
        -- intros v _ _ d Hd. apply Hss. by rewrite <- Hsub.
    + injection H as <-. split; [apply extends_refl|]. split; [done|].
      intros v Hv. rewrite Hval in Hv. done.
Qed.

(** Acyclic sub-class edges between existing classes: [rank] decreases
    along every edge. *)
Definition wf (rank : nat → nat) (cls : list Class) : Prop :=
  ∀ b d, d ∈ subs cls b → (d < length cls)%nat ∧ (rank d < rank b)%nat.

Lemma wf_same_shape rank cls cls' : same_shape cls cls' → wf rank cls → wf rank cls'.
Proof. intros [L S] H b d. rewrite S, L. apply H. Qed.

Lemma propagate_total rank fuel :
  ∀ cls i av, wf rank cls → (i < length cls)%nat → (rank i < fuel)%nat →
    justified cls i av →
    ∃ cls', propagate_annotation fuel name cls i av = Ok cls'.
Proof.
  induction fuel as [|fuel IH]; intros cls i av Hwf Hi Hr Hj; [lia|].
  simpl. apply lookup_lt_is_Some in Hi as [c Hi]. rewrite Hi.
  assert (subs cls i = _annotated_sub_classes c) as Hsub
    by (unfold subs; by rewrite Hi).
  assert (∀ cls0 l, l ≠ [] → same_shape cls cls0 → value_of cls0 i = Some l →
            ∀ ss st, extends cls0 st → (∀ s, s ∈ ss → s ∈ subs cls0 i) →
              ∃ st', foldM (fun cls s => propagate_annotation fuel name cls s (Some l))
                           ss st = Ok st') as Hfold.
  { intros cls0 l Hl Hsh Hv ss. induction ss as [|a ss IHss]; intros st Hext Hin.
    - by exists st.
    - simpl.
      assert (a ∈ subs cls i) as Ha.
      { destruct Hsh as [_ Hs]. rewrite <- Hs. apply Hin. by left. }
      destruct (Hwf _ _ Ha) as [Hlt Hrank].
      assert (same_shape cls st) as Hst
        by (eapply same_shape_trans; [exact Hsh|apply Hext]).
      assert (justified st a (Some l)) as Hja.
      { intros l' [= <-]. exists i. split.
        - destruct Hst as [_ Hs]. by rewrite Hs.
        - by eapply extends_keeps. }
      destruct (IH st a (Some l)) as [st1 H1];
        [by eapply wf_same_shape|destruct Hst as [-> _]; done|lia|done|].
      rewrite H1. simpl.
      apply propagate_spec in H1 as (E1 & _); [|done].
      apply IHss; [by eapply extends_trans|]. intros s ?. apply Hin. by right. }
  destruct (c_annotations c !! name) as [v0|] eqn:Hcur.
  - destruct v0 as [|x l0]; [by eexists|].
    apply (Hfold cls (x :: l0)); [done|apply same_shape_refl| |apply extends_refl|].
    + unfold value_of. by rewrite Hi.
    + intros s. by rewrite Hsub.
  - destruct av as [l|]; [|by eexists].
    destruct l as [|x l]; [by eexists|].
    destruct (assign_spec cls i c (x :: l) Hi Hcur) as (Hshape & Hnew & Hother).
    change (fold_left _ (x :: l) c) with (add_all (x :: l) c).
    apply (Hfold (<[i:=add_all (x :: l) c]> cls) (x :: l));
      [done|done|done|apply extends_refl|].
    intros s. destruct Hshape as [_ Hs]. by rewrite Hs, Hsub.
Qed.

(** The annotations under other names are left as they are. *)
Definition other_of (cls : list Class) (j : nat) (k : string) : option (list AnnoValue) :=
  c ← cls !! j; c_annotations c !! k.

Definition same_others (cls cls' : list Class) : Prop :=
  ∀ j k, k ≠ name → other_of cls' j k = other_of cls j k.

Lemma add_all_lookup_ne l c k :
  k ≠ name → c_annotations (add_all l c) !! k = c_annotations c !! k.
Proof.
  intros Hk. revert c. induction l as [|x l IH]; intros c; [done|].
  change (add_all (x :: l) c) with (add_all l (class_add name x c)).
  rewrite IH. simpl. unfold add_annotation, dd_append. by rewrite lookup_insert_ne.
Qed.

Lemma propagate_others fuel :
  ∀ cls i av cls', propagate_annotation fuel name cls i av = Ok cls' → same_others cls cls'.
Proof.
  induction fuel as [|fuel IH]; intros cls i av cls' H; simpl in H; [done|].
  destruct (cls !! i) as [c|] eqn:Hi; [|done].
  assert (∀ l, same_others cls (<[i := add_all l c]> cls)) as Hassign.
  { intros l j k Hk. unfold other_of. destruct (decide (j = i)) as [->|Hne].
    - rewrite list_lookup_insert_eq by by eapply lookup_lt_Some.
      rewrite Hi. simpl. by apply add_all_lookup_ne.
    - by rewrite list_lookup_insert_ne. }
  assert (∀ l ss st st',
            foldM (fun cls s => propagate_annotation fuel name cls s (Some l)) ss st = Ok st' →
            same_others st st') as Hfold.
  { intros l ss. apply (foldM_inv same_others); [done| |by intros ???; apply IH].
    intros a b d Hab Hbd j k Hk. by rewrite Hbd, Hab. }
  destruct (c_annotations c !! name) as [v0|].
  - destruct v0 as [|x l0]; [by injection H as <-|]. by eapply Hfold.
  - destruct av as [l|]; [|by injection H as <-].
    change (fold_left _ l c) with (add_all l c) in H.
    destruct l as [|x l].
    + injection H as <-. apply (Hassign []).
    + intros j k Hk. rewrite (Hfold _ _ _ _ H j k Hk). by apply Hassign.
Qed.

(** The top-level loop, [propagate_annotation(cls, name, None)] for every
    class. *)
Definition propagate_all (fuel : nat) (cls : list Class) : Result (list Class) :=
  foldM (fun cls i => propagate_annotation fuel name cls i None) (seq 0 (length cls)) cls.

Lemma justified_None cls i : justified cls i None.
Proof. by intros l. Qed.

Lemma top_fold_extends fuel idx st st' :
  foldM (fun cls i => propagate_annotation fuel name cls i None) idx st = Ok st' →
  extends st st'.
Proof.
  apply (foldM_inv extends); [apply extends_refl|apply extends_trans|].
  intros s x s' H. by apply propagate_spec in H as [E _]; [|apply justified_None].
Qed.

Lemma top_fold_total rank fuel cls :
  wf rank cls → (∀ i, (i < length cls)%nat → (rank i < fuel)%nat) →
  ∀ idx st, same_shape cls st → Forall (fun i => (i < length cls)%nat) idx →
    ∃ st', foldM (fun cls i => propagate_annotation fuel name cls i None) idx st = Ok st'.
Proof.
  intros Hwf Hfuel idx. induction idx as [|i idx IH]; intros st Hsh His; [by exists st|].
  apply Forall_cons in His as [Hi His]. simpl.
  destruct (propagate_total rank fuel st i None) as [st1 H1];
    [by eapply wf_same_shape|destruct Hsh as [-> _]; done|by apply Hfuel
    |apply justified_None|].
  rewrite H1. simpl. apply IH; [|done].
  apply propagate_spec in H1 as [[E _] _]; [|apply justified_None].
  by eapply same_shape_trans.
Qed.

Lemma propagate_all_total rank fuel cls :
  wf rank cls → (∀ i, (i < length cls)%nat → (rank i < fuel)%nat) →
  ∃ cls', propagate_all fuel cls = Ok cls'.
Proof.
  intros Hwf Hfuel. apply (top_fold_total rank fuel cls Hwf Hfuel);
    [apply same_shape_refl|].
  apply Forall_forall. intros i Hi%elem_of_seq. lia.
Qed.

(** The sub-classes of a class that holds a directive all hold one after the
    top-level loop. *)
Lemma propagate_all_reaches fuel cls cls' b d v :
  propagate_all fuel cls = Ok cls' →
  value_of cls b = Some v → v ≠ [] → d ∈ subs cls b →
  is_Some (value_of cls' d).
Proof.
  unfold propagate_all. intros H Hv Hne Hd.
  assert (b < length cls)%nat as Hb.
  { unfold value_of in Hv. destruct (cls !! b) eqn:E; [|done]. by eapply lookup_lt_Some. }
  assert (seq 0 (length cls) = seq 0 b ++ b :: seq (S b) (length cls - S b)) as Hseq.
  { replace (length cls) with (b + S (length cls - S b))%nat at 1 by lia.
    by rewrite seq_app. }
  rewrite Hseq in H. apply foldM_app in H as (s1 & H1 & H). simpl in H.
  apply bind_Ok in H as (s2 & H2 & H3).
  apply top_fold_extends in H1, H3.
  apply propagate_spec in H2 as (E2 & _ & Hreach); [|apply justified_None].
  eapply extends_keeps_some; [exact H3|].
  apply (Hreach v); [|done|].
  - eapply extends_keeps; [exact E2|]. by eapply extends_keeps.
  - destruct H1 as [[_ Hs] _]. by rewrite Hs.
Qed.

Lemma top_fold_others fuel idx st st' :
  foldM (fun cls i => propagate_annotation fuel name cls i None) idx st = Ok st' →
  same_others st st'.
Proof.
  apply (foldM_inv same_others); [done| |by intros ???; apply propagate_others].
  intros a b d Hab Hbd j k Hk. by rewrite Hbd, Hab.
Qed.

End Directive.

(** The uid-accessor directive of a class. *)
Abbreviation uid := (value_of "uid-method").
Abbreviation sub_classes := subs.

Lemma path_fold_some json_dumps cls d :
  ∀ l attrs attrs', foldM (path_step json_dumps cls) l attrs = Ok attrs' →
    d ∈ l ∨ is_Some (attrs !! d) → is_Some (attrs' !! d).
Proof.
  induction l as [|i l IH]; intros attrs attrs' H Hd; simpl in H.
  - injection H as <-. by destruct Hd as [?%elem_of_nil|?].
  - apply bind_Ok in H as (attrs1 & H1 & H). apply (IH _ _ H).
    unfold path_step in H1. destruct (cls !! i) as [c|]; [|done].
    apply bind_Ok in H1 as (a & _ & [= <-]).
    destruct (decide (i = d)) as [->|Hne].
    + right. rewrite lookup_insert_eq. by eexists.
    + rewrite lookup_insert_ne by done.
      destruct Hd as [[->|?]%elem_of_cons|?]; [done|by left|by right].
Qed.

(** The attributes the loop "Process uid-method" leaves on a class that
    holds the directive [v]. *)
Definition relative_to_base (v : list AnnoValue) (a : ClassAttrs) : Prop :=
  cls_path_type a = RELATIVE_TO_BASE_PATH ∧ cls_uid_method a = Some v.

Lemma uid_fold_sets cls d c v :
  cls !! d = Some c → c_annotations c !! "uid-method" = Some v →
  ∀ l attrs a, attrs !! d = Some a → d ∈ l ∨ relative_to_base v a →
    ∃ a', fold_left (uid_step cls) l attrs !! d = Some a' ∧ relative_to_base v a'.
Proof.
  intros Hc Hv. induction l as [|i l IH]; intros attrs a Ha Hd; simpl.
  - exists a. by destruct Hd as [?%elem_of_nil|?].
  - destruct (decide (i = d)) as [->|Hne].
    + apply (IH _ (class_uid c a)).
      * unfold uid_step. rewrite Hc, Ha. by rewrite lookup_insert_eq.
      * right. unfold class_uid. by rewrite Hv.
    + apply (IH _ a).
      * unfold uid_step. destruct (cls !! i), (attrs !! i); try done.
        by rewrite lookup_insert_ne.
      * destruct Hd as [[->|?]%elem_of_cons|?]; [done|by left|by right].
Qed.

(** The path annotation [class_path] compiles, and when it compiles. *)
Definition chosen_paths (m : gmap string (list AnnoValue)) : list AnnoValue :=
  if bool_decide (anno_get m "absolute-path" [] ≠ [])
  then anno_get m "absolute-path" [] else anno_get m "path" [].

Definition paths_ok (c : Class) : Prop :=
  last (chosen_paths (c_annotations c)) ≠ Some AVTrue.

Lemma process_path_annotation_total json_dumps l sl :
  last l ≠ Some AVTrue → ∃ r, process_path_annotation json_dumps l sl = Ok r.
Proof.
  intros H. unfold process_path_annotation. rewrite fmap_last.
  destruct (last l) as [[|x|[|x [|y t]]]|]; simpl.
  - done.
  - destruct (negb (String.eqb x "")); by eexists.
  - by eexists.
  - destruct (negb (String.eqb x "")); by eexists.
  - by eexists.
  - by eexists.
Qed.

Lemma class_path_total json_dumps c :
  paths_ok c → ∃ a, class_path json_dumps c = Ok a.
Proof.
  unfold paths_ok, chosen_paths, class_path. intros H.
  destruct (bool_decide _).
  - destruct (process_path_annotation_total json_dumps _ CLASS_PATH_SUBST_LIST H)
      as [[[p up] pp] ->]. by eexists.
  - destruct (c_annotations c !! "uid-method");
      destruct (process_path_annotation_total json_dumps _ CLASS_PATH_SUBST_LIST H)
        as [[[p up] pp] ->]; by eexists.
Qed.

Lemma path_fold_total json_dumps cls :
  ∀ l attrs, Forall (fun i => ∃ c, cls !! i = Some c ∧ paths_ok c) l →
    ∃ attrs', foldM (path_step json_dumps cls) l attrs = Ok attrs'.
Proof.
  induction l as [|i l IH]; intros attrs H; [by eexists|].
  apply Forall_cons in H as [(c & Hc & Hok) H]. simpl.
  unfold path_step at 2. rewrite Hc.
  destruct (class_path_total json_dumps c Hok) as [a ->]. simpl. by apply IH.
Qed.


(** Base class [::B] with the method [getId], derived class [::D] that
    carries a [semantic] attribute, and a global declaration that names
    [getId] as the uid-accessor. *)
Definition getId : Function :=
  mkFunction "getId" ∅
    (Clang.of_cursor (Clang.mkCursor Clang.CK_CXX_METHOD "getId" 0)
                     Clang.invalid_type false false false).

Definition base_derived_env : Environment :=
  empty_env
    [mkClass "::B" ∅ [getId] [] [] [] [] [];
     mkClass "::D" {[ "semantic" := [AVStr "ex:D"] ]} [] [] ["::B"] [] [] []]
    [mkItem "arvida_global_annotation_func" None
       [mkAnnotation (Some "arvida-uid-method") [sparam "getId"]]].

(** The environment [build_index] makes of it: both classes are annotated,
    [::B] holds the uid-method annotation and has [::D] as its annotated
    sub-class. *)
Definition base_derived_indexed : Environment :=
  Eval vm_compute in
    match build_index loads_plain base_derived_env with
    | Ok env => env
    | Raise _ => base_derived_env
    end.

Example base_derived_build_index :
  build_index loads_plain base_derived_env = Ok base_derived_indexed
  ∧ annotated_classes base_derived_indexed = [1%nat; 0%nat]
  ∧ uid (classes base_derived_indexed) 0 = Some [AVStr "getId"]
  ∧ uid (classes base_derived_indexed) 1 = None
  ∧ sub_classes (classes base_derived_indexed) 0 = [1%nat].
Proof. repeat split; vm_compute; reflexivity. Qed.


(** Base classes [::B1] with the method [getA] and [::B2] with the method
    [getB], the class [::D] derived from both, which carries a [semantic]
    attribute, and a global declaration that names [getA] and [getB] as
    uid-accessors. *)
Definition method (name : string) : Function :=
  mkFunction name ∅
    (Clang.of_cursor (Clang.mkCursor Clang.CK_CXX_METHOD name 0)
                     Clang.invalid_type false false false).

Definition two_bases_env : Environment :=
  empty_env
    [mkClass "::B1" ∅ [method "getA"] [] [] [] [] [];
     mkClass "::B2" ∅ [method "getB"] [] [] [] [] [];
     mkClass "::D" {[ "semantic" := [AVStr "ex:D"] ]} [] [] ["::B1"; "::B2"] [] [] []]
    [mkItem "arvida_global_annotation_func" None
       [mkAnnotation (Some "arvida-uid-method") [sparam "getA"];
        mkAnnotation (Some "arvida-uid-method") [sparam "getB"]]].

Definition two_bases_indexed : Environment :=
  Eval vm_compute in
    match build_index loads_plain two_bases_env with
    | Ok env => env
    | Raise _ => two_bases_env
    end.


End PropagationFacts.

Module BuildFacts.
Import Py Decoder Model Generator DecoderFacts ModelFacts PathFacts SortFacts TripleFacts.

(** The triples of a container are made from its triple annotations, one
    for one and in their order. *)
Lemma create_triples_in_order json_dumps json_loads cls c mem annos :
  ∀ g ts g', create_triples json_dumps json_loads cls c mem annos g = Ok (ts, g') →
    Forall2 (fun anno t => ∃ g1 g2, create_triple json_dumps json_loads cls c mem anno g1 = Ok (t, g2))
            annos ts.
Proof.
  induction annos as [|anno annos IH]; intros g ts g' H; simpl in H.
  - injection H as <- <-. constructor.
  - apply bind_Ok in H as ([t g1] & Ht & H).
    apply bind_Ok in H as ([ts' g2] & Hts & [= <- <-]).
    constructor; [by exists g, g1|]. by eapply IH.
Qed.

Lemma build_mtc_triples json_dumps json_loads cls c mem annos g mtc g' :
  build_mtc json_dumps json_loads cls c mem annos g = Ok (mtc, g') →
  Forall2 (fun anno t => ∃ g1 g2, create_triple json_dumps json_loads cls c mem anno g1 = Ok (t, g2))
          annos (triples mtc).
Proof.
  unfold build_mtc. intros H.
  apply bind_Ok in H as (mtc0 & _ & H).
  apply bind_Ok in H as ([ts g2] & Hts & [= <- <-]). simpl.
  by eapply create_triples_in_order.
Qed.

(** Class [::C] with the getter [getName], which carries the path
    [{$this}/name] and two triple annotations. *)
Definition getName_annotated : Function :=
  mkFunction "getName"
    {[ "path" := [AVStr "{$this}/name"];
       "triple" := [AVTuple ["_:b1"; "$this"; "rdf:type"];
                    AVTuple ["$this"; "ex:hasName"; "$that"]] ]}
    (Clang.of_cursor (Clang.mkCursor Clang.CK_CXX_METHOD "getName" 0)
                     Clang.invalid_type false false false).

Definition class_C : Class := mkClass "::C" ∅ [getName_annotated] [] [] [] [] [].

(** The one container of [::C]: it is for the writer only, its compiled
    path is the join of [(this)] and the quoted [/name], and its member
    triples are the second annotation, then the first. *)
Example class_C_mtcs :
  let t1 := blank_this_type "_:b1" "_b0" 0 1 2 3 4 in
  let t2 := this_name_that 0 (MFunction getName_annotated) 5 6 7 8 in
  ∃ mtc,
    class_mtcs dumps_plain loads_plain 0 class_C = Ok [mtc]
    ∧ triples mtc = [t1; t2]
    ∧ member_triples mtc = [t2; t1]
    ∧ member_element_triples mtc = []
    ∧ is_for_writer mtc = true ∧ is_for_reader mtc = false
    ∧ path_type mtc = Some RELATIVE_PATH
    ∧ pp_path mtc = Some ("Arvida::RDF::joinPath((this)," +:+
                            dumps_plain (AVStr "/name") +:+ ")").
Proof.
  intros t1 t2. eexists. split; [vm_compute; reflexivity|].
  repeat split; vm_compute; reflexivity.
Qed.

End BuildFacts.

Module WrapperFacts.
Import Clang.

(** X1: [remove_cv] always answers a wrapper that is not const.  The
    wrapper is not volatile either, except for a type that is volatile and
    not const: its wrapper is answered as it is.  The type and the cursor
    are kept. *)
Theorem remove_cv_qualifiers (w : CursorWrapper) :
  is_const (remove_cv w) = false
  ∧ is_volatile (remove_cv w) = is_volatile w && negb (is_const w)
  ∧ type (remove_cv w) = type w
  ∧ cursor (remove_cv w) = cursor w.
Proof.
  unfold remove_cv.
  destruct (is_const w) eqn:Hc, (is_volatile w) eqn:Hv; simpl;
    rewrite ?Hc, ?Hv; unfold is_const, is_volatile; simpl; done.
Qed.

(** X2: the removals do not compose.  [remove_const] on a const wrapper
    builds a wrapper that suppresses const only, so a volatile or restrict
    qualifier that was removed before is a qualifier of the result again. *)
Theorem remove_const_forgets_other_removals (w : CursorWrapper) :
  is_const w = true →
  is_const (remove_const w) = false
  ∧ is_volatile (remove_const w) = t_volatile (type w)
  ∧ is_restrict (remove_const w) = t_restrict (type w)
  ∧ type (remove_const w) = type w.
Proof.
  intros Hc. unfold remove_const. rewrite Hc. simpl.
  unfold is_const, is_volatile, is_restrict. simpl. done.
Qed.

(** A [const volatile] builtin type. *)
Definition cv_builtin : CType := mkCType TK_BUILTIN true true false None no_decl.

Lemma remove_const_forgets_witness :
  let w := remove_volatile (of_type cv_builtin) in
  is_volatile w = false
  ∧ (is_const (remove_const w) = false
     ∧ is_volatile (remove_const w) = true
     ∧ is_restrict (remove_const w) = false
     ∧ type (remove_const w) = cv_builtin).
Proof.
  split; [reflexivity|].
  apply (remove_const_forgets_other_removals (remove_volatile (of_type cv_builtin))).
  reflexivity.
Defined.

End WrapperFacts.

Module TokenFacts.
Import Py PyStr PyStrFacts TypeSpelling.

Local Open Scope nat_scope.

Lemma span_length p s a b :
  span p s = (a, b) → String.length a + String.length b = String.length s.
Proof.
  revert a b. induction s as [|c s IH]; intros a b H; simpl in H.
  - by injection H as <- <-.
  - destruct (p c).
    + destruct (span p s) as [a' b'] eqn:E. injection H as <- <-.
      simpl. by rewrite (IH a' b').
    + by injection H as <- <-.
Qed.

Lemma scan_rest_length s :
  ∀ a b, scan_rest s = (a, b) → String.length a + String.length b = String.length s.
Proof.
  assert (G : ∀ n s, String.length s < n → ∀ a b, scan_rest s = (a, b) →
                String.length a + String.length b = String.length s);
    [|by apply (G (S (String.length s))); lia].
  clear s. induction n as [|n IHn]; [lia|]. intros s Hn.
  assert (IH : ∀ s', String.length s' < String.length s → ∀ a b, scan_rest s' = (a, b) →
                String.length a + String.length b = String.length s').
  { intros s' Hs'. apply IHn. lia. }
  clear IHn Hn.
  intros a b H. destruct s as [|c s]; simpl in H.
  - by injection H as <- <-.
  - destruct (decide (c = ":"%char)) as [->|Hc].
    + destruct s as [|d s].
      * simpl in H. by injection H as <- <-.
      * destruct (decide (d = ":"%char)) as [->|Hd].
        -- destruct (scan_rest s) as [a' b'] eqn:E. injection H as <- <-.
           simpl. rewrite <- (IH s ltac:(simpl; lia) a' b' E). lia.
        -- assert (H' : (String.EmptyString, String ":" (String d s)) = (a, b)).
           { rewrite <- H. clear -Hd.
             destruct d as [[] [] [] [] [] [] [] []]; try done. }
           by injection H' as <- <-.
    + assert (H' : (if is_punct c || Ascii.eqb c ":" then (String.EmptyString, String c s)
                    else let '(a, b) := scan_rest s in (String c a, b)) = (a, b)).
      { rewrite <- H. clear -Hc.
        destruct c as [[] [] [] [] [] [] [] []]; try done. }
      destruct (is_punct c || Ascii.eqb c ":").
      * by injection H' as <- <-.
      * destruct (scan_rest s) as [a' b'] eqn:E. injection H' as <- <-.
        simpl. by rewrite (IH s ltac:(simpl; lia) a' b' E).
Qed.

Lemma tokenize_go_fuel fuel :
  ∀ fuel' s, String.length s < fuel → String.length s < fuel' →
    tokenize_go fuel s = tokenize_go fuel' s.
Proof.
  induction fuel as [|fuel IH]; intros fuel' s Hf Hf'; [lia|].
  destruct fuel' as [|fuel']; [lia|].
  destruct s as [|c s]; [done|].
  cbn [tokenize_go].
  destruct (span is_space (String c s)) as [[|x xs] r] eqn:Esp.
  - destruct (scan_hex (String c s)); [done|].
    destruct (span is_digit (String c s)) as [[|d ds] r'] eqn:Ed.
    + destruct (is_punct c).
      * rewrite (IH fuel' s); [done|simpl in *; lia..].
      * destruct (scan_rest (String c s)) as [[|e es] r''] eqn:Er.
        -- apply IH; simpl in *; lia.
        -- apply scan_rest_length in Er.
           rewrite (IH fuel' r''); [done|simpl in *; lia..].
    + apply span_length in Ed.
      rewrite (IH fuel' r'); [done|simpl in *; lia..].
  - apply span_length in Esp. apply IH; simpl in *; lia.
Qed.

Lemma tokenize_go_total fuel :
  ∀ s, String.length s < fuel →
    tokenize_go fuel s = Raise ValueError ∨ ∃ ts, tokenize_go fuel s = Ok ts.
Proof.
  induction fuel as [|fuel IH]; intros s Hf; [lia|].
  destruct s as [|c s]; [right; by eexists|].
  cbn [tokenize_go].
  destruct (span is_space (String c s)) as [[|x xs] r] eqn:Esp.
  - destruct (scan_hex (String c s)); [by left|].
    destruct (span is_digit (String c s)) as [[|d ds] r'] eqn:Ed.
    + destruct (is_punct c).
      * destruct (IH s) as [->|[ts ->]]; [simpl in *; lia|by left|right; by eexists].
      * destruct (scan_rest (String c s)) as [[|e es] r''] eqn:Er.
        -- apply IH; simpl in *; lia.
        -- apply scan_rest_length in Er.
           destruct (IH r'') as [->|[ts ->]]; [simpl in *; lia|by left|right; by eexists].
    + apply span_length in Ed.
      destruct (IH r') as [->|[ts ->]]; [simpl in *; lia|by left|right; by eexists].
  - apply span_length in Esp. apply IH; simpl in *; lia.
Qed.

Lemma span_app p s a b : span p s = (a, b) → s = a +:+ b.
Proof.
  revert a b. induction s as [|c s IH]; intros a b H; simpl in H.
  - by injection H as <- <-.
  - destruct (p c).
    + destruct (span p s) as [a' b'] eqn:E. injection H as <- <-.
      rewrite app_cons. f_equal. by apply IH.
    + by injection H as <- <-.
Qed.

Lemma scan_rest_app s : ∀ a b, scan_rest s = (a, b) → s = a +:+ b.
Proof.
  assert (G : ∀ n s, String.length s < n → ∀ a b, scan_rest s = (a, b) → s = a +:+ b);
    [|by apply (G (S (String.length s))); lia].
  clear s. induction n as [|n IHn]; [lia|]. intros s Hn.
  assert (IH : ∀ s', String.length s' < String.length s → ∀ a b, scan_rest s' = (a, b) →
                s' = a +:+ b).
  { intros s' Hs'. apply IHn. lia. }
  clear IHn Hn.
  intros a b H. destruct s as [|c s]; simpl in H.
  - by injection H as <- <-.
  - destruct (decide (c = ":"%char)) as [->|Hc].
    + destruct s as [|d s].
      * simpl in H. by injection H as <- <-.
      * destruct (decide (d = ":"%char)) as [->|Hd].
        -- destruct (scan_rest s) as [a' b'] eqn:E. injection H as <- <-.
           rewrite !app_cons. do 2 f_equal. apply IH; [simpl; lia|done].
        -- assert (H' : (String.EmptyString, String ":" (String d s)) = (a, b)).
           { rewrite <- H. clear -Hd.
             destruct d as [[] [] [] [] [] [] [] []]; try done. }
           by injection H' as <- <-.
    + assert (H' : (if is_punct c || Ascii.eqb c ":" then (String.EmptyString, String c s)
                    else let '(a, b) := scan_rest s in (String c a, b)) = (a, b)).
      { rewrite <- H. clear -Hc.
        destruct c as [[] [] [] [] [] [] [] []]; try done. }
      destruct (is_punct c || Ascii.eqb c ":").
      * by injection H' as <- <-.
      * destruct (scan_rest s) as [a' b'] eqn:E. injection H' as <- <-.
        rewrite app_cons. f_equal. apply IH; [simpl; lia|done].
Qed.

Lemma contains_app_r p r n : contains r n = true → contains (p +:+ r) n = true.
Proof.
  intros H. induction p as [|c p IH]; [by rewrite app_nil_l|].
  rewrite app_cons. simpl. rewrite IH. apply orb_true_r.
Qed.

Lemma contains_suffix_false p r n : contains (p +:+ r) n = false → contains r n = false.
Proof.
  intros H. destruct (contains r n) eqn:E; [|done].
  by rewrite (contains_app_r p r n E) in H.
Qed.

(** No hexadecimal prefix [0x] or [0X] anywhere in [s]. *)
Definition no_hex_prefix (s : string) : Prop :=
  contains s "0x" = false ∧ contains s "0X" = false.

Lemma no_hex_prefix_suffix p r : no_hex_prefix (p +:+ r) → no_hex_prefix r.
Proof. intros [H1 H2]. split; by eapply contains_suffix_false. Qed.

Lemma no_hex_prefix_tail c s : no_hex_prefix (String c s) → no_hex_prefix s.
Proof. apply (no_hex_prefix_suffix (String c "")). Qed.

Lemma scan_hex_prefix s r : scan_hex s = Some r → ¬ no_hex_prefix s.
Proof.
  unfold scan_hex. destruct s as [|c [|x s]]; [done| |].
  { intros H. exfalso. clear -H. destruct c as [[] [] [] [] [] [] [] []]; done. }
  destruct (decide (c = "0"%char)) as [->|Hc]; cycle 1.
  { intros H. exfalso. clear -H Hc. destruct c as [[] [] [] [] [] [] [] []]; done. }
  destruct (Ascii.eqb x "x") eqn:Ex; [apply Ascii.eqb_eq in Ex as ->|];
    [intros _ [H _]; by simpl in H|].
  destruct (Ascii.eqb x "X") eqn:EX; [apply Ascii.eqb_eq in EX as ->|];
    [intros _ [_ H]; by simpl in H|].
  done.
Qed.

Lemma tokenize_go_no_hex fuel :
  ∀ s, String.length s < fuel → no_hex_prefix s → ∃ ts, tokenize_go fuel s = Ok ts.
Proof.
  induction fuel as [|fuel IH]; intros s Hf Hn; [lia|].
  destruct s as [|c s]; [by eexists|].
  cbn [tokenize_go].
  destruct (span is_space (String c s)) as [[|x xs] r] eqn:Esp.
  - destruct (scan_hex (String c s)) eqn:Eh; [by apply scan_hex_prefix in Eh|].
    destruct (span is_digit (String c s)) as [[|d ds] r'] eqn:Ed.
    + destruct (is_punct c).
      * destruct (IH s) as [ts ->]; [simpl in *; lia|by eapply no_hex_prefix_tail|by eexists].
      * destruct (scan_rest (String c s)) as [[|e es] r''] eqn:Er.
        -- apply IH; [simpl in *; lia|by eapply no_hex_prefix_tail].
        -- pose proof (scan_rest_app _ _ _ Er) as Ea. apply scan_rest_length in Er.
           destruct (IH r'') as [ts ->]; [simpl in *; lia| |by eexists].
           rewrite Ea in Hn. by eapply no_hex_prefix_suffix.
    + pose proof (span_app _ _ _ _ Ed) as Ea. apply span_length in Ed.
      destruct (IH r') as [ts ->]; [simpl in *; lia| |by eexists].
      rewrite Ea in Hn. by eapply no_hex_prefix_suffix.
  - pose proof (span_app _ _ _ _ Esp) as Ea. apply span_length in Esp.
    apply IH; [simpl in *; lia|]. rewrite Ea in Hn. by eapply no_hex_prefix_suffix.
Qed.

(** X3: the tokenizer handles every spelling: it answers the tokens, or
    raises [ValueError] (on a hexadecimal literal, which [int] refuses); the
    rounds given to the model always suffice.  A spelling in which no [0x]
    or [0X] occurs is always tokenized. *)
Theorem tokenize_type_spelling_total (s : string) :
  (tokenize_type_spelling s = Raise ValueError ∨ ∃ ts, tokenize_type_spelling s = Ok ts)
  ∧ (contains s "0x" = false → contains s "0X" = false →
     ∃ ts, tokenize_type_spelling s = Ok ts).
Proof.
  split; [apply tokenize_go_total; lia|].
  intros H1 H2. apply tokenize_go_no_hex; [lia|done].
Qed.

Lemma tokenize_type_spelling_total_witness :
  ∃ ts, tokenize_type_spelling "std::map<int, Foo>" = Ok ts.
Proof.
  apply (proj2 (tokenize_type_spelling_total "std::map<int, Foo>")); reflexivity.
Defined.

(** ** The bracket discipline of the parser *)

Definition opens (toks : list Token) : nat :=
  length (List.filter (fun t => bool_decide (t = TokStr "<")) toks).

Definition closes (toks : list Token) : nat :=
  length (List.filter (fun t => bool_decide (t = TokStr ">")) toks).

Lemma bind_Ok_inv {A B} (m : Result A) (k : A → Result B) (b : B) :
  (x ← m; k x) = Ok b → ∃ a, m = Ok a ∧ k a = Ok b.
Proof. destruct m; [by eexists|done]. Qed.

Lemma step_stack tok st st' :
  step tok st = Ok st' →
  length (stack st') + closes [tok] = length (stack st) + opens [tok].
Proof.
  unfold step, opens, closes. simpl.
  destruct (decide (tok = TokStr "<")) as [->|H1].
  { intros H. apply bind_Ok_inv in H as ([p o] & _ & [= <-]). simpl.
    rewrite length_app. simpl. lia. }
  destruct (decide (tok = TokStr ">")) as [->|H2].
  { destruct (reverse (stack st)) as [|top rest] eqn:E; [done|].
    intros [= <-]. simpl. rewrite length_reverse.
    apply (f_equal length) in E. rewrite length_reverse in E. simpl in E. lia. }
  rewrite !bool_decide_eq_false_2 by done. simpl.
  destruct (decide (tok = TokStr ",")); [by intros [= <-]|].
  destruct tok; intros H; apply bind_Ok_inv in H as ([p o] & _ & [= <-]); simpl; lia.
Qed.

Lemma opens_cons tok toks : opens (tok :: toks) = opens [tok] + opens toks.
Proof. unfold opens. simpl. by destruct (bool_decide _). Qed.

Lemma closes_cons tok toks : closes (tok :: toks) = closes [tok] + closes toks.
Proof. unfold closes. simpl. by destruct (bool_decide _). Qed.

Lemma run_stack toks :
  ∀ st st', run toks st = Ok st' →
    length (stack st') + closes toks = length (stack st) + opens toks.
Proof.
  induction toks as [|tok toks IH]; intros st st' H; simpl in H.
  - injection H as <-. unfold opens, closes. simpl. lia.
  - apply bind_Ok_inv in H as (st1 & H1 & H).
    apply step_stack in H1. apply IH in H.
    rewrite opens_cons, closes_cons. lia.
Qed.

Lemma run_take toks k :
  ∀ st st', run toks st = Ok st' → ∃ st1, run (firstn k toks) st = Ok st1.
Proof.
  revert k. induction toks as [|tok toks IH]; intros k st st' H.
  - rewrite firstn_nil. by eexists.
  - destruct k as [|k]; [by eexists|].
    simpl in H. apply bind_Ok_inv in H as (st1 & H1 & H).
    simpl. rewrite H1. simpl. by eapply IH.
Qed.

(** X4: a spelling is parsed only when its angle brackets balance: the
    tokens hold as many [<] as [>], and no prefix of them closes more
    brackets than it opens. *)
Theorem analyze_brackets_balanced (s : string) (t : Tree) :
  analyze_type_spelling s = Ok (Some t) →
  ∃ toks, tokenize_type_spelling s = Ok toks
    ∧ opens toks = closes toks
    ∧ ∀ k, closes (firstn k toks) ≤ opens (firstn k toks).
Proof.
  unfold analyze_type_spelling. intros H.
  apply bind_Ok_inv in H as (toks & Htok & H). exists toks. split; [done|].
  destruct toks as [|t0 rest]; [done|].
  destruct (bool_decide (t0 ∈ _)) eqn:E0; [done|].
  apply bool_decide_eq_false in E0.
  assert (Ho : opens [t0] = 0 ∧ closes [t0] = 0).
  { unfold opens, closes. simpl.
    rewrite !bool_decide_eq_false_2; [done|intros ->; apply E0; set_solver..]. }
  apply bind_Ok_inv in H as (st & Hrun & H).
  apply bind_Ok_inv in H as ([] & Hst & _).
  unfold assert in Hst. destruct (bool_decide (stack st = [])) eqn:Es; [|done].
  apply bool_decide_eq_true in Es.
  split.
  - apply run_stack in Hrun. rewrite Es in Hrun. simpl in Hrun.
    rewrite opens_cons, closes_cons. lia.
  - intros [|k]; [unfold opens, closes; simpl; lia|].
    rewrite firstn_cons, opens_cons, closes_cons.
    destruct (run_take rest k _ _ Hrun) as (st1 & H1).
    apply run_stack in H1. simpl in H1. lia.
Qed.

Lemma analyze_brackets_balanced_witness :
  ∃ toks, tokenize_type_spelling "Foo<Bar<int,4>,Baz>" = Ok toks
    ∧ opens toks = closes toks
    ∧ ∀ k, closes (firstn k toks) ≤ opens (firstn k toks).
Proof.
  apply (analyze_brackets_balanced "Foo<Bar<int,4>,Baz>"
           (Node (TokStr "Foo")
              (Some [Node (TokStr "Bar") (Some [Node (TokStr "int") None; Lit 4]);
                     Node (TokStr "Baz") None]))).
  vm_compute. reflexivity.
Defined.

(** ** Rendering *)

Lemma length_app (a b : string) :
  String.length (a +:+ b) = String.length a + String.length b.
Proof. induction a as [|c a IH]; [by rewrite app_nil_l|]. rewrite app_cons. simpl. by rewrite IH. Qed.

Lemma app_assoc (a b c : string) : (a +:+ b) +:+ c = a +:+ (b +:+ c).
Proof.
  induction a as [|x a IH]; [by rewrite !app_nil_l|]. by rewrite !app_cons, IH.
Qed.

Lemma take_drop (n : nat) (s : string) : take n s +:+ drop n s = s.
Proof.
  revert s. induction n as [|n IH]; intros [|c s]; simpl; try done.
  by rewrite app_cons, IH.
Qed.

Lemma endswith_spec (s p : string) : endswith s p = true ↔ ∃ q, s = q +:+ p.
Proof.
  unfold endswith. rewrite andb_true_iff, String.eqb_eq, Nat.leb_le. split.
  - intros [H _]. exists (take (String.length s - String.length p) s).
    rewrite <- H at 2. by rewrite take_drop.
  - intros [q ->]. rewrite length_app. split; [|lia].
    replace (String.length q + String.length p - String.length p) with (String.length q) by lia.
    apply drop_app.
Qed.

Lemma app_snoc_inj (a b : string) (c d : ascii) :
  a +:+ String c "" = b +:+ String d "" → a = b ∧ c = d.
Proof.
  revert b. induction a as [|x a IH]; intros [|y b]; rewrite ?app_nil_l, ?app_cons.
  - by intros [= ->].
  - intros [= -> H]. destruct b; by rewrite ?app_nil_l, ?app_cons in H.
  - intros [= -> H]. destruct a; by rewrite ?app_nil_l, ?app_cons in H.
  - intros [= -> H]. apply IH in H as [-> ->]. done.
Qed.

(** X5: the string of a type with template arguments ends in [>] and never
    in [>>]: when the arguments end in [>], a space is put before the
    closing bracket. *)
Theorem to_str_closing_brackets (nm : Token) (l : list Tree) :
  endswith (to_str (Node nm (Some l))) ">" = true
  ∧ endswith (to_str (Node nm (Some l))) ">>" = false.
Proof.
  cbn [to_str].
  set (res := str_of_token nm +:+ "<" +:+ join ", " (map to_str l)).
  split; [apply endswith_spec; by eexists|].
  apply not_true_is_false. intros [q Hq]%endswith_spec.
  change (q +:+ ">>") with (q +:+ (">" +:+ ">")) in Hq. rewrite <- app_assoc in Hq.
  apply app_snoc_inj in Hq as [Hq _].
  destruct (endswith res ">") eqn:E.
  - by apply app_snoc_inj in Hq as [_ ?].
  - apply not_true_iff_false in E. apply E. apply endswith_spec. by exists q.
Qed.

End TokenFacts.

Module CallFacts.
Import Py PyStr PyStrFacts Decoder DecoderFacts.

(** The end-of-parameters sentinel, and the parameters the macros pass for
    an invocation [name(params...)]: its name, its parameters, the
    sentinel. *)
Definition sentinel : AnnotationParam := mkParam STRING_PARAM PARAM_END None.

Definition invocation (np : string * list AnnotationParam) : list AnnotationParam :=
  mkParam STRING_PARAM np.1 None :: np.2 ++ [sentinel].

Definition no_sentinel (ps : list AnnotationParam) : Prop :=
  Forall (fun p => is_end_of_parameters p = false) ps.

Lemma fold_group_params ps :
  ∀ nm acc done,
    no_sentinel ps →
    fold_left group_step ps (mkGS false nm acc done) = mkGS false nm (acc ++ ps) done.
Proof.
  induction ps as [|p ps IH]; intros nm acc done H.
  - by rewrite app_nil_r.
  - inversion H as [|? ? Hp Hps]; subst. simpl.
    unfold group_step at 2. rewrite Hp. simpl.
    rewrite IH by done. by rewrite <- app_assoc.
Qed.

Lemma fold_group_invocation np rest done :
  np.1 ≠ PARAM_END → no_sentinel np.2 →
  fold_left group_step (invocation np ++ rest) (mkGS true None [] done)
  = fold_left group_step rest (mkGS true None [] (done ++ [mkAnnotation (Some np.1) np.2])).
Proof.
  intros Hn Hps. unfold invocation. simpl.
  unfold group_step at 2. unfold is_end_of_parameters. simpl.
  rewrite (proj2 (String.eqb_neq _ _) Hn). simpl.
  rewrite <- app_assoc, fold_left_app, fold_group_params by done. simpl.
  done.
Qed.

Lemma fold_group_invocations invs :
  ∀ done,
    Forall (fun np => np.1 ≠ PARAM_END ∧ no_sentinel np.2) invs →
    fold_left group_step (flat_map invocation invs) (mkGS true None [] done)
    = mkGS true None [] (done ++ ((fun np => mkAnnotation (Some np.1) np.2) <$> invs)).
Proof.
  induction invs as [|np invs IH]; intros done H.
  - by rewrite app_nil_r.
  - inversion H as [|? ? [Hn Hps] Hrest]; subst.
    change (flat_map invocation (np :: invs)) with (invocation np ++ flat_map invocation invs).
    rewrite fold_group_invocation by done. rewrite IH by done.
    by rewrite <- app_assoc.
Qed.

(** X6: decoding inverts the macros' encoding.  When the parameters of a
    marker call are the target followed by invocations, each a name (other
    than the sentinel), parameters (none of them the sentinel) and the
    sentinel, the item holds exactly these invocations, in their order. *)
Theorem from_cursor_decodes_invocations (json_loads : string → option string)
    (spelling : string) (args : list ArgCursor) (p0 : AnnotationParam)
    (invs : list (string * list AnnotationParam)) :
  collect_annotation_params json_loads args = Ok (p0 :: flat_map invocation invs) →
  Forall (fun np => np.1 ≠ PARAM_END ∧ no_sentinel np.2) invs →
  from_cursor json_loads spelling args
  = Ok (Some (mkItem spelling (if is_item p0 then Some p0 else None)
                ((fun np => mkAnnotation (Some np.1) np.2) <$> invs))).
Proof.
  intros Hc Hi. unfold from_cursor. destruct args as [|a args]; [done|].
  rewrite Hc. cbn [mbind Result_mbind bind]. unfold group, group_init.
  rewrite fold_group_invocations by done.
  simpl. unfold is_item. by destruct (is_type p0), (is_object p0).
Qed.

Lemma from_cursor_decodes_witness :
  from_cursor loads_plain "arvida_reflect_object"
    [type_arg "::C"; str_arg "arvida-member-path"; str_arg "name"; str_arg "/name";
     str_arg "arvida-eop"; str_arg "arvida-class-include"; str_arg "c.h"; str_arg "arvida-eop"]
  = Ok (Some (mkItem "arvida_reflect_object" (Some (mkParam TYPE_PARAM "" (Some "::C")))
                [mkAnnotation (Some "arvida-member-path")
                   [mkParam STRING_PARAM "name" None; mkParam STRING_PARAM "/name" None];
                 mkAnnotation (Some "arvida-class-include")
                   [mkParam STRING_PARAM "c.h" None]])).
Proof.
  apply (from_cursor_decodes_invocations loads_plain "arvida_reflect_object" _
           (mkParam TYPE_PARAM "" (Some "::C"))
           [("arvida-member-path",
             [mkParam STRING_PARAM "name" None; mkParam STRING_PARAM "/name" None]);
            ("arvida-class-include", [mkParam STRING_PARAM "c.h" None])]).
  - reflexivity.
  - repeat constructor; done.
Defined.

(** X7: an invocation that does not start with a string has no name, and
    its first parameter is dropped: it is neither the name nor a
    parameter. *)
Theorem from_cursor_nameless_invocation (json_loads : string → option string)
    (spelling : string) (args : list ArgCursor) (p0 p : AnnotationParam)
    (ps : list AnnotationParam) :
  collect_annotation_params json_loads args = Ok (p0 :: p :: ps ++ [sentinel]) →
  is_string p = false → no_sentinel ps →
  ∃ it, from_cursor json_loads spelling args = Ok (Some it)
        ∧ annotations it = [mkAnnotation None ps].
Proof.
  intros Hc Hp Hps. unfold from_cursor. destruct args as [|a args]; [done|].
  rewrite Hc. eexists. split; [reflexivity|]. simpl.
  unfold group, group_init. simpl. unfold group_step at 2.
  unfold is_end_of_parameters. rewrite Hp. simpl.
  rewrite fold_left_app, fold_group_params by done. done.
Qed.

Lemma from_cursor_nameless_witness :
  ∃ it, from_cursor loads_plain "arvida_reflect_object"
          [type_arg "::C"; type_arg "::D"; str_arg "x"; str_arg "arvida-eop"] = Ok (Some it)
        ∧ annotations it = [mkAnnotation None [mkParam STRING_PARAM "x" None]].
Proof.
  apply (from_cursor_nameless_invocation loads_plain "arvida_reflect_object" _
           (mkParam TYPE_PARAM "" (Some "::C")) (mkParam TYPE_PARAM "" (Some "::D"))
           [mkParam STRING_PARAM "x" None]).
  - reflexivity.
  - reflexivity.
  - repeat constructor.
Defined.

End CallFacts.

Module MarkerFacts.
Import Py Decoder Markers DecoderFacts ModelFacts.

Definition MARKER_FUNCTIONS : list string :=
  ["arvida_reflect_get_type_ptr"; "arvida_reflect_object"; "arvida_reflect_object_ext";
   "arvida_global_annotation_func"].

Lemma is_marker_call_spelling c :
  is_marker_call c = true → b_spelling c ∈ MARKER_FUNCTIONS.
Proof.
  unfold is_marker_call. rewrite andb_true_iff, !orb_true_iff, !String.eqb_eq.
  unfold MARKER_FUNCTIONS. intros [_ [[[->| ->]| ->]| ->]]; set_solver.
Qed.

Lemma from_cursor_action json_loads sp args a :
  from_cursor json_loads sp args = Ok (Some a) → action a = sp.
Proof.
  unfold from_cursor. destruct args; [done|].
  destruct (collect_annotation_params _ _) as [[|p0 rest]|e]; [done| |done].
  by intros [= <-].
Qed.

(** Induction on an argument cursor, with the property for its children. *)
Fixpoint ArgCursor_ind' (P : ArgCursor → Prop)
    (H : ∀ k fn fp sp children, Forall P children → P (mkArg k fn fp sp children))
    (c : ArgCursor) : P c :=
  match c with
  | mkArg k fn fp sp children =>
      H k fn fp sp children
        ((fix go (l : list ArgCursor) : Forall P l :=
            match l with
            | [] => @List.Forall_nil _ P
            | x :: l0 => @List.Forall_cons _ P x l0 (ArgCursor_ind' P H x) (go l0)
            end) children)
  end.

Lemma collect_Raise {A B} (f : A → Result (list B)) (l : list A) (e : Exn) :
  collect f l = Raise e → ∃ x, x ∈ l ∧ f x = Raise e.
Proof.
  induction l as [|y l IH]; [done|]. simpl.
  destruct (f y) as [r|e'] eqn:Ey; simpl.
  - destruct (collect f l) as [rs|e'] eqn:El; [done|]. simpl. intros [= <-].
    destruct IH as (x & Hx & Hfx); [done|]. exists x. split; [|done].
    by apply list_elem_of_further.
  - intros [= <-]. exists y. split; [apply list_elem_of_here|done].
Qed.

(** Decoding the arguments of a call raises nothing but the [ValueError] of
    [json.loads]. *)
Lemma param_from_cursor_Raise json_loads c e :
  param_from_cursor json_loads c = Raise e → e = ValueError.
Proof.
  destruct c as [[] fn fp sp ch]; simpl; try done.
  unfold get_string_literal, loads.
  destruct (PyStr.startswith _ _); [|done]. destruct (json_loads sp); [done|].
  by intros [= <-].
Qed.

Lemma arg_visitor_Raise json_loads c e :
  Decoder.visitor json_loads c = Raise e → e = ValueError.
Proof.
  induction c as [k fn fp sp children IH] using ArgCursor_ind'.
  simpl. intros (x & Hx & Hfx)%collect_Raise. rewrite Forall_forall in IH.
  destruct (param_from_cursor json_loads x) as [[a|]|e'] eqn:Ep; simpl in Hfx.
  - done.
  - by apply (IH x Hx).
  - injection Hfx as <-. by eapply param_from_cursor_Raise.
Qed.

Lemma from_cursor_Raise json_loads sp args e :
  from_cursor json_loads sp args = Raise e → e = ValueError.
Proof.
  unfold from_cursor. destruct args as [|a args]; [done|].
  destruct (collect_annotation_params json_loads (a :: args)) as [[|p0 rest]|e'] eqn:E;
    [done|done|].
  simpl. intros [= <-]. unfold collect_annotation_params in E.
  apply collect_Raise in E as (x & _ & Hx). by eapply arg_visitor_Raise.
Qed.

(** Induction on a cursor, with the property for its children. *)
Fixpoint BodyCursor_ind' (P : BodyCursor → Prop)
    (H : ∀ k sp args children, Forall P children → P (mkBody k sp args children))
    (c : BodyCursor) : P c :=
  match c with
  | mkBody k sp args children =>
      H k sp args children
        ((fix go (l : list BodyCursor) : Forall P l :=
            match l with
            | [] => @List.Forall_nil _ P
            | x :: l0 => @List.Forall_cons _ P x l0 (BodyCursor_ind' P H x) (go l0)
            end) children)
  end.

(** The cursors whose children the search below [c] looks at: [c], and
    every cursor reached from [c] through children that are not marker
    calls. *)
Inductive searched : BodyCursor → BodyCursor → Prop :=
| searched_self c : searched c c
| searched_child c x d :
    x ∈ b_children c → is_marker_call x = false → searched x d → searched c d.

Section WithJson.

Variable json_loads : string → option string.

(** The marker calls among the children of the searched cursors. *)
Definition found (c m : BodyCursor) : Prop :=
  ∃ d, searched c d ∧ m ∈ b_children d ∧ is_marker_call m = true.

Definition decoded (m : BodyCursor) (items : list AnnotatedItem) : Prop :=
  ∃ a, from_cursor json_loads (b_spelling m) (b_arguments m) = Ok (Some a) ∧ a ∈ items.

(** The exception [e] comes from the marker call [m]: from decoding it, or,
    an [AssertionError], from finding nothing to decode. *)
Definition raised_at (m : BodyCursor) (e : Exn) : Prop :=
  from_cursor json_loads (b_spelling m) (b_arguments m) = Raise e
  ∨ (from_cursor json_loads (b_spelling m) (b_arguments m) = Ok None ∧ e = AssertionError).

Definition from_markers (items : list AnnotatedItem) : Prop :=
  Forall (fun a => action a ∈ MARKER_FUNCTIONS) items.

Lemma decode_marker_Ok m a :
  is_marker_call m = true → decode_marker json_loads m = Ok a →
  from_cursor json_loads (b_spelling m) (b_arguments m) = Ok (Some a)
  ∧ action a ∈ MARKER_FUNCTIONS.
Proof.
  unfold decode_marker. intros Hm.
  destruct (from_cursor _ _ _) as [[a'|]|e] eqn:E; [|done|done]. intros [= <-].
  split; [done|]. rewrite (from_cursor_action _ _ _ _ E). by apply is_marker_call_spelling.
Qed.

Lemma decode_marker_Raise m e : decode_marker json_loads m = Raise e → raised_at m e.
Proof.
  unfold decode_marker, raised_at.
  destruct (from_cursor _ _ _) as [[a|]|e']; [done| |]; simpl; intros [= <-]; [by right|by left].
Qed.

Definition visit_child (child : BodyCursor) : Result (list AnnotatedItem) :=
  if is_marker_call child
  then annotation ← decode_marker json_loads child; Ok [annotation]
  else visitor json_loads child.

Lemma visitor_unfold c : visitor json_loads c = collect visit_child (b_children c).
Proof. by destruct c. Qed.

Lemma collect_Ok {A B} (f : A → Result (list B)) (l : list A) (items : list B) :
  collect f l = Ok items →
  ∀ x, x ∈ l → ∃ r, f x = Ok r ∧ ∀ a, a ∈ r → a ∈ items.
Proof.
  revert items. induction l as [|y l IH]; intros items H x Hx.
  - by apply elem_of_nil in Hx.
  - simpl in H. apply bind_Ok in H as (r & Hr & H).
    apply bind_Ok in H as (rs & Hrs & [= <-]).
    apply elem_of_cons in Hx as [->|Hx].
    + exists r. split; [done|]. intros a Ha. apply elem_of_app. by left.
    + destruct (IH _ Hrs x Hx) as (r' & Hr' & Hin). exists r'. split; [done|].
      intros a Ha. apply elem_of_app. right. by apply Hin.
Qed.

Lemma collect_Forall {A B} (P : B → Prop) (f : A → Result (list B)) (l : list A) :
  (∀ x r, x ∈ l → f x = Ok r → Forall P r) →
  ∀ items, collect f l = Ok items → Forall P items.
Proof.
  induction l as [|y l IH]; intros Hf items H.
  - injection H as <-. constructor.
  - simpl in H. apply bind_Ok in H as (r & Hr & H).
    apply bind_Ok in H as (rs & Hrs & [= <-]).
    apply Forall_app. split.
    + apply (Hf y); [apply list_elem_of_here|done].
    + apply IH; [|done]. intros x r' Hx. apply Hf. by apply list_elem_of_further.
Qed.

Lemma visitor_spec c :
  (∀ items, visitor json_loads c = Ok items →
     from_markers items ∧ ∀ m, found c m → decoded m items)
  ∧ (∀ e, visitor json_loads c = Raise e → ∃ m, found c m ∧ raised_at m e).
Proof.
  induction c as [k sp args children IH] using BodyCursor_ind'.
  rewrite visitor_unfold. simpl b_children.
  rewrite Forall_forall in IH.
  split.
  - intros items H. split.
    + revert items H. apply collect_Forall. intros x r Hx. unfold visit_child.
      destruct (is_marker_call x) eqn:Ex.
      * intros Hr. apply bind_Ok in Hr as (a & Ha & [= <-]).
        apply decode_marker_Ok in Ha as [_ Ha]; [|done]. by constructor.
      * intros Hr. by apply (IH x Hx).
    + intros m (d & Hs & Hin & Hmk).
      inversion Hs as [|? x ? Hxin Hxk Hxd]; subst; simpl in *.
      * destruct (collect_Ok _ _ _ H m Hin) as (r & Hr & Hsub).
        unfold visit_child in Hr. rewrite Hmk in Hr.
        apply bind_Ok in Hr as (a & Ha & [= <-]).
        apply decode_marker_Ok in Ha as [Ha _]; [|done].
        exists a. split; [done|]. apply Hsub, list_elem_of_here.
      * destruct (collect_Ok _ _ _ H x Hxin) as (r & Hr & Hsub).
        unfold visit_child in Hr. rewrite Hxk in Hr.
        destruct (proj1 (IH x Hxin) r Hr) as [_ Hd].
        destruct (Hd m) as (a & Ha & Hain); [by exists d|].
        exists a. split; [done|]. by apply Hsub.
  - intros e H. apply collect_Raise in H as (x & Hx & Hfx).
    unfold visit_child in Hfx. destruct (is_marker_call x) eqn:Ex.
    + destruct (decode_marker json_loads x) as [a|e'] eqn:Ed; [done|].
      simpl in Hfx. injection Hfx as <-. exists x. split; [|by apply decode_marker_Raise].
      exists (mkBody k sp args children). split; [apply searched_self|done].
    + destruct (proj2 (IH x Hx) e Hfx) as (m & (d & Hs & Hin & Hmk) & Hr).
      exists m. split; [|done]. exists d. split; [|done].
      by apply (searched_child _ x).
Qed.

(** X8: the items [build_annotations] answers are those of the marker
    calls it finds, and of all of them: every item carries the name of one
    of the four marker functions as its action, and every marker call found
    below the function is decoded into one of the items. *)
Theorem build_annotations_items (f : BodyCursor) (items : list AnnotatedItem) :
  build_annotations json_loads f = Ok items →
  Forall (fun a => action a ∈ MARKER_FUNCTIONS) items
  ∧ ∀ top m, top ∈ b_children f → found top m →
      ∃ a, from_cursor json_loads (b_spelling m) (b_arguments m) = Ok (Some a) ∧ a ∈ items.
Proof.
  unfold build_annotations. intros H. split.
  - revert items H. apply collect_Forall. intros x r _ Hr.
    by apply (visitor_spec x).
  - intros top m Htop Hm.
    destruct (collect_Ok _ _ _ H top Htop) as (r & Hr & Hsub).
    destruct (proj2 (proj1 (visitor_spec top) r Hr) m Hm) as (a & Ha & Hin).
    exists a. split; [done|]. by apply Hsub.
Qed.


End WithJson.

(** A function whose body calls [arvida_reflect_object(C, "arvida-eop")],
    and one whose body calls it without arguments. *)
Definition marker_call (args : list ArgCursor) : BodyCursor :=
  mkBody true "arvida_reflect_object" args [].

Definition function_with (call : BodyCursor) : BodyCursor :=
  mkBody false "f" [] [mkBody false "" [] [call]].

Lemma build_annotations_items_witness :
  let items := [mkItem "arvida_reflect_object" (Some (mkParam TYPE_PARAM "" (Some "::C")))
                  [mkAnnotation None []]] in
  Forall (fun a => action a ∈ MARKER_FUNCTIONS) items
  ∧ ∀ top m,
      top ∈ b_children (function_with (marker_call [type_arg "::C"; str_arg "arvida-eop"])) →
      found top m →
      ∃ a, from_cursor loads_plain (b_spelling m) (b_arguments m) = Ok (Some a) ∧ a ∈ items.
Proof.
  apply (build_annotations_items loads_plain
           (function_with (marker_call [type_arg "::C"; str_arg "arvida-eop"]))).
  reflexivity.
Defined.


(** The other error: the literal ["\a"] holds an escape of C that JSON has
    not, and the marker call without arguments that follows is never
    looked at. *)
Example build_annotations_rejected_literal :
  let alert := String PyStr.dquote ("\a" +:+ String PyStr.dquote EmptyString) in
  build_annotations loads_plain
    (mkBody false "f" []
       [mkBody false "" [] [marker_call [type_arg "::C"; str_arg alert]; marker_call []]])
  = Raise ValueError.
Proof. vm_compute. reflexivity. Qed.

End MarkerFacts.

Module AttrFacts.
Import Py PyStr PyStrFacts Decoder DecoderFacts.

(** A flag attribute: a key, with a value or without. *)
Definition flag_child (kv : string * option string) : Child :=
  mkChild true (match kv.2 with
                | Some v => kv.1 +:+ "=" +:+ v
                | None => kv.1
                end).

Definition flag_value (v : option string) : AnnoValue :=
  match v with
  | Some s => AVStr s
  | None => AVTrue
  end.

Definition is_flag (kv : string * option string) : Prop :=
  find "=" kv.1 = None
  ∧ startswith (displayname (flag_child kv)) PARAM_BEGIN_PREFIX = false.

Lemma split1_key_value k v :
  find "=" k = None → split1 "=" (k +:+ "=" +:+ v) = [k; v].
Proof.
  intros H. unfold split1.
  change (k +:+ "=" +:+ v) with (k +:+ String "=" v).
  rewrite (find_app_fresh _ _ _ H), take_app.
  replace (S (String.length k)) with (String.length k + 1)%nat by lia.
  by rewrite drop_app_cons.
Qed.

Lemma attr_step_flag r kv :
  is_flag kv →
  attr_step (mkAS r None) (flag_child kv) = mkAS (dd_append kv.1 (flag_value kv.2) r) None.
Proof.
  intros [Hk Hp]. unfold attr_step, flag_child in *.
  destruct kv as [k [v|]]; cbn [fst snd flag_value is_annotate_attr current_param displayname] in *;
    rewrite Hp.
  - by rewrite split1_key_value.
  - unfold split1. by rewrite Hk.
Qed.

Lemma attr_fold_flags flags :
  ∀ r, Forall is_flag flags →
    fold_left attr_step (flag_child <$> flags) (mkAS r None)
    = mkAS (fold_left (fun r kv => dd_append kv.1 (flag_value kv.2) r) flags r) None.
Proof.
  induction flags as [|kv flags IH]; intros r H; [done|].
  inversion H as [|? ? Hkv Hrest]; subst.
  rewrite fmap_cons. cbn [fold_left]. rewrite attr_step_flag by done. by apply IH.
Qed.

Lemma fold_left_reverse {A B} (f : B → A → B) (l : list A) (b : B) :
  fold_left f (reverse l) b = foldr (fun x r => f r x) b l.
Proof.
  induction l as [|x l IH]; [done|].
  rewrite reverse_cons, fold_left_app. simpl. by rewrite IH.
Qed.

(** X10: a declaration annotated with flags only.  Each attribute
    [key=value] adds the string [value] under [key] (the key ends at the
    first [=]), each attribute [key] adds [True]; the attributes are taken
    from the last to the first, so the values of a key are listed in the
    reverse of their order on the declaration. *)
Theorem flags_are_collected_in_reverse (flags : list (string * option string)) :
  Forall is_flag flags →
  get_annotations_from_cursor (flag_child <$> flags)
  = foldr (fun kv r => dd_append kv.1 (flag_value kv.2) r) ∅ flags.
Proof.
  intros H. unfold get_annotations_from_cursor.
  rewrite <- fmap_reverse, attr_fold_flags by by apply Forall_reverse.
  unfold attr_finish. cbn [current_param result].
  apply fold_left_reverse.
Qed.

Lemma flags_are_collected_witness :
  get_annotations_from_cursor
    [mkChild true "unit=m"; mkChild true "hidden"; mkChild true "unit=a=b"]
  = {[ "unit" := [AVStr "a=b"; AVStr "m"]; "hidden" := [AVTrue] ]}.
Proof.
  refine (eq_trans (flags_are_collected_in_reverse
                      [("unit", Some "m"); ("hidden", None); ("unit", Some "a=b")] _) _).
  - repeat constructor.
  - vm_compute. reflexivity.
Defined.

(** X11: an end or value marker met while no parameter is open is taken
    for a begin marker: a lone end marker yields a parameter named [eop], a
    lone value marker one named [param], each with the empty tuple. *)
Theorem stray_marker_opens_a_parameter (sfx : string) (tv : string * string) :
  rfind "-" sfx = None →
  rfind "-" (tv.1 +:+ ":" +:+ tv.2) = None →
  get_annotations_from_cursor [end_marker sfx] = {[ "eop" := [AVTuple []] ]}
  ∧ get_annotations_from_cursor [value_marker tv] = {[ "param" := [AVTuple []] ]}.
Proof.
  intros Hs Ht. unfold get_annotations_from_cursor.
  change (reverse [end_marker sfx]) with [begin_marker "eop" sfx].
  change (reverse [value_marker tv]) with [begin_marker "param" (tv.1 +:+ ":" +:+ tv.2)].
  cbn [fold_left]. rewrite !attr_step_begin by done.
  unfold attr_finish. cbn [current_param result]. by rewrite dd_append_empty.
Qed.

Lemma stray_marker_witness :
  get_annotations_from_cursor [mkChild true "arvida-eop-7"] = {[ "eop" := [AVTuple []] ]}
  ∧ get_annotations_from_cursor [mkChild true "arvida-param-7:v"]
    = {[ "param" := [AVTuple []] ]}.
Proof.
  apply (stray_marker_opens_a_parameter "7" ("7", "v")); reflexivity.
Defined.

End AttrFacts.

Module MemberFacts.
Import Py PyStr Decoder Model DecoderFacts ModelFacts.

Local Open Scope nat_scope.

(** Induction on a class, with the property for its anonymous records. *)
Fixpoint Class_ind' (P : Class → Prop)
    (H : ∀ fn an fns flds bs anon ab asub,
           Forall P anon → P (mkClass fn an fns flds bs anon ab asub))
    (c : Class) : P c :=
  match c with
  | mkClass fn an fns flds bs anon ab asub =>
      H fn an fns flds bs anon ab asub
        ((fix go (l : list Class) : Forall P l :=
            match l with
            | [] => @List.Forall_nil _ P
            | x :: l0 => @List.Forall_cons _ P x l0 (Class_ind' P H x) (go l0)
            end) anon)
  end.

Definition member_name (m : Member) : string :=
  match m with
  | MField f => f_name f
  | MFunction f => fn_name f
  end.

(** [member.add_annotation(key, v)] *)
Definition member_add (key : string) (v : AnnoValue) (m : Member) : Member :=
  match m with
  | MField f => MField (field_add key v f)
  | MFunction f => MFunction (function_add key v f)
  end.

Definition add_if_named (nm key : string) (v : AnnoValue) (m : Member) : Member :=
  if String.eqb (member_name m) nm then member_add key v m else m.

Definition is_field_named (nm : string) (m : Member) : bool :=
  match m with
  | MField f => String.eqb (f_name f) nm
  | MFunction _ => false
  end.

Lemma flat_map_fmap {A B C} (f : A → B) (g : B → list C) (l : list A) :
  flat_map g (f <$> l) = flat_map (g ∘ f) l.
Proof. induction l as [|x l IH]; [done|]. rewrite fmap_cons. cbn [flat_map]. by rewrite IH. Qed.

Lemma fmap_flat_map {A B C} (f : B → C) (g : A → list B) (l : list A) :
  f <$> flat_map g l = flat_map (fun x => f <$> g x) l.
Proof. induction l as [|x l IH]; [done|]. cbn [flat_map]. by rewrite fmap_app, IH. Qed.

Lemma flat_map_ext_Forall {A B} (f g : A → list B) (l : list A) :
  Forall (fun x => f x = g x) l → flat_map f l = flat_map g l.
Proof. induction 1 as [|x l Hx _ IH]; [done|]. cbn [flat_map]. by rewrite Hx, IH. Qed.

Lemma members_annotate_members_aux (nm key : string) (v : AnnoValue) (c : Class) :
  members (annotate_members nm key v c) = add_if_named nm key v <$> members c.
Proof.
  induction c as [fn an fns flds bs anon ab asub IH] using Class_ind'.
  cbn [annotate_members members].
  rewrite !fmap_app, <- !list_fmap_compose.
  f_equal; [|f_equal].
  - apply list_fmap_ext. intros _ f _. unfold add_if_named. simpl.
    by destruct (String.eqb (f_name f) nm).
  - apply list_fmap_ext. intros _ f _. unfold add_if_named. simpl.
    by destruct (String.eqb (fn_name f) nm).
  - change (map (annotate_members nm key v) anon) with (annotate_members nm key v <$> anon).
    rewrite flat_map_fmap, fmap_flat_map. by apply flat_map_ext_Forall.
Qed.

(** X12: a member directive reaches every member of the given name:
    [annotate_members] adds the annotation to each field and each function
    of that name, those of anonymous records too, and leaves every other
    member, and their order, as they are. *)
Theorem members_annotate_members (nm key : string) (v : AnnoValue) (c : Class) :
  members (annotate_members nm key v c) = add_if_named nm key v <$> members c.
Proof. apply members_annotate_members_aux. Qed.

(** The search of [find_field] through the anonymous records. *)
Definition annotate_field_in (nm key : string) (v : AnnoValue)
    : list Class → option (list Class) :=
  fix go (l : list Class) : option (list Class) :=
    match l with
    | [] => None
    | a :: l' =>
        match annotate_field nm key v a with
        | Some a' => Some (a' :: l')
        | None => (a ::.) <$> go l'
        end
    end.

Lemma annotate_field_unfold nm key v fn an fns flds bs anon ab asub :
  annotate_field nm key v (mkClass fn an fns flds bs anon ab asub)
  = match update_first (fun f => String.eqb (f_name f) nm) (field_add key v) flds with
    | Some flds' => Some (mkClass fn an fns flds' bs anon ab asub)
    | None =>
        match annotate_field_in nm key v anon with
        | Some anon' => Some (mkClass fn an fns flds bs anon' ab asub)
        | None => None
        end
    end.
Proof. reflexivity. Qed.

Lemma update_first_app {A} (p : A → bool) (f : A → A) (l1 l2 : list A) :
  update_first p f (l1 ++ l2)
  = match update_first p f l1 with
    | Some l1' => Some (l1' ++ l2)
    | None => (l1 ++.) <$> update_first p f l2
    end.
Proof.
  induction l1 as [|x l1 IH]; simpl.
  - by destruct (update_first p f l2).
  - destruct (p x); [done|]. rewrite IH.
    destruct (update_first p f l1); [done|]. by destruct (update_first p f l2).
Qed.

Lemma update_first_fmap {A B} (g : A → B) (p : A → bool) (q : B → bool)
    (f : A → A) (h : B → B) (l : list A) :
  (∀ x, q (g x) = p x) → (∀ x, g (f x) = h (g x)) →
  update_first q h (g <$> l) = (fun l' : list A => g <$> l') <$> update_first p f l.
Proof.
  intros Hq Hh. induction l as [|x l IH]; [done|].
  rewrite fmap_cons. simpl. rewrite Hq. destruct (p x).
  - simpl. by rewrite Hh.
  - rewrite IH. by destruct (update_first p f l).
Qed.

Lemma update_first_none {A} (p : A → bool) (f : A → A) (l : list A) :
  Forall (fun x => p x = false) l → update_first p f l = None.
Proof. induction 1 as [|x l Hx _ IH]; [done|]. simpl. by rewrite Hx, IH. Qed.

Lemma annotate_field_first_field_aux (nm key : string) (v : AnnoValue) (c : Class) :
  members <$> annotate_field nm key v c
  = update_first (is_field_named nm) (member_add key v) (members c).
Proof.
  induction c as [fn an fns flds bs anon ab asub IH] using Class_ind'.
  rewrite annotate_field_unfold. cbn [members].
  rewrite update_first_app.
  rewrite (update_first_fmap MField (fun f => String.eqb (f_name f) nm) _ (field_add key v))
    by done.
  destruct (update_first _ _ flds) as [flds'|]; [done|]. simpl.
  rewrite update_first_app.
  rewrite (update_first_none _ _ (MFunction <$> fns)) by by apply Forall_fmap, Forall_true.
  assert (G : flat_map members <$> annotate_field_in nm key v anon
              = update_first (is_field_named nm) (member_add key v) (flat_map members anon)).
  { clear -IH. induction IH as [|a l Ha _ IHl]; [done|].
    cbn [flat_map annotate_field_in]. rewrite update_first_app, <- Ha.
    destruct (annotate_field nm key v a) as [a'|]; [done|].
    simpl. rewrite <- IHl. by destruct (annotate_field_in nm key v l). }
  rewrite <- G. by destruct (annotate_field_in nm key v anon).
Qed.

(** X13: [arvida-field-semantic] reaches one field: the first field of the
    given name in the order of [Class.members], the class's own fields
    before those of its anonymous records; functions of that name are passed
    over.  Without such a field nothing is annotated. *)
Theorem annotate_field_first_field (nm key : string) (v : AnnoValue) (c : Class) :
  members <$> annotate_field nm key v c
  = update_first (is_field_named nm) (member_add key v) (members c).
Proof. apply annotate_field_first_field_aux. Qed.

(** X14: a directive that names a member the class does not have changes
    nothing: [annotate_members] answers the class as it was, and
    [find_field] finds nothing. *)
Theorem annotating_a_missing_member (nm key : string) (v : AnnoValue) (c : Class) :
  Forall (fun m => member_name m ≠ nm) (members c) →
  annotate_members nm key v c = c ∧ annotate_field nm key v c = None.
Proof.
  intros H. split.
  - induction c as [fn an fns flds bs anon ab asub IH] using Class_ind'.
    cbn [members] in H. apply Forall_app in H as [Hf H]. apply Forall_app in H as [Hfn Ha].
    cbn [annotate_members]. f_equal.
    + rewrite <- (map_id fns) at 2. apply map_ext_Forall.
      rewrite Forall_fmap in Hfn. eapply Forall_impl; [exact Hfn|].
      intros f Hne. simpl in Hne. by rewrite (proj2 (String.eqb_neq _ _) Hne).
    + rewrite <- (map_id flds) at 2. apply map_ext_Forall.
      rewrite Forall_fmap in Hf. eapply Forall_impl; [exact Hf|].
      intros f Hne. simpl in Hne. by rewrite (proj2 (String.eqb_neq _ _) Hne).
    + rewrite <- (map_id anon) at 2. apply map_ext_Forall.
      clear -IH Ha. induction IH as [|a l Hx _ IHl]; [constructor|].
      cbn [flat_map] in Ha. apply Forall_app in Ha as [Ha1 Ha2].
      constructor; [by apply Hx|by apply IHl].
  - pose proof (annotate_field_first_field_aux nm key v c) as E.
    rewrite update_first_none in E.
    + by destruct (annotate_field nm key v c).
    + eapply Forall_impl; [exact H|]. intros [f|f] Hne; [|done].
      simpl in *. by apply String.eqb_neq.
Qed.

Lemma annotating_a_missing_member_witness :
  let c := mkClass "::C" ∅ [] [mkField "a" ∅] [] [] [] [] in
  annotate_members "b" "path" (AVStr "/b") c = c
  ∧ annotate_field "b" "path" (AVStr "/b") c = None.
Proof.
  apply (annotating_a_missing_member "b" "path" (AVStr "/b")
           (mkClass "::C" ∅ [] [mkField "a" ∅] [] [] [] [])).
  repeat constructor. done.
Defined.

End MemberFacts.

Module IndexFacts.
Import Py PyStr Decoder Model DecoderFacts ModelFacts MemberFacts.

Local Open Scope nat_scope.

(** ** The name index *)

(** [i] is the last position of a class named [nm]. *)
Definition last_named (cls : list Class) (nm : string) (i : nat) : Prop :=
  (∃ c, cls !! i = Some c ∧ full_name c = nm)
  ∧ ∀ j c, i < j → cls !! j = Some c → full_name c ≠ nm.

Lemma index_names_go (l : list Class) :
  ∀ (k : nat) (m : gmap string nat) (ann : list nat) (nm : string) (i : nat),
    (fold_left index_class (imap (fun j c => (k + j, c)) l) (m, ann)).1 !! nm = Some i ↔
    (∃ j, i = k + j ∧ last_named l nm j)
    ∨ (m !! nm = Some i ∧ ∀ j c, l !! j = Some c → full_name c ≠ nm).
Proof.
  induction l as [|c l IH]; intros k m ann nm i; simpl.
  - split.
    + intros H. right. split; [done|]. intros j c Hj. by rewrite lookup_nil in Hj.
    + intros [(j & _ & (c & Hj & _) & _)|[H _]]; [by rewrite lookup_nil in Hj|done].
  - rewrite (imap_ext _ (fun j c => (S k + j, c))) by (intros; simpl; f_equal; lia).
    pose proof (IH (S k) (<[full_name c := k + 0]> m)
                  (if has_annotations c then set_add (k + 0) ann else ann) nm i) as IH'.
    clear IH. split.
    + intros H. apply IH' in H. clear IH'.
      destruct H as [(j & -> & (c' & Hj & Hn) & Hlast)|[Hm Hnone]].
      * left. exists (S j). split; [lia|]. split; [by exists c'|].
        intros [|j'] c'' Hlt Hj'; [lia|]. simpl in Hj'. apply (Hlast j'); [lia|done].
      * apply lookup_insert_Some in Hm as [[<- <-]|[Hne Hm]].
        -- left. exists 0. split; [lia|]. split; [by exists c|].
           intros [|j'] c'' Hlt Hj'; [lia|]. simpl in Hj'. by eapply Hnone.
        -- right. split; [done|]. intros [|j] c' Hj; simpl in Hj.
           ++ by injection Hj as <-.
           ++ by eapply Hnone.
    + intros H. apply IH'. clear IH'.
      destruct H as [([|j] & -> & (c' & Hj & Hn) & Hlast)|[Hm Hnone]].
      * simpl in Hj. injection Hj as <-. right. split.
        -- rewrite Hn, lookup_insert_eq. f_equal.
        -- intros j c' Hj. apply (Hlast (S j)); [lia|done].
      * left. exists j. split; [lia|]. split; [by exists c'|].
        intros j' c'' Hlt Hj'. apply (Hlast (S j')); [lia|done].
      * right. split.
        -- rewrite lookup_insert_ne; [done|]. by apply (Hnone 0).
        -- intros j c' Hj. by apply (Hnone (S j)).
Qed.

Lemma index_names_spec (cls : list Class) (nm : string) (i : nat) :
  (index_classes cls).1 !! nm = Some i ↔ last_named cls nm i.
Proof.
  unfold index_classes.
  rewrite (imap_ext pair (fun j c => (0 + j, c))) by done.
  rewrite index_names_go. split.
  - intros [(j & -> & H)|[H _]]; [done|by rewrite lookup_empty in H].
  - intros H. left. by exists i.
Qed.

Lemma build_index_names json_loads env env' :
  build_index json_loads env = Ok env' →
  name_to_class_map env' = (index_classes (classes env)).1.
Proof.
  unfold build_index. intros H.
  destruct (index_classes (classes env)) as [names annotated].
  apply bind_Ok in H as (amap & _ & H). apply bind_Ok in H as (st & _ & H).
  destruct (fold_left uid_step _ _) as [cls annotated'].
  apply bind_Ok in H as (prolog & _ & H). apply bind_Ok in H as (epilog & _ & H).
  apply bind_Ok in H as (incs & _ & [= <-]). done.
Qed.

(** X15: the name index holds, for every full name, the last class of that
    name: when several classes share a full name, the directives that name
    it reach the last one only. *)
Theorem name_to_class_map_last_wins (json_loads : string → option string)
    (env env' : Environment) (nm : string) (i : nat) :
  build_index json_loads env = Ok env' →
  (name_to_class_map env' !! nm = Some i ↔ last_named (classes env) nm i).
Proof.
  intros H. rewrite (build_index_names _ _ _ H). apply index_names_spec.
Qed.

Definition twins_env : Environment :=
  empty_env [empty_class "::C"; empty_class "::D"; empty_class "::C"] [].

Definition twins_indexed : Environment :=
  Eval vm_compute in
    match build_index loads_plain twins_env with
    | Ok env => env
    | Raise _ => twins_env
    end.

Lemma name_to_class_map_last_wins_witness :
  name_to_class_map twins_indexed !! "::C" = Some 2
  ↔ last_named (classes twins_env) "::C" 2.
Proof.
  apply (name_to_class_map_last_wins loads_plain twins_env twins_indexed).
  vm_compute. reflexivity.
Defined.

(** ** What indexing keeps of a class *)

(** The outline of a class: its name, its bases, and the names of its
    members in the order of [Class.members]. *)
Definition outline (c : Class) : string * list string * list string :=
  (full_name c, _bases c, member_name <$> members c).

(** The outline together with the two relation sets. *)
Definition frame (c : Class) : string * list string * list string * list nat * list nat :=
  (outline c, _annotated_base_classes c, _annotated_sub_classes c).

Lemma frame_class_add k v c : frame (class_add k v c) = frame c.
Proof. by destruct c. Qed.

Lemma member_name_add_if_named nm k v m : member_name (add_if_named nm k v m) = member_name m.
Proof. unfold add_if_named. destruct (String.eqb _ _); [|done]. by destruct m. Qed.

Lemma frame_annotate_members nm k v c : frame (annotate_members nm k v c) = frame c.
Proof.
  unfold frame, outline. rewrite members_annotate_members_aux, <- list_fmap_compose.
  rewrite (list_fmap_ext (member_name ∘ add_if_named nm k v) member_name (members c))
    by (intros; apply member_name_add_if_named).
  by destruct c.
Qed.

Lemma update_first_fmap_id {A B} (g : A → B) (p : A → bool) (f : A → A) (l l' : list A) :
  (∀ x, g (f x) = g x) → update_first p f l = Some l' → g <$> l' = g <$> l.
Proof.
  intros Hg. revert l'. induction l as [|x l IH]; intros l'; [done|]. simpl.
  destruct (p x).
  - intros [= <-]. by rewrite !fmap_cons, Hg.
  - destruct (update_first p f l) as [l0|]; [|done]. intros [= <-].
    rewrite !fmap_cons. f_equal. by apply IH.
Qed.

Lemma frame_annotate_field nm k v c c' :
  annotate_field nm k v c = Some c' → frame c' = frame c.
Proof.
  intros H. pose proof (annotate_field_first_field_aux nm k v c) as E.
  rewrite H in E. simpl in E. symmetry in E.
  apply (update_first_fmap_id member_name) in E; [|by intros []].
  unfold frame, outline. rewrite E.
  destruct c as [fn an fns flds bs anon ab asub]. rewrite annotate_field_unfold in H.
  repeat case_match; by simplify_eq.
Qed.

Lemma frame_class_step cls ca cls' :
  class_step cls ca = Ok cls' → frame cls' = frame cls.
Proof.
  unfold class_step. intros H.
  repeat match type of H with
         | (if ?b then _ else _) = _ => destruct b
         | (_ ← _; _) = Ok _ => apply bind_Ok in H as (? & _ & H)
         | Ok _ = Ok _ => injection H as <-
         end;
    rewrite ?frame_annotate_members, ?frame_class_add; try done.
  - revert H. apply (foldM_inv (fun a b => frame b = frame a)); [done|congruence|].
    intros s x s' (v & _ & [= <-])%bind_Ok. apply frame_class_add.
  - destruct (annotate_field _ _ _ cls) eqn:E; simpl; [|done].
    by apply frame_annotate_field in E.
Qed.

Lemma fmap_insert_same {B} (g : Class → B) (cls : list Class) i c c' :
  cls !! i = Some c → g c' = g c → g <$> <[i := c']> cls = g <$> cls.
Proof.
  intros Hi E. rewrite list_fmap_insert, E.
  apply list_insert_id. by rewrite list_lookup_fmap, Hi.
Qed.

Lemma frame_annotation_step names st a st' :
  annotation_step names st a = Ok st' →
  frame <$> is_classes st' = frame <$> is_classes st.
Proof.
  unfold annotation_step. intros H.
  apply bind_Ok in H as (g & _ & H). apply bind_Ok in H as (fn & Hfn & H).
  destruct (get_class names (is_classes st) fn) as [[i cls]|] eqn:Hg.
  - apply bind_Ok in H as (cls' & Hcls & [= <-]). simpl.
    apply get_class_Some in Hg as [Hn Hi].
    eapply fmap_insert_same; [done|].
    revert Hcls. apply (foldM_inv (fun a b => frame b = frame a)); [done|congruence|].
    intros ???. apply frame_class_step.
  - by injection H as <-.
Qed.

Lemma frame_annotation_fold names items st st' :
  foldM (annotation_step names) items st = Ok st' →
  frame <$> is_classes st' = frame <$> is_classes st.
Proof.
  apply (foldM_inv (fun a b => frame <$> is_classes b = frame <$> is_classes a));
    [done|congruence|].
  intros ???. apply frame_annotation_step.
Qed.

Lemma frame_uid_fold (ms : list string) :
  ∀ cls ann, frame <$> (fold_left uid_step ms (cls, ann)).1 = frame <$> cls.
Proof.
  induction ms as [|m ms IH]; intros cls ann; [done|]. simpl.
  unfold uid_step at 2. simpl. rewrite IH, <- list_fmap_compose.
  apply list_fmap_ext. intros _ c _. simpl. unfold uid_mark.
  destruct (has_method m c); [apply frame_class_add|done].
Qed.

(** ** Base- and sub-class relations *)

Definition subs_of (cls : list Class) (i : nat) : list nat :=
  from_option _annotated_sub_classes [] (cls !! i).

Definition bases_of (cls : list Class) (i : nat) : list nat :=
  from_option _annotated_base_classes [] (cls !! i).

Lemma fmap_alter_same {B} (g : Class → B) (f : Class → Class) (cls : list Class) i :
  (∀ c, g (f c) = g c) → g <$> alter f i cls = g <$> cls.
Proof.
  intros Hg. rewrite (list_fmap_alter g f id); [|by apply Forall_true].
  apply list_eq. intros j. rewrite list_lookup_alter. case_decide; [subst|done].
  by destruct (_ !! _).
Qed.

Lemma subs_alter_add_base cls b d x : subs_of (alter (add_base b) d cls) x = subs_of cls x.
Proof.
  unfold subs_of. rewrite list_lookup_alter. case_decide; [subst|done].
  by destruct (cls !! x).
Qed.

Lemma bases_alter_add_sub cls s b x : bases_of (alter (add_sub s) b cls) x = bases_of cls x.
Proof.
  unfold bases_of. rewrite list_lookup_alter. case_decide; [subst|done].
  by destruct (cls !! x).
Qed.

Lemma subs_alter_add_sub cls s b x y :
  y ∈ subs_of (alter (add_sub s) b cls) x ↔
  y ∈ subs_of cls x ∨ (x = b ∧ y = s ∧ b < length cls).
Proof.
  unfold subs_of. rewrite list_lookup_alter. case_decide as E.
  - subst x. destruct (cls !! b) as [c|] eqn:Hb; simpl.
    + rewrite set_add_elem. apply lookup_lt_Some in Hb.
      split; [intros [->|?]; [by right|by left]|intros [?|(_ & -> & _)]; [by right|by left]].
    + apply lookup_ge_None in Hb. split; [by left|]. intros [?|(_ & _ & ?)]; [done|lia].
  - split; [by left|]. intros [?|(? & _)]; [done|]. by subst.
Qed.

Lemma bases_alter_add_base cls b d x y :
  y ∈ bases_of (alter (add_base b) d cls) x ↔
  y ∈ bases_of cls x ∨ (x = d ∧ y = b ∧ d < length cls).
Proof.
  unfold bases_of. rewrite list_lookup_alter. case_decide as E.
  - subst x. destruct (cls !! d) as [c|] eqn:Hd; simpl.
    + rewrite set_add_elem. apply lookup_lt_Some in Hd.
      split; [intros [->|?]; [by right|by left]|intros [?|(_ & -> & _)]; [by right|by left]].
    + apply lookup_ge_None in Hd. split; [by left|]. intros [?|(_ & _ & ?)]; [done|lia].
  - split; [by left|]. intros [?|(? & _)]; [done|]. by subst.
Qed.

(** What one pair (class, name of a base) adds to the relations. *)
Definition adds_sub (names : gmap string nat) (ann : list nat) (n : nat)
    (ib : nat * string) (x y : nat) : Prop :=
  y = ib.1 ∧ y ∈ ann ∧ names !! ib.2 = Some x ∧ x < n.

Definition adds_base (names : gmap string nat) (ann : list nat) (n : nat)
    (ib : nat * string) (x y : nat) : Prop :=
  x = ib.1 ∧ x < n ∧ y ∈ ann ∧ names !! ib.2 = Some y ∧ y < n.

Lemma relate_spec names ann cur ib :
  let cur' := relate names ann cur ib in
  outline <$> cur' = outline <$> cur
  ∧ (∀ x y, y ∈ subs_of cur' x ↔ y ∈ subs_of cur x ∨ adds_sub names ann (length cur) ib x y)
  ∧ (∀ x y, y ∈ bases_of cur' x ↔
            y ∈ bases_of cur x ∨ adds_base names ann (length cur) ib x y).
Proof.
  destruct ib as [d base]. unfold relate, adds_sub, adds_base. simpl.
  destruct (get_class names cur base) as [[b cb]|] eqn:Hg.
  - apply get_class_Some in Hg as [Hn Hb]. pose proof (lookup_lt_Some _ _ _ Hb) as Hlt.
    split; [|split].
    + repeat case_bool_decide; rewrite ?fmap_alter_same; by try intros [].
    + intros x y. destruct (bool_decide (d ∈ ann)) eqn:Ed.
      * apply bool_decide_eq_true in Ed. rewrite subs_alter_add_sub.
        assert (subs_of (if bool_decide (b ∈ ann) then alter (add_base b) d cur else cur) x
                = subs_of cur x) as ->.
        { case_bool_decide; [apply subs_alter_add_base|done]. }
        assert (length (if bool_decide (b ∈ ann) then alter (add_base b) d cur else cur)
                = length cur) as ->.
        { case_bool_decide; [apply length_alter|done]. }
        split; intros [?|H]; [by left| |by left|].
        -- right. destruct H as (-> & -> & _). done.
        -- right. destruct H as (-> & _ & Hx & _). split; [congruence|done].
      * apply bool_decide_eq_false in Ed.
        assert (subs_of (if bool_decide (b ∈ ann) then alter (add_base b) d cur else cur) x
                = subs_of cur x) as ->.
        { case_bool_decide; [apply subs_alter_add_base|done]. }
        split; [by left|]. intros [?|(-> & ? & _)]; done.
    + intros x y.
      assert (bases_of (if bool_decide (d ∈ ann)
                        then alter (add_sub d) b
                               (if bool_decide (b ∈ ann) then alter (add_base b) d cur else cur)
                        else if bool_decide (b ∈ ann) then alter (add_base b) d cur else cur) x
              = bases_of (if bool_decide (b ∈ ann) then alter (add_base b) d cur else cur) x)
        as ->.
      { case_bool_decide; [apply bases_alter_add_sub|done]. }
      destruct (bool_decide (b ∈ ann)) eqn:Eb.
      * apply bool_decide_eq_true in Eb. rewrite bases_alter_add_base.
        split; intros [?|H]; [by left| |by left|].
        -- right. destruct H as (-> & -> & ?). done.
        -- right. destruct H as (-> & ? & _ & Hy & _). split; [done|]. split; [congruence|done].
      * apply bool_decide_eq_false in Eb. split; [by left|].
        intros [?|(_ & _ & ? & Hy & _)]; [done|]. congruence.
  - rewrite get_class_None in Hg. split; [done|]. split; intros x y.
    + split; [by left|]. intros [?|(_ & _ & Hx & Hlt)]; [done|].
      apply Hg in Hx. apply lookup_ge_None in Hx. lia.
    + split; [by left|]. intros [?|(_ & _ & _ & Hy & Hlt)]; [done|].
      apply Hg in Hy. apply lookup_ge_None in Hy. lia.
Qed.

Lemma relate_fold names ann pairs :
  ∀ cur,
    let r := fold_left (relate names ann) pairs cur in
    outline <$> r = outline <$> cur
    ∧ (∀ x y, y ∈ subs_of r x ↔
              y ∈ subs_of cur x ∨ ∃ ib, ib ∈ pairs ∧ adds_sub names ann (length cur) ib x y)
    ∧ (∀ x y, y ∈ bases_of r x ↔
              y ∈ bases_of cur x ∨ ∃ ib, ib ∈ pairs ∧ adds_base names ann (length cur) ib x y).
Proof.
  induction pairs as [|ib pairs IH]; intros cur; simpl.
  - split; [done|]. split; intros x y; (split; [by left|]);
      intros [?|(ib & ?%elem_of_nil & _)]; done.
  - destruct (relate_spec names ann cur ib) as (O1 & S1 & B1).
    destruct (IH (relate names ann cur ib)) as (O2 & S2 & B2).
    assert (L : length (relate names ann cur ib) = length cur).
    { by rewrite <- (length_fmap outline), O1, length_fmap. }
    rewrite L in S2, B2.
    split; [congruence|]. split; intros x y.
    + rewrite S2, S1. split.
      * intros [[?|?]|(ib' & ? & ?)]; [by left| |].
        -- right. exists ib. split; [apply list_elem_of_here|done].
        -- right. exists ib'. split; [by apply list_elem_of_further|done].
      * intros [?|(ib' & [->|?]%elem_of_cons & ?)]; [by left; left|by left; right|].
        right. by exists ib'.
    + rewrite B2, B1. split.
      * intros [[?|?]|(ib' & ? & ?)]; [by left| |].
        -- right. exists ib. split; [apply list_elem_of_here|done].
        -- right. exists ib'. split; [by apply list_elem_of_further|done].
      * intros [?|(ib' & [->|?]%elem_of_cons & ?)]; [by left; left|by left; right|].
        right. by exists ib'.
Qed.

Lemma elem_of_base_pairs cls d base :
  (d, base) ∈ base_pairs cls ↔ ∃ c, cls !! d = Some c ∧ base ∈ _bases c.
Proof.
  unfold base_pairs. rewrite list_elem_of_join. split.
  - intros (l & Hin & (i & c & -> & Hi)%elem_of_lookup_imap).
    apply list_elem_of_fmap in Hin as (b & [= -> ->] & Hb). by exists c.
  - intros (c & Hd & Hb). exists (pair d <$> _bases c). split.
    + apply list_elem_of_fmap. by exists base.
    + apply elem_of_lookup_imap. by exists d, c.
Qed.

Lemma frame_lookup (a b : list Class) (i : nat) :
  frame <$> a = frame <$> b →
  match a !! i, b !! i with
  | Some c, Some c' => frame c = frame c'
  | None, None => True
  | _, _ => False
  end.
Proof.
  intros E. apply (f_equal (.!! i)) in E. rewrite !list_lookup_fmap in E.
  destruct (a !! i) as [c|], (b !! i) as [c'|]; try done.
  exact (f_equal (from_option id (frame c)) E).
Qed.

Lemma frame_relations (a b : list Class) (i : nat) :
  frame <$> a = frame <$> b →
  subs_of a i = subs_of b i ∧ bases_of a i = bases_of b i
  ∧ ∀ base, (∃ c, a !! i = Some c ∧ base ∈ _bases c) ↔ (∃ c, b !! i = Some c ∧ base ∈ _bases c).
Proof.
  intros E. pose proof (frame_lookup a b i E) as H. unfold subs_of, bases_of.
  destruct (a !! i) as [c|], (b !! i) as [c'|]; try done; simpl.
  - unfold frame, outline in H. injection H as H1 H2 H3 H4 H5.
    repeat split; try done.
    + intros (? & [= <-] & ?). exists c'. split; [done|]. by rewrite <- H2.
    + intros (? & [= <-] & ?). exists c. split; [done|]. by rewrite H2.
Qed.

Lemma frame_outline (a b : list Class) : frame <$> a = frame <$> b → outline <$> a = outline <$> b.
Proof.
  intros E. apply (f_equal (fmap (fun f : _ * list nat * list nat => f.1.1))) in E.
  by rewrite <- !list_fmap_compose in E.
Qed.

(** The parts of [build_index] that shape the classes, taken apart. *)
Lemma build_index_classes json_loads env env' :
  build_index json_loads env = Ok env' →
  ∃ cls1,
    frame <$> cls1 = frame <$> classes env
    ∧ classes env'
      = fold_left (relate (name_to_class_map env') (annotated_classes env'))
                  (base_pairs cls1) cls1.
Proof.
  unfold build_index. intros H.
  destruct (index_classes (classes env)) as [names annotated] eqn:Hidx.
  apply bind_Ok in H as (amap & _ & H). apply bind_Ok in H as (st & Hst & H).
  apply frame_annotation_fold in Hst. simpl in Hst.
  pose proof (frame_uid_fold (default [] (is_global_annotations st !! "uid-method"))
                (is_classes st) (is_annotated st)) as Hu.
  destruct (fold_left uid_step _ _) as [cls annotated'].
  apply bind_Ok in H as (prolog & _ & H). apply bind_Ok in H as (epilog & _ & H).
  apply bind_Ok in H as (incs & _ & [= <-]). simpl in *.
  exists cls. split; [congruence|done].
Qed.

(** X16: indexing never adds, removes, renames or reorders classes or
    members: after [build_index] every class has the full name, the bases and
    the member names, in their order, that it had before. *)
Theorem build_index_keeps_outline (json_loads : string → option string) (env env' : Environment) :
  build_index json_loads env = Ok env' →
  outline <$> classes env' = outline <$> classes env.
Proof.
  intros H. destruct (build_index_classes _ _ _ H) as (cls1 & F & ->).
  destruct (relate_fold (name_to_class_map env') (annotated_classes env')
              (base_pairs cls1) cls1) as (O & _ & _).
  rewrite O. by apply frame_outline.
Qed.

(** X17: the relation sets after [build_index].  Class [y] is added to the
    annotated sub-classes of [x] exactly when [y] is annotated and one of the
    bases of [y] is the name of [x] in the name index; class [y] is added to
    the annotated base classes of [x] exactly when [y] is annotated and one of
    the bases of [x] is the name of [y].  Whether the other end is annotated
    is not asked. *)
Theorem build_index_relations (json_loads : string → option string) (env env' : Environment) :
  build_index json_loads env = Ok env' →
  ∀ x y,
    (y ∈ subs_of (classes env') x ↔
       y ∈ subs_of (classes env) x
       ∨ (y ∈ annotated_classes env'
          ∧ ∃ c base, classes env !! y = Some c ∧ base ∈ _bases c
                      ∧ name_to_class_map env' !! base = Some x))
    ∧ (y ∈ bases_of (classes env') x ↔
         y ∈ bases_of (classes env) x
         ∨ (y ∈ annotated_classes env'
            ∧ ∃ c base, classes env !! x = Some c ∧ base ∈ _bases c
                        ∧ name_to_class_map env' !! base = Some y)).
Proof.
  intros H x y. destruct (build_index_classes _ _ _ H) as (cls1 & F & ->).
  pose proof (build_index_names _ _ _ H) as Hn.
  assert (V : ∀ nm i, name_to_class_map env' !! nm = Some i → i < length cls1).
  { intros nm i Hi. rewrite Hn in Hi. apply index_classes_spec in Hi.
    by rewrite <- (length_fmap frame), F, length_fmap. }
  destruct (relate_fold (name_to_class_map env') (annotated_classes env')
              (base_pairs cls1) cls1) as (_ & S & B).
  rewrite S, B. clear S B.
  destruct (frame_relations cls1 (classes env) x F) as (Sx & Bx & Px).
  destruct (frame_relations cls1 (classes env) y F) as (Sy & By & Py).
  rewrite Sx, Bx. unfold adds_sub, adds_base. split.
  - split; (intros [?|Hadd]; [by left|right]).
    + destruct Hadd as ([d base] & Hin & -> & Hy & Hb & _). simpl in *.
      split; [done|]. apply elem_of_base_pairs, Py in Hin as (c & Hc & Hbase).
      by exists c, base.
    + destruct Hadd as (Hy & c & base & Hc & Hbase & Hb).
      exists (y, base). simpl. split; [|by eauto].
      apply elem_of_base_pairs, Py. by exists c.
  - split; (intros [?|Hadd]; [by left|right]).
    + destruct Hadd as ([d base] & Hin & -> & _ & Hy & Hb & _). simpl in *.
      split; [done|]. apply elem_of_base_pairs, Px in Hin as (c & Hc & Hbase).
      by exists c, base.
    + destruct Hadd as (Hy & c & base & Hc & Hbase & Hb).
      exists (x, base). simpl.
      assert (Hin : (x, base) ∈ base_pairs cls1).
      { apply elem_of_base_pairs, Px. by exists c. }
      split; [done|]. repeat split; try done; [|by eauto].
      apply elem_of_base_pairs in Hin as (c1 & Hc1 & _). by eapply lookup_lt_Some.
Qed.

(** Class [::D] derives from [::B]; only [::D] carries an annotation. *)
Definition derived_only_env : Environment :=
  empty_env
    [empty_class "::B";
     mkClass "::D" {[ "semantic" := [AVStr "ex:D"] ]} [] [] ["::B"] [] [] []]
    [].

Definition derived_only_indexed : Environment :=
  Eval vm_compute in
    match build_index loads_plain derived_only_env with
    | Ok env => env
    | Raise _ => derived_only_env
    end.

Lemma build_index_keeps_outline_witness :
  outline <$> classes derived_only_indexed = outline <$> classes derived_only_env.
Proof.
  apply (build_index_keeps_outline loads_plain derived_only_env derived_only_indexed).
  vm_compute. reflexivity.
Defined.

Lemma build_index_relations_witness :
  (1 ∈ subs_of (classes derived_only_indexed) 0 ↔
     1 ∈ subs_of (classes derived_only_env) 0
     ∨ (1 ∈ annotated_classes derived_only_indexed
        ∧ ∃ c base, classes derived_only_env !! 1 = Some c ∧ base ∈ _bases c
                    ∧ name_to_class_map derived_only_indexed !! base = Some 0))
  ∧ (1 ∈ bases_of (classes derived_only_indexed) 0 ↔
       1 ∈ bases_of (classes derived_only_env) 0
       ∨ (1 ∈ annotated_classes derived_only_indexed
          ∧ ∃ c base, classes derived_only_env !! 0 = Some c ∧ base ∈ _bases c
                      ∧ name_to_class_map derived_only_indexed !! base = Some 1)).
Proof.
  apply (build_index_relations loads_plain derived_only_env derived_only_indexed).
  vm_compute. reflexivity.
Defined.

(** ** The include list *)

Definition is_quoted (i : string) : Prop :=
  startswith i (String dquote EmptyString) = true ∨ startswith i "<" = true.

Lemma quote_include_quoted i : is_quoted (quote_include i).
Proof.
  unfold quote_include, is_quoted.
  destruct (startswith i (String dquote EmptyString)) eqn:E1; [by left|].
  destruct (startswith i "<") eqn:E2; [by right|]. by left.
Qed.

(** X18: every entry of the include list [build_index] answers is quoted:
    it starts with a double quote or with [<]. *)
Theorem build_index_includes_quoted (json_loads : string → option string) (env env' : Environment) :
  build_index json_loads env = Ok env' → Forall is_quoted (includes env').
Proof.
  unfold build_index. intros H.
  destruct (index_classes (classes env)) as [names annotated].
  apply bind_Ok in H as (amap & _ & H). apply bind_Ok in H as (st & _ & H).
  destruct (fold_left uid_step _ _) as [cls annotated'].
  apply bind_Ok in H as (prolog & _ & H). apply bind_Ok in H as (epilog & _ & H).
  apply bind_Ok in H as (incs & _ & [= <-]). simpl.
  apply Forall_fmap, Forall_true. intros i. apply quote_include_quoted.
Qed.

Definition include_env : Environment :=
  empty_env [empty_class "::C"]
    [mkItem "arvida_global_annotation_func" None
       [mkAnnotation (Some "arvida-include") [sparam "<vector>"]];
     mkItem "arvida_reflect_object" (Some (tparam "::C"))
       [mkAnnotation (Some "arvida-class-include") [sparam "c.h"]]].

Definition include_indexed : Environment :=
  Eval vm_compute in
    match build_index loads_plain include_env with
    | Ok env => env
    | Raise _ => include_env
    end.

Lemma build_index_includes_witness : Forall is_quoted (includes include_indexed).
Proof.
  apply (build_index_includes_quoted loads_plain include_env include_indexed).
  vm_compute. reflexivity.
Defined.

End IndexFacts.

Module TemplateFacts.
Import Py PyStr PyStrFacts Decoder Model Generator.

Local Open Scope nat_scope.

(** ** The shape of a parsed template *)

Definition is_text (seg : Segment) : bool :=
  match seg with TextValue _ => true | SubstValue _ => false end.

Definition nonempty_text (seg : Segment) : Prop :=
  match seg with TextValue v => v ≠ "" | SubstValue _ => True end.

(** No two text segments follow each other. *)
Fixpoint texts_apart (l : list Segment) : Prop :=
  match l with
  | a :: (b :: _) as l' => (is_text a = true → is_text b = false) ∧ texts_apart l'
  | _ => True
  end.

Definition ends_in_text (l : list Segment) : bool :=
  match last l with Some seg => is_text seg | None => false end.

Lemma texts_apart_snoc l x :
  texts_apart l → (ends_in_text l = true → is_text x = false) → texts_apart (l ++ [x]).
Proof.
  unfold ends_in_text. induction l as [|a [|b l] IH]; intros H Hx; [done| |].
  - simpl. split; [|done]. intros Ha. apply Hx. done.
  - destruct H as [Hab H]. split; [done|]. apply IH; [done|].
    intros Hl. apply Hx. by rewrite last_cons_cons.
Qed.

Lemma ends_in_text_snoc l x : ends_in_text (l ++ [x]) = is_text x.
Proof. unfold ends_in_text. by rewrite last_snoc. Qed.

Lemma length_nonempty (s : string) : (String.length s =? 0) = false → s ≠ "".
Proof. by destruct s. Qed.

(** The invariant of the loop: the segments made so far are canonical, and
    outside braces the last of them is no text. *)
Definition canonical (l : list Segment) : Prop :=
  Forall nonempty_text l ∧ texts_apart l.

Definition loop_inv (st : TemplateState) : Prop :=
  canonical (ts_result st)
  ∧ (brace_level st = 0 → ends_in_text (ts_result st) = false).

Lemma template_step_inv st c : loop_inv st → loop_inv (template_step st c).
Proof.
  intros [[Hne Hap] Hlast]. unfold template_step.
  destruct (as_is st); [done|].
  destruct (String.eqb c _); [done|].
  destruct (String.eqb c "{").
  { destruct (brace_level st =? 0) eqn:E0; [|by split; [|simpl; lia]].
    apply Nat.eqb_eq in E0. split; [|done]. simpl.
    destruct (String.length (curstr st) =? 0) eqn:El; simpl; [done|].
    split.
    - apply Forall_app. split; [done|]. constructor; [|done]. by apply length_nonempty.
    - apply texts_apart_snoc; [done|]. intros Ht. by rewrite Hlast in Ht. }
  destruct (String.eqb c "}"); [|done].
  destruct (brace_level st =? 1) eqn:E1.
  { split; [split|]; cbn [ts_result brace_level].
    - apply Forall_app. split; [done|]. by constructor.
    - by apply texts_apart_snoc.
    - intros _. by rewrite ends_in_text_snoc. }
  destruct (0 <? brace_level st) eqn:E0; [|done].
  apply Nat.ltb_lt in E0. apply Nat.eqb_neq in E1.
  split; [done|]. simpl. lia.
Qed.

Lemma parse_items_canonical items : canonical (parse_items items).
Proof.
  unfold parse_items.
  assert (H : loop_inv (fold_left template_step items (mkTS [] "" 0 false))).
  { assert (H0 : loop_inv (mkTS [] "" 0 false)) by (by repeat split).
    revert H0. generalize (mkTS [] "" 0 false).
    induction items as [|c items IH]; intros st H; [done|].
    simpl. apply IH. by apply template_step_inv. }
  destruct H as [[Hne Hap] Hlast]. unfold template_finish.
  destruct (0 <? String.length (curstr _)) eqn:El; [|done].
  destruct (0 <? brace_level _) eqn:Eb.
  - split; [apply Forall_app; split; [done|by constructor]|by apply texts_apart_snoc].
  - split.
    + apply Forall_app. split; [done|]. constructor; [|done].
      intros E. by rewrite E in El.
    + apply texts_apart_snoc; [done|]. intros Ht.
      rewrite Hlast in Ht; [done|]. apply Nat.ltb_ge in Eb. lia.
Qed.

(** X19: the segments of a parsed template are canonical: no text segment is
    empty, and no two text segments follow each other (text between two
    substitutions is one segment). *)
Theorem parse_inline_template_canonical (v : AnnoValue) (segs : list Segment) :
  parse_inline_template v = Ok segs →
  Forall nonempty_text segs ∧ texts_apart segs.
Proof.
  unfold parse_inline_template. destruct (items_of v) as [items|e]; [|done].
  intros [= <-]. apply parse_items_canonical.
Qed.

Lemma parse_inline_template_canonical_witness :
  let segs := [SubstValue "$this"; TextValue "/name"] in
  Forall nonempty_text segs ∧ texts_apart segs.
Proof.
  apply (parse_inline_template_canonical (AVStr "{$this}/name")). reflexivity.
Defined.

(** ** Writing a template and parsing it back *)

Definition is_special (c : ascii) : bool :=
  Ascii.eqb c "{" || Ascii.eqb c "}" || Ascii.eqb c backslash.

(** Literal text in a template: a backslash goes before every brace and
    backslash. *)
Fixpoint escape (s : string) : string :=
  match s with
  | EmptyString => EmptyString
  | String c s' => if is_special c then String backslash (String c (escape s'))
                   else String c (escape s')
  end.

(** An expression without backslash whose braces are balanced, [d] of them
    being open at its start. *)
Fixpoint balanced (d : nat) (s : string) : bool :=
  match s with
  | EmptyString => d =? 0
  | String c s' =>
      if Ascii.eqb c "{" then balanced (S d) s'
      else if Ascii.eqb c "}" then match d with O => false | S d' => balanced d' s' end
      else if Ascii.eqb c backslash then false
      else balanced d s'
  end.

Definition render (seg : Segment) : string :=
  match seg with
  | TextValue t => escape t
  | SubstValue v => "{" +:+ v +:+ "}"
  end.

Definition render_all (segs : list Segment) : string :=
  foldr (fun seg s => render seg +:+ s) "" segs.

Definition writable (seg : Segment) : Prop :=
  match seg with
  | TextValue t => t ≠ ""
  | SubstValue v => balanced 0 v = true
  end.

Lemma chars_cons c s : chars (String c s) = String c "" :: chars s.
Proof. reflexivity. Qed.

Lemma chars_app a b : chars (a +:+ b) = chars a ++ chars b.
Proof.
  induction a as [|c a IH]; [by rewrite app_nil_l|].
  rewrite app_cons, !chars_cons, IH. done.
Qed.

Lemma eqb_char c d : String.eqb (String c "") (String d "") = Ascii.eqb c d.
Proof. simpl. by destruct (Ascii.eqb c d). Qed.

Lemma app_snoc_assoc (a : string) (c : ascii) (b : string) :
  (a +:+ String c "") +:+ b = a +:+ String c b.
Proof. induction a as [|x a IH]; [done|]. by rewrite !app_cons, IH. Qed.

Lemma str_app_nil_r (a : string) : a +:+ "" = a.
Proof. induction a as [|x a IH]; [done|]. by rewrite app_cons, IH. Qed.

Lemma step_as_is r cur n c :
  template_step (mkTS r cur n true) (String c "") = mkTS r (cur +:+ String c "") n false.
Proof. reflexivity. Qed.

Lemma step_plain r cur n c :
  is_special c = false →
  template_step (mkTS r cur n false) (String c "") = mkTS r (cur +:+ String c "") n false.
Proof.
  unfold is_special. rewrite !orb_false_iff. intros [[H1 H2] H3].
  unfold template_step. cbn [as_is ts_result curstr brace_level].
  change "{"%string with (String "{" ""). change "}"%string with (String "}" "").
  by rewrite !eqb_char, H1, H2, H3.
Qed.

Lemma step_backslash r cur n :
  template_step (mkTS r cur n false) (String backslash "") = mkTS r cur n true.
Proof. reflexivity. Qed.

Lemma fold_escape t :
  ∀ r cur n, fold_left template_step (chars (escape t)) (mkTS r cur n false)
             = mkTS r (cur +:+ t) n false.
Proof.
  induction t as [|c t IH]; intros r cur n; [by rewrite str_app_nil_r|].
  cbn [escape]. destruct (is_special c) eqn:E.
  - rewrite !chars_cons. cbn [fold_left].
    rewrite step_backslash, step_as_is, IH. by rewrite app_snoc_assoc.
  - rewrite chars_cons. cbn [fold_left].
    rewrite step_plain, IH by done. by rewrite app_snoc_assoc.
Qed.

Lemma fold_balanced v :
  ∀ d r cur, balanced d v = true →
    fold_left template_step (chars v) (mkTS r cur (d + 1) false)
    = mkTS r (cur +:+ v) 1 false.
Proof.
  induction v as [|c v IH]; intros d r cur H; simpl in H.
  - apply Nat.eqb_eq in H as ->. by rewrite str_app_nil_r.
  - rewrite chars_cons. cbn [fold_left].
    destruct (Ascii.eqb c "{") eqn:E1.
    { apply Ascii.eqb_eq in E1 as ->.
      replace (template_step (mkTS r cur (d + 1) false) (String "{" ""))
        with (mkTS r (cur +:+ String "{" "") (S d + 1) false).
      - rewrite IH by done. by rewrite app_snoc_assoc.
      - unfold template_step. cbn [as_is ts_result curstr brace_level].
        change (String.eqb "{" (String backslash "")) with false.
        change (String.eqb "{" "{") with true. cbv iota.
        by replace (d + 1 =? 0) with false by (symmetry; apply Nat.eqb_neq; lia). }
    destruct (Ascii.eqb c "}") eqn:E2.
    { apply Ascii.eqb_eq in E2 as ->. destruct d as [|d]; [done|].
      replace (template_step (mkTS r cur (S d + 1) false) (String "}" ""))
        with (mkTS r (cur +:+ String "}" "") (d + 1) false).
      - rewrite IH by done. by rewrite app_snoc_assoc.
      - unfold template_step. cbn [as_is ts_result curstr brace_level].
        change (String.eqb "}" (String backslash "")) with false.
        change (String.eqb "}" "{") with false.
        change (String.eqb "}" "}") with true. cbv iota.
        replace (S d + 1 =? 1) with false by (symmetry; apply Nat.eqb_neq; lia).
        replace (0 <? S d + 1) with true by (symmetry; apply Nat.ltb_lt; lia).
        do 2 f_equal. lia. }
    destruct (Ascii.eqb c backslash) eqn:E3; [done|].
    rewrite step_plain, IH; [by rewrite app_snoc_assoc|done|].
    unfold is_special. by rewrite E1, E2, E3.
Qed.

(** The text segment pending in [curstr]. *)
Definition pending (cur : string) : list Segment :=
  if (0 <? String.length cur) then [TextValue cur] else [].

Lemma fold_render segs :
  ∀ r cur,
    Forall writable segs → texts_apart segs →
    (cur ≠ "" → ∀ seg, head segs = Some seg → is_text seg = false) →
    template_finish (fold_left template_step (chars (render_all segs)) (mkTS r cur 0 false))
    = r ++ pending cur ++ segs.
Proof.
  induction segs as [|seg segs IH]; intros r cur Hw Ha Hc.
  - simpl. unfold template_finish, pending. cbn [curstr brace_level ts_result].
    destruct (0 <? String.length cur); [done|]. by rewrite app_nil_r.
  - inversion Hw as [|? ? Hseg Hrest]; subst.
    cbn [render_all foldr]. rewrite chars_app, fold_left_app.
    destruct seg as [t|v]; cbn [render].
    + assert (cur = "") as ->.
      { destruct cur; [done|]. by specialize (Hc ltac:(done) _ eq_refl). }
      rewrite fold_escape, app_nil_l. rewrite IH.
      * unfold pending. simpl in Hseg. destruct t; [done|]. done.
      * done.
      * destruct segs as [|b segs]; [done|]. by destruct Ha.
      * intros _ seg Hh. destruct segs as [|b segs]; [done|].
        injection Hh as <-. destruct Ha as [Hab _]. by apply Hab.
    + change ("{" +:+ v +:+ "}") with (String "{" (v +:+ "}")).
      rewrite chars_cons, chars_app. cbn [fold_left]. rewrite fold_left_app.
      replace (template_step (mkTS r cur 0 false) (String "{" ""))
        with (mkTS (r ++ pending cur) "" (0 + 1) false).
      2:{ unfold template_step, pending. cbn [as_is ts_result curstr brace_level].
          change (String.eqb "{" (String backslash "")) with false.
          change (String.eqb "{" "{") with true. cbv iota.
          destruct (String.length cur) eqn:El; simpl; [by rewrite app_nil_r|done]. }
      rewrite fold_balanced by done. rewrite app_nil_l.
      change (chars "}") with ["}"%string]. cbn [fold_left].
      replace (template_step (mkTS (r ++ pending cur) v 1 false) "}")
        with (mkTS ((r ++ pending cur) ++ [SubstValue v]) "" 0 false) by reflexivity.
      rewrite IH.
      * unfold pending at 2. simpl. by rewrite <- !app_assoc.
      * done.
      * destruct segs as [|b segs]; [done|]. by destruct Ha.
      * done.
Qed.

(** X20: parsing inverts writing.  A template written from segments, the
    text segments with a backslash before each brace and backslash, the
    expressions between braces, is parsed back into these segments.  The
    segments must be canonical, and an expression must be free of backslashes
    with its braces balanced. *)
Theorem parse_render_round_trip (segs : list Segment) :
  Forall writable segs → texts_apart segs →
  parse_inline_template (AVStr (render_all segs)) = Ok segs.
Proof.
  intros Hw Ha. unfold parse_inline_template. simpl. f_equal.
  unfold parse_items. rewrite fold_render; done.
Qed.

Lemma parse_render_witness :
  parse_inline_template (AVStr (render_all [TextValue "a{b"; SubstValue "f({x})"; TextValue "/c"]))
  = Ok [TextValue "a{b"; SubstValue "f({x})"; TextValue "/c"].
Proof.
  apply (parse_render_round_trip [TextValue "a{b"; SubstValue "f({x})"; TextValue "/c"]).
  - repeat constructor; done.
  - repeat split; done.
Defined.

End TemplateFacts.

Module PathTypeFacts.
Import Py PyStr PyStrFacts Decoder Model Generator Propagation ModelFacts PathFacts.

Local Open Scope nat_scope.

Lemma normalize_idemp v :
  normalize_annotation_value (normalize_annotation_value v) = normalize_annotation_value v.
Proof. by destruct v as [| |[|x [|y l]]]. Qed.

(** X21: only the last path annotation counts, and a tuple of one string
    stands for the string: the paths declared before the last one have no
    effect on the compiled path. *)
Theorem process_path_annotation_last_wins (json_dumps : AnnoValue → string)
    (l : list AnnoValue) (x : AnnoValue) (y : string) (sl : list (string * string)) :
  process_path_annotation json_dumps (l ++ [x]) sl
  = process_path_annotation json_dumps [x] sl
  ∧ process_path_annotation json_dumps (l ++ [AVTuple [y]]) sl
    = process_path_annotation json_dumps [AVStr y] sl.
Proof.
  unfold process_path_annotation. rewrite !fmap_last, !last_snoc. done.
Qed.

(** X22: the path type of a member container.  It is [NO_PATH] exactly when
    the compiled path is empty; it is [ABSOLUTE_PATH] only for a member with
    an [absolute-path] annotation; a member without path annotations has
    [NO_PATH]; and without element-path annotations the element path is the
    member path, with its type. *)
Theorem member_path_types (json_dumps : AnnoValue → string) (m : Member)
    (cls id : nat) (mtc : MemberTripleContainer) :
  new_mtc json_dumps (Some m) cls id = Ok mtc →
  (path_type mtc = Some NO_PATH ↔ ∃ pp, pp_path mtc = Some pp ∧ is_emptystring pp = true)
  ∧ (path_type mtc = Some ABSOLUTE_PATH →
     ∃ a l, member_annotations m !! "absolute-path" = Some (a :: l))
  ∧ (member_annotations m !! "path" = None →
     member_annotations m !! "absolute-path" = None →
     path_type mtc = Some NO_PATH ∧ path mtc = None)
  ∧ (member_annotations m !! "element-path" = None →
     member_annotations m !! "absolute-element-path" = None →
     element_path_type mtc = path_type mtc ∧ element_path mtc = path mtc
     ∧ unquoted_element_path mtc = unquoted_path mtc
     ∧ pp_element_path mtc = pp_path mtc).
Proof.
  unfold new_mtc. intros H.
  set (ap := anno_get (member_annotations m) "absolute-path" []) in *.
  set (ps := anno_get (member_annotations m) "path" []) in *.
  set (aep := anno_get (member_annotations m) "absolute-element-path" ap) in *.
  assert (Hap : bool_decide (ap ≠ []) = true →
                ∃ a l, member_annotations m !! "absolute-path" = Some (a :: l)).
  { intros E%bool_decide_eq_true. subst ap. unfold anno_get in E.
    destruct (member_annotations m !! "absolute-path") as [[|a l]|]; try done. by exists a, l. }
  assert (Hnone : member_annotations m !! "path" = None →
                  member_annotations m !! "absolute-path" = None → ap = [] ∧ ps = []).
  { intros E1 E2. subst ap ps. unfold anno_get. by rewrite E1, E2. }
  assert (Haep : member_annotations m !! "absolute-element-path" = None → aep = ap).
  { intros E. subst aep. unfold anno_get at 1. by rewrite E. }
  destruct (bool_decide (ap ≠ [])) eqn:Eap;
    apply bind_Ok in H as ([[p up] pp] & Hp & H);
    destruct (bool_decide (aep ≠ [])) eqn:Eaep;
    apply bind_Ok in H as ([[ep uep] epp] & Hep & [= <-]);
    cbn [path_type pp_path path element_path_type element_path unquoted_element_path
         unquoted_path pp_element_path].
  all: split; [destruct (is_emptystring pp) eqn:Ee;
                 (split; [intros ?; try done; by exists pp
                         |intros (? & [= <-] & ?); congruence])|].
  all: split; [intros Habs; try (by apply Hap); by destruct (is_emptystring pp)|].
  all: split.
  all: try (intros E1 E2; destruct (Hnone E1 E2) as [Ha Hs];
            try (by rewrite Ha in Eap);
            rewrite Hs in Hp; by injection Hp as <- <- <-).
  all: intros E1 E2; rewrite (Haep E2) in *; try congruence.
  - assert (ep = p ∧ uep = up ∧ epp = pp) as (-> & -> & ->) by (split_and!; congruence).
    done.
  - unfold anno_get in Hep at 1. rewrite E1 in Hep. simpl in Hep.
    assert (ep = p ∧ uep = up ∧ epp = pp) as (-> & -> & ->) by (split_and!; congruence).
    done.
Qed.

Definition name_path_mtc : MemberTripleContainer :=
  Eval vm_compute in
    match new_mtc dumps_plain (Some name_path_field) 0 0 with
    | Ok mtc => mtc
    | Raise _ =>
        mkMTC 0 [] [] [] None 0 None None None None None None None None false false
    end.

Lemma member_path_types_witness :
  (path_type name_path_mtc = Some NO_PATH ↔
     ∃ pp, pp_path name_path_mtc = Some pp ∧ is_emptystring pp = true)
  ∧ (path_type name_path_mtc = Some ABSOLUTE_PATH →
     ∃ a l, member_annotations name_path_field !! "absolute-path" = Some (a :: l))
  ∧ (member_annotations name_path_field !! "path" = None →
     member_annotations name_path_field !! "absolute-path" = None →
     path_type name_path_mtc = Some NO_PATH ∧ path name_path_mtc = None)
  ∧ (member_annotations name_path_field !! "element-path" = None →
     member_annotations name_path_field !! "absolute-element-path" = None →
     element_path_type name_path_mtc = path_type name_path_mtc
     ∧ element_path name_path_mtc = path name_path_mtc
     ∧ unquoted_element_path name_path_mtc = unquoted_path name_path_mtc
     ∧ pp_element_path name_path_mtc = pp_path name_path_mtc).
Proof.
  apply (member_path_types dumps_plain name_path_field 0 0 name_path_mtc).
  vm_compute. reflexivity.
Defined.

(** ** The path type of a class *)

Lemma class_uid_idemp c a : class_uid c (class_uid c a) = class_uid c a.
Proof. unfold class_uid. by destruct (c_annotations c !! "uid-method"). Qed.

Lemma path_fold_lookup json_dumps cls l :
  ∀ attrs attrs', foldM (path_step json_dumps cls) l attrs = Ok attrs' →
    ∀ i, (i ∈ l → ∃ c a, cls !! i = Some c ∧ class_path json_dumps c = Ok a
                          ∧ attrs' !! i = Some a)
         ∧ (i ∉ l → attrs' !! i = attrs !! i).
Proof.
  induction l as [|j l IH]; intros attrs attrs' H i; simpl in H.
  - injection H as <-. split; [by intros ?%elem_of_nil|done].
  - apply bind_Ok in H as (attrs1 & H1 & H).
    unfold path_step in H1. destruct (cls !! j) as [c|] eqn:Hc; [|done].
    apply bind_Ok in H1 as (a & Ha & [= <-]).
    destruct (IH _ _ H i) as [I1 I2]. split.
    + intros Hin. destruct (decide (i ∈ l)) as [Hl|Hl]; [by apply I1|].
      apply elem_of_cons in Hin as [->|?]; [|done].
      exists c, a. rewrite (I2 Hl), lookup_insert_eq. done.
    + intros Hin. apply not_elem_of_cons in Hin as [Hne Hl].
      rewrite (I2 Hl). by rewrite lookup_insert_ne.
Qed.

Lemma uid_fold_lookup cls l :
  ∀ attrs i,
    fold_left (uid_step cls) l attrs !! i
    = if decide (i ∈ l)
      then match cls !! i, attrs !! i with
           | Some c, Some a => Some (class_uid c a)
           | _, _ => attrs !! i
           end
      else attrs !! i.
Proof.
  induction l as [|j l IH]; intros attrs i; [done|]. simpl. rewrite IH. clear IH.
  assert (Hstep : uid_step cls attrs j !! i
                  = if decide (i = j)
                    then match cls !! i, attrs !! i with
                         | Some c, Some a => Some (class_uid c a)
                         | _, _ => attrs !! i
                         end
                    else attrs !! i).
  { unfold uid_step. destruct (decide (i = j)) as [->|Hne].
    - destruct (cls !! j), (attrs !! j) eqn:E; rewrite ?lookup_insert_eq; done.
    - destruct (cls !! j), (attrs !! j); rewrite ?lookup_insert_ne; done. }
  rewrite Hstep.
  destruct (decide (i ∈ l)) as [Hl|Hl], (decide (i = j)) as [->|Hne].
  - rewrite decide_True by (by left).
    destruct (cls !! j), (attrs !! j); try done. by rewrite class_uid_idemp.
  - rewrite decide_True by (by right). done.
  - rewrite decide_True by (by left). done.
  - rewrite decide_False; [done|]. by intros [?|?]%elem_of_cons.
Qed.

(** X23: the path type [process_environment] leaves on a class.  A class
    that is not annotated gets no path attributes.  An annotated class with
    a uid-accessor directive is relative to its base, whatever its path
    annotations; without the directive it is absolute when it has an
    [absolute-path] annotation and relative otherwise.  No class gets
    [NO_PATH]. *)
Theorem class_path_types (json_dumps : AnnoValue → string) (fuel : nat)
    (env : Environment) (r : list Class * gmap nat ClassAttrs) (i : nat) :
  process_environment json_dumps fuel env = Ok r →
  (i ∉ annotated_classes env → r.2 !! i = None)
  ∧ (i ∈ annotated_classes env →
     ∃ c a, r.1 !! i = Some c ∧ r.2 !! i = Some a
       ∧ cls_uid_method a = c_annotations c !! "uid-method"
       ∧ cls_path_type a
         = match c_annotations c !! "uid-method" with
           | Some _ => RELATIVE_TO_BASE_PATH
           | None => if bool_decide (anno_get (c_annotations c) "absolute-path" [] ≠ [])
                     then ABSOLUTE_PATH else RELATIVE_PATH
           end).
Proof.
  unfold process_environment. intros H.
  apply bind_Ok in H as (cls & _ & H). apply bind_Ok in H as (attrs & Ha & [= <-]).
  cbn [fst snd]. rewrite uid_fold_lookup.
  destruct (path_fold_lookup _ _ _ _ _ Ha i) as [I1 I2]. split.
  - intros Hi. rewrite decide_False by done. by rewrite (I2 Hi).
  - intros Hi. rewrite decide_True by done.
    destruct (I1 Hi) as (c & a & Hc & Hpath & ->). rewrite Hc.
    exists c, (class_uid c a). split; [done|]. split; [done|].
    unfold class_path in Hpath. unfold class_uid.
    destruct (bool_decide _);
      destruct (c_annotations c !! "uid-method") as [u|];
      apply bind_Ok in Hpath as ([[p up] pp] & _ & [= <-]); done.
Qed.

(** A class with a uid-accessor directive and an absolute path. *)
Definition uid_and_absolute_env : Environment :=
  mkEnv [mkClass "::C" {[ "uid-method" := [AVStr "getId"]; "absolute-path" := [AVStr "/c"] ]}
                 [] [] [] [] [] []]
        [] ∅ [0] ∅ ∅ [] [] [].

Definition uid_and_absolute_processed : list Class * gmap nat ClassAttrs :=
  Eval vm_compute in
    match process_environment dumps_plain 1 uid_and_absolute_env with
    | Ok r => r
    | Raise _ => ([], ∅)
    end.

Lemma class_path_types_witness :
  (0 ∉ annotated_classes uid_and_absolute_env → uid_and_absolute_processed.2 !! 0 = None)
  ∧ (0 ∈ annotated_classes uid_and_absolute_env →
     ∃ c a, uid_and_absolute_processed.1 !! 0 = Some c
       ∧ uid_and_absolute_processed.2 !! 0 = Some a
       ∧ cls_uid_method a = c_annotations c !! "uid-method"
       ∧ cls_path_type a
         = match c_annotations c !! "uid-method" with
           | Some _ => RELATIVE_TO_BASE_PATH
           | None => if bool_decide (anno_get (c_annotations c) "absolute-path" [] ≠ [])
                     then ABSOLUTE_PATH else RELATIVE_PATH
           end).
Proof.
  apply (class_path_types dumps_plain 1 uid_and_absolute_env uid_and_absolute_processed 0).
  vm_compute. reflexivity.
Defined.

End PathTypeFacts.

Module TripleBuildFacts.
Import Py PyStr PyStrFacts Decoder Model Generator DecoderFacts ModelFacts SortFacts
  TripleFacts.

Local Open Scope nat_scope.

(** ** [process_triples] loses nothing *)

Lemma filter_partition {A} (p : A → bool) (l : list A) :
  Permutation (List.filter (fun x => negb (p x)) l ++ List.filter p l) l.
Proof.
  induction l as [|x l IH]; [done|]. simpl. destruct (p x); simpl.
  - rewrite <- Permutation_middle. by constructor.
  - by constructor.
Qed.

Lemma elem_of_sorted_filter (p : Triple → bool) (l : list Triple) (t : Triple) :
  t ∈ List.filter p (stable_sort (cmp_key weight_sum) l) ↔ t ∈ l ∧ p t = true.
Proof.
  rewrite !list_elem_of_In, List.filter_In. split; intros [Hin Hp]; (split; [|done]).
  - by apply (Permutation_in _ (sorted_perm weight_sum l)).
  - by apply (Permutation_in _ (Permutation_sym (sorted_perm weight_sum l))).
Qed.

(** X24: [process_triples] answers when every triple of the container has
    its three nodes, and it sorts every triple into one of the two lists: the
    triples that refer to an element of the member (a node for
    [$that.foreach], [$that.element] or [$that.item]) go to
    [member_element_triples], all others to [member_triples]; together the
    lists hold the triples of the container, each as often as it is there,
    and [triples] itself is left as it was. *)
Theorem process_triples_partition (self : MemberTripleContainer) :
  (Forall complete (triples self) → ∃ self', process_triples self = Ok self')
  ∧ ∀ self', process_triples self = Ok self' →
      Permutation (member_triples self' ++ member_element_triples self') (triples self)
      ∧ (∀ t, t ∈ member_element_triples self'
              ↔ t ∈ triples self ∧ refers_to_element t = true)
      ∧ (∀ t, t ∈ member_triples self'
              ↔ t ∈ triples self ∧ refers_to_element t = false)
      ∧ triples self' = triples self.
Proof.
  split; [intros Hc; eexists; by apply process_triples_complete|].
  intros self' ->%process_triples_Ok.
  unfold routed. cbn [member_triples member_element_triples triples].
  split; [|split; [|split]].
  - rewrite filter_partition. apply (sorted_perm weight_sum).
  - intros t. apply elem_of_sorted_filter.
  - intros t. rewrite elem_of_sorted_filter. by rewrite negb_true_iff.
  - done.
Qed.

(** A group whose second triple refers to an element of its member. *)
Definition element_group : MemberTripleContainer :=
  mkMTC 0 [blank_this_type "_:b1" "_b0" 0 1 2 3 4;
           mkTriple 5 (Some (Value (EClass 0) "$this" 6)) (Some (PrefixedName "ex:has" 7))
                    (Some (Value (EMember name_member) "$that.element" 8))]
        [] [] (Some name_member) 0 None None None None None None None None true true.

Definition element_group_processed : MemberTripleContainer :=
  Eval vm_compute in
    match process_triples element_group with
    | Ok self' => self'
    | Raise _ => element_group
    end.

Lemma process_triples_partition_witness :
  member_triples element_group_processed = [blank_this_type "_:b1" "_b0" 0 1 2 3 4]
  ∧ (∀ t, t ∈ member_element_triples element_group_processed
          ↔ t ∈ triples element_group ∧ refers_to_element t = true).
Proof.
  split; [reflexivity|].
  apply (proj2 (process_triples_partition element_group) element_group_processed).
  vm_compute. reflexivity.
Defined.

(** A single triple that lacks its object: [process_triples] stops at the
    node that is not there, unless a node before it refers to an element. *)
Example process_triples_short_triple :
  let short v := mkMTC 0 [mkTriple 1 (Some (Value (EMember name_member) v 2)) None None]
                       [] [] (Some name_member) 0 None None None None None None None None
                       true true in
  process_triples (short "$that") = Raise AttributeError
  ∧ ∃ self', process_triples (short "$that.item") = Ok self'
             ∧ member_element_triples self' = triples (short "$that.item").
Proof. split; [reflexivity|]. eexists. split; reflexivity. Qed.

(** ** What [create_triple] makes of an element *)

Section Elements.

Variable json_loads : string → option string.

(** The node [create_triple] makes of the element [elem], by the text of
    the element. *)
Definition node_of (cls : nat) (mem : option Member) (elem : string) (n : TripleNode) : Prop :=
  match n with
  | Blank label _ _ => label = elem ∧ startswith elem "_:" = true
  | Value e meta_var _ =>
      meta_var = elem
      ∧ ((elem = "$this" ∧ e = EClass cls)
         ∨ ((elem = "$that" ∨ elem ∈ THAT_ELEMENT_NAMES) ∧ ∃ m, mem = Some m ∧ e = EMember m))
  | IRI value _ => value = elem ∧ startswith elem "_:" = false ∧ contains elem "://" = true
  | PrefixedName value _ =>
      value = elem ∧ startswith elem "_:" = false
      ∧ contains elem "://" = false ∧ contains elem ":" = true
      ∧ (startswith elem (String dquote EmptyString) = true → is_Some (json_loads elem))
  end.

Lemma create_node_of json_dumps cls c mem elem g n g' :
  create_node json_dumps json_loads cls c mem elem g = Ok (n, g') → node_of cls mem elem n.
Proof.
  unfold create_node.
  destruct (startswith elem "_:") eqn:E1.
  { unfold create_blank. destruct (blank_var elem (blanks g)); by intros [= <- _]. }
  destruct (String.eqb elem "$this") eqn:E2.
  { apply String.eqb_eq in E2 as ->. unfold new_value.
    intros (? & _ & [= <- _])%bind_Ok. simpl. split; [done|by left]. }
  destruct (String.eqb elem "$that" || bool_decide (elem ∈ THAT_ELEMENT_NAMES)) eqn:E3.
  { destruct mem as [m|]; [|done]. unfold new_value.
    intros (? & _ & [= <- _])%bind_Ok. simpl. split; [done|]. right.
    split; [|by exists m].
    apply orb_true_iff in E3 as [->%String.eqb_eq|?%bool_decide_eq_true]; [by left|by right]. }
  destruct (contains elem "://") eqn:E4; [by intros [= <- _]|].
  destruct (contains elem ":") eqn:E5; [|done].
  cbn [next_id]. intros (u & Hu & [= <- _])%bind_Ok. cbn [node_of].
  repeat split; try done. intros Hq. unfold unquote_string_literal, loads in Hu.
  rewrite Hq in Hu. by destruct (json_loads elem).
Qed.

(** X25: [create_triple] sets the nodes of a triple from the elements of the
    annotation, in their places: it answers only for three elements or fewer
    (a fourth has no place in a triple), and then the first nodes are made of
    the elements and the others stay [None].  The kind of a node is decided by
    the text of its element: a label starting with [_:] gives a blank node,
    [$this] the class, [$that] and the element names the member (never in a
    triple of the class itself), a text with [://] an IRI, any other text with
    a colon a prefixed name, which [json.loads] must accept when it starts
    with a double quote. *)
Theorem create_triple_elements (json_dumps : AnnoValue → string) (cls : nat) (c : Class)
    (mem : option Member) (triple : AnnoValue) (g g' : TripleGen) (t : Triple) :
  create_triple json_dumps json_loads cls c mem triple g = Ok (t, g') →
  ∃ elems ns, items_of triple = Ok elems
    ∧ length elems ≤ 3
    ∧ nodes t = (Some <$> ns) ++ replicate (3 - length elems) None
    ∧ Forall2 (node_of cls mem) elems ns.
Proof.
  unfold create_triple. cbn [next_id]. intros H.
  apply bind_Ok in H as (elems & He & H). exists elems. rewrite He.
  destruct elems as [|a [|b [|d [|e rest]]]]; cbn [fill_triple] in H.
  - injection H as <- _. exists []. repeat split; [simpl; lia|constructor].
  - apply bind_Ok in H as ([s g1] & Hs & H). cbn [set_node mbind Result_mbind bind] in H.
    injection H as <- _. exists [s].
    repeat split; [simpl; lia|]. repeat constructor. by eapply create_node_of.
  - apply bind_Ok in H as ([s g1] & Hs & H). cbn [set_node mbind Result_mbind bind] in H.
    apply bind_Ok in H as ([p g2] & Hp & H). cbn [set_node mbind Result_mbind bind] in H.
    injection H as <- _. exists [s; p].
    repeat split; [simpl; lia|]. repeat constructor; by eapply create_node_of.
  - apply bind_Ok in H as ([s g1] & Hs & H). cbn [set_node mbind Result_mbind bind] in H.
    apply bind_Ok in H as ([p g2] & Hp & H). cbn [set_node mbind Result_mbind bind] in H.
    apply bind_Ok in H as ([o g3] & Ho & H). cbn [set_node mbind Result_mbind bind] in H.
    injection H as <- _. exists [s; p; o].
    repeat split; [simpl; lia|]. repeat constructor; by eapply create_node_of.
  - apply bind_Ok in H as ([s g1] & Hs & H). cbn [set_node mbind Result_mbind bind] in H.
    apply bind_Ok in H as ([p g2] & Hp & H). cbn [set_node mbind Result_mbind bind] in H.
    apply bind_Ok in H as ([o g3] & Ho & H). cbn [set_node mbind Result_mbind bind] in H.
    apply bind_Ok in H as ([x g4] & Hx & H). by cbn in H.
Qed.

End Elements.

Lemma create_triple_elements_witness :
  let mem := Some (MField (mkField "name" ∅)) in
  let t := mkTriple 0 (Some (Value (EClass 0) "$this" 1)) (Some (PrefixedName "ex:has" 2))
                    None in
  ∃ elems ns, items_of (AVTuple ["$this"; "ex:has"]) = Ok elems
    ∧ length elems ≤ 3
    ∧ nodes t = (Some <$> ns) ++ replicate (3 - length elems) None
    ∧ Forall2 (node_of loads_plain 0 mem) elems ns.
Proof.
  apply (create_triple_elements loads_plain PathFacts.dumps_plain 0 (empty_class "::C")
           (Some (MField (mkField "name" ∅)))
           (AVTuple ["$this"; "ex:has"]) (mkTG 0 0 []) (mkTG 3 0 [])).
  vm_compute. reflexivity.
Defined.

(** A fourth element is made into a node and then has no place; a quoted
    element that [json.loads] refuses is no prefixed name. *)
Example create_triple_raises :
  create_triple PathFacts.dumps_plain loads_plain 0 (empty_class "::C") None
    (AVTuple ["_:a"; "ex:p"; "_:b"; "_:c"]) (mkTG 0 0 []) = Raise IndexError
  ∧ create_triple PathFacts.dumps_plain loads_plain 0 (empty_class "::C") None
      (AVTuple [String dquote "ex:p"]) (mkTG 0 0 []) = Raise ValueError.
Proof. split; vm_compute; reflexivity. Qed.

(** ** Ids and blank-node variables *)

Definition node_id (n : TripleNode) : nat :=
  match n with
  | Blank _ _ i | IRI _ i | PrefixedName _ i | Value _ _ i => i
  end.

(** The nodes of a triple that are set. *)
Definition set_nodes (t : Triple) : list TripleNode := omap id (nodes t).

(** The ids of a triple and of its nodes; those of a container and of its
    triples. *)
Definition triple_ids (t : Triple) : list nat := t_id t :: (node_id <$> set_nodes t).

Definition mtc_ids (m : MemberTripleContainer) : list nat :=
  mtc_id m :: flat_map triple_ids (triples m).

Definition mtc_nodes (m : MemberTripleContainer) : list TripleNode :=
  flat_map set_nodes (triples m).

Lemma str_of_nat_inj n n' : str_of_nat n = str_of_nat n' → n = n'.
Proof.
  unfold str_of_nat. intros H.
  assert (Hnn : ∀ k, Nat.to_uint k ≠ Decimal.Nil).
  { intros k. rewrite <- (DecimalNat.Unsigned.of_to k) at 1.
    rewrite DecimalNat.Unsigned.to_of. apply DecimalFacts.unorm_nonnil. }
  apply (f_equal NilZero.uint_of_string) in H.
  rewrite !NilZero.usu in H by apply Hnn.
  injection H as H. by apply DecimalNat.Unsigned.to_uint_inj.
Qed.

(** The blank-node table is sound: labels occur once, and the variable of
    the [i]-th label is [_b<i>]. *)
Definition blanks_ok (g : TripleGen) : Prop :=
  blank_id g = length (blanks g)
  ∧ NoDup (blanks g).*1
  ∧ ∀ i lv, blanks g !! i = Some lv → lv.2 = "_b" +:+ str_of_nat i.

Definition registered (g : TripleGen) (n : TripleNode) : Prop :=
  ∀ label var i, n = Blank label var i → (label, var) ∈ blanks g.

(** What a step of the generation that starts in [g], ends in [g'] and
    makes the nodes [ns] and the objects with ids [ids] keeps. *)
Definition gen_ok (g g' : TripleGen) (ns : list TripleNode) (ids : list nat) : Prop :=
  (blanks_ok g → blanks_ok g')
  ∧ blanks g `prefix_of` blanks g'
  ∧ Forall (registered g') ns
  ∧ id_gen g ≤ id_gen g'
  ∧ NoDup ids
  ∧ Forall (fun i => id_gen g ≤ i < id_gen g') ids.

Lemma registered_mono g g' n :
  blanks g `prefix_of` blanks g' → registered g n → registered g' n.
Proof.
  intros [k Hk] H label var i Hn. rewrite Hk. apply elem_of_app. left. by eapply H.
Qed.

Lemma gen_ok_refl g : gen_ok g g [] [].
Proof.
  split; [done|]. split; [done|]. split; [constructor|]. split; [lia|].
  split; constructor.
Qed.

Lemma gen_ok_trans g g1 g2 ns1 ns2 ids1 ids2 :
  gen_ok g g1 ns1 ids1 → gen_ok g1 g2 ns2 ids2 → gen_ok g g2 (ns1 ++ ns2) (ids1 ++ ids2).
Proof.
  intros (B1 & P1 & R1 & L1 & N1 & I1) (B2 & P2 & R2 & L2 & N2 & I2).
  split; [by auto|]. split; [by etrans|]. split; [|split; [lia|split]].
  - apply Forall_app. split; [|done].
    eapply Forall_impl; [exact R1|]. intros n. by apply registered_mono.
  - apply NoDup_app. split; [done|]. split; [|done].
    intros i Hi1 Hi2. rewrite Forall_forall in I1, I2.
    specialize (I1 _ Hi1). specialize (I2 _ Hi2). lia.
  - apply Forall_app. split.
    + eapply Forall_impl; [exact I1|]. intros i ?. simpl in *. lia.
    + eapply Forall_impl; [exact I2|]. intros i ?. simpl in *. lia.
Qed.

Lemma gen_ok_next_id g : gen_ok g (next_id g).2 [] [(next_id g).1].
Proof.
  unfold next_id. simpl. split; [by intros ?|]. split; [done|]. split; [constructor|].
  simpl. split; [lia|]. split; [apply NoDup_singleton|].
  constructor; [lia|constructor].
Qed.

Lemma blank_var_Some label l var :
  blank_var label l = Some var → (label, var) ∈ l.
Proof.
  unfold blank_var. destruct (List.find _ l) as [[lbl v]|] eqn:E; [|done].
  intros [= <-]. apply List.find_some in E as [Hin Heq]. simpl in Heq.
  apply String.eqb_eq in Heq as ->. by apply list_elem_of_In.
Qed.

Lemma blank_var_None label l : blank_var label l = None → label ∉ l.*1.
Proof.
  unfold blank_var. destruct (List.find _ l) as [[lbl v]|] eqn:E; [done|].
  intros _ Hin. apply list_elem_of_fmap in Hin as ([lbl v] & -> & Hin).
  apply list_elem_of_In in Hin.
  pose proof (List.find_none _ _ E _ Hin) as Hf. simpl in Hf.
  by rewrite String.eqb_refl in Hf.
Qed.

Lemma gen_ok_create_blank elem g :
  let r := create_blank elem g in gen_ok g r.2 [r.1] [node_id r.1].
Proof.
  unfold create_blank. destruct (blank_var elem (blanks g)) as [var|] eqn:E; simpl.
  - split; [by intros ?|]. split; [done|]. simpl. split; [|split; [lia|split]].
    + constructor; [|constructor]. intros label var' i [= <- <- _].
      by apply blank_var_Some.
    + apply NoDup_singleton.
    + constructor; [lia|constructor].
  - apply blank_var_None in E. split; [|split; [|split; [|split; [|split]]]]; simpl.
    + intros (Hlen & Hnd & Hvar). simpl in *. split; [|split]; simpl.
      * rewrite length_app. simpl. lia.
      * rewrite fmap_app. apply NoDup_app.
        split; [done|]. split; [|apply NoDup_singleton].
        intros x Hx ->%list_elem_of_singleton. done.
      * intros i lv Hi.
        apply lookup_app_Some in Hi as [Hi|[Hge Hi]]; [by apply Hvar|].
        apply list_lookup_singleton_Some in Hi as [Hi <-]. simpl.
        do 2 f_equal. lia.
    + by apply prefix_app_r.
    + constructor; [|constructor]. intros label var' i [= <- <- _].
      apply elem_of_app. right. apply list_elem_of_here.
    + lia.
    + apply NoDup_singleton.
    + constructor; [lia|constructor].
Qed.

Section WithJson.

Variable json_dumps : AnnoValue → string.
Variable json_loads : string → option string.

Lemma gen_ok_fresh_node g n :
  is_blank_node n = false → node_id n = id_gen g →
  gen_ok g (next_id g).2 [n] [node_id n].
Proof.
  intros Hb Hid. destruct (gen_ok_next_id g) as (B & P & _ & L & N & I).
  rewrite Hid. split; [done|]. split; [done|]. split; [|done].
  constructor; [|constructor]. intros label var i ->. done.
Qed.

Lemma gen_ok_new_value annos e mv g n g' :
  new_value json_dumps annos e mv g = Ok (n, g') → gen_ok g g' [n] [node_id n].
Proof.
  unfold new_value. intros (? & _ & H)%bind_Ok. cbn in H. injection H as <- <-.
  by apply (gen_ok_fresh_node g (Value e mv (id_gen g))).
Qed.

Lemma gen_ok_create_node cls c mem elem g n g' :
  create_node json_dumps json_loads cls c mem elem g = Ok (n, g') →
  gen_ok g g' [n] [node_id n].
Proof.
  unfold create_node.
  destruct (startswith elem "_:").
  { intros [= H]. pose proof (gen_ok_create_blank elem g) as G. by rewrite H in G. }
  destruct (String.eqb elem "$this"); [apply gen_ok_new_value|].
  destruct (String.eqb elem "$that" || bool_decide (elem ∈ THAT_ELEMENT_NAMES)).
  { destruct mem; [apply gen_ok_new_value|done]. }
  destruct (contains elem "://").
  { intros H. cbn in H. injection H as <- <-.
    by apply (gen_ok_fresh_node g (IRI elem (id_gen g))). }
  destruct (contains elem ":"); [|done].
  cbn [next_id]. intros (u & _ & H)%bind_Ok. injection H as <- <-.
  by apply (gen_ok_fresh_node g (PrefixedName elem (id_gen g))).
Qed.

Lemma gen_ok_set_node index v t t' :
  set_node index v t = Ok t' → nth index (nodes t) None = None →
  t_id t' = t_id t ∧ Permutation (set_nodes t') (set_nodes t ++ [v]).
Proof.
  destruct t as [i s p o]. unfold set_nodes, nodes. cbn [subject predicate object t_id].
  destruct index as [|[|[|k]]]; [| | |done]; cbn [set_node nth]; intros [= <-] Hn;
    (split; [done|]); rewrite Hn; cbn [subject predicate object].
  - exact (Permutation_cons_append (omap (M := list) id [p; o]) v).
  - destruct s as [s|].
    + exact (perm_skip s (Permutation_cons_append (omap (M := list) id [o]) v)).
    + exact (Permutation_cons_append (omap (M := list) id [o]) v).
  - destruct s as [s|], p as [p|]; reflexivity.
Qed.

Lemma gen_ok_perm g g' ns ns' ids ids' :
  Permutation ns ns' → Permutation ids ids' → gen_ok g g' ns ids → gen_ok g g' ns' ids'.
Proof.
  intros Pn Pi (B & P & R & L & N & I).
  split; [done|]. split; [done|]. split; [by rewrite <- Pn|]. split; [done|].
  split; [by rewrite <- Pi|by rewrite <- Pi].
Qed.

Lemma gen_ok_fill_triple cls c mem elems :
  ∀ index t0 g t g',
    fill_triple json_dumps json_loads cls c mem index elems t0 g = Ok (t, g') →
    (∀ j, index ≤ j → nth j (nodes t0) None = None) →
    ∃ ns, t_id t = t_id t0 ∧ Permutation (set_nodes t) (set_nodes t0 ++ ns)
          ∧ gen_ok g g' ns (node_id <$> ns).
Proof.
  induction elems as [|elem elems IH]; intros index t0 g t g' H Hfree; cbn [fill_triple] in H.
  - injection H as <- <-. exists []. split; [done|]. split; [by rewrite app_nil_r|].
    apply gen_ok_refl.
  - apply bind_Ok in H as ([v g1] & Hv & H). apply bind_Ok in H as (t1 & Ht1 & H).
    destruct (gen_ok_set_node _ _ _ _ Ht1 (Hfree index (Nat.le_refl _))) as [Hid Hp].
    destruct (IH _ _ _ _ _ H) as (ns & Hid' & Hp' & G).
    { intros j Hj. destruct t0 as [i s p o]. unfold nodes in *.
      cbn [subject predicate object] in *.
      destruct index as [|[|[|k]]]; [| | |done]; cbn [set_node] in Ht1;
        injection Ht1 as <-; cbn [subject predicate object];
        pose proof (Hfree j ltac:(lia)) as Hf;
        destruct j as [|[|[|j]]]; try lia; try done. }
    exists (v :: ns). split; [congruence|]. split.
    + rewrite Hp', Hp. by rewrite <- app_assoc.
    + apply gen_ok_create_node in Hv.
      exact (gen_ok_trans _ _ _ _ _ _ _ Hv G).
Qed.

Lemma gen_ok_create_triple cls c mem triple g t g' :
  create_triple json_dumps json_loads cls c mem triple g = Ok (t, g') →
  gen_ok g g' (set_nodes t) (triple_ids t).
Proof.
  unfold create_triple. intros H.
  pose proof (gen_ok_next_id g) as H0. destruct (next_id g) as [id g0] eqn:En.
  apply bind_Ok in H as (elems & He & H).
  apply gen_ok_fill_triple in H as (ns & Hid & Hp & G).
  - unfold triple_ids. rewrite Hid. cbn [t_id].
    change (set_nodes (mkTriple id None None None) ++ ns) with ns in Hp.
    apply (gen_ok_perm g g' ([] ++ ns) _ ([id] ++ (node_id <$> ns))).
    + by rewrite Hp.
    + simpl. constructor. by rewrite Hp.
    + exact (gen_ok_trans _ _ _ _ _ _ _ H0 G).
  - intros [|[|[|[|j]]]] _; reflexivity.
Qed.

Lemma gen_ok_create_triples cls c mem annos :
  ∀ g ts g', create_triples json_dumps json_loads cls c mem annos g = Ok (ts, g') →
    gen_ok g g' (flat_map set_nodes ts) (flat_map triple_ids ts).
Proof.
  induction annos as [|anno annos IH]; intros g ts g' H; simpl in H.
  - injection H as <- <-. apply gen_ok_refl.
  - apply bind_Ok in H as ([t g1] & Ht & H).
    apply bind_Ok in H as ([ts' g2] & Hts & [= <- <-]).
    cbn [flat_map]. eapply gen_ok_trans; [by eapply gen_ok_create_triple|by apply IH].
Qed.

Lemma new_mtc_id mem cls id mtc :
  new_mtc json_dumps mem cls id = Ok mtc → mtc_id mtc = id.
Proof.
  unfold new_mtc. destruct mem as [m|]; [|by intros [= <-]].
  destruct (bool_decide _);
    intros ([[? ?] ?] & _ & H)%bind_Ok;
    destruct (bool_decide _);
    by apply bind_Ok in H as ([[? ?] ?] & _ & [= <-]).
Qed.

Lemma gen_ok_build_mtc cls c mem annos g mtc g' :
  build_mtc json_dumps json_loads cls c mem annos g = Ok (mtc, g') →
  gen_ok g g' (mtc_nodes mtc) (mtc_ids mtc).
Proof.
  unfold build_mtc. intros H.
  pose proof (gen_ok_next_id g) as H0. destruct (next_id g) as [id g0] eqn:En.
  apply bind_Ok in H as (mtc0 & Hm & H).
  apply bind_Ok in H as ([ts g1] & Hts & [= <- <-]).
  apply new_mtc_id in Hm. apply gen_ok_create_triples in Hts.
  unfold mtc_nodes, mtc_ids. cbn [with_triples mtc_id triples]. rewrite Hm.
  exact (gen_ok_trans _ _ _ _ _ _ _ H0 Hts).
Qed.

Lemma gen_ok_member_mtcs cls c ms :
  ∀ g mtcs g', member_mtcs json_dumps json_loads cls c ms g = Ok (mtcs, g') →
    gen_ok g g' (flat_map mtc_nodes mtcs) (flat_map mtc_ids mtcs).
Proof.
  induction ms as [|m ms IH]; intros g mtcs g' H; simpl in H.
  - injection H as <- <-. apply gen_ok_refl.
  - destruct (member_annotations m !! "triple") as [[|x l]|]; [by apply IH| |by apply IH].
    apply bind_Ok in H as ([mtc g1] & Hm & H).
    apply bind_Ok in H as ([mtcs' g2] & Hms & [= <- <-]).
    cbn [flat_map]. eapply gen_ok_trans; [by eapply gen_ok_build_mtc|by apply IH].
Qed.

Lemma process_triples_ids mtcs :
  ∀ mtcs', mapM process_triples mtcs = Ok mtcs' →
    flat_map mtc_ids mtcs' = flat_map mtc_ids mtcs
    ∧ flat_map mtc_nodes mtcs' = flat_map mtc_nodes mtcs.
Proof.
  induction mtcs as [|m mtcs IH]; intros mtcs' H; simpl in H; [by injection H as <-|].
  apply bind_Ok in H as (m' & Hm & H). apply bind_Ok in H as (ms' & Hms & [= <-]).
  apply process_triples_Ok in Hm as ->. destruct (IH _ Hms) as [IH1 IH2].
  cbn [flat_map]. by rewrite IH1, IH2.
Qed.

Lemma gen_ok_class_mtcs cls c mtcs :
  class_mtcs json_dumps json_loads cls c = Ok mtcs →
  ∃ g', gen_ok (mkTG 0 0 []) g' (flat_map mtc_nodes mtcs) (flat_map mtc_ids mtcs).
Proof.
  unfold class_mtcs. intros H.
  apply bind_Ok in H as ([global g1] & Hg & H).
  apply bind_Ok in H as ([ms g2] & Hms & H).
  destruct (process_triples_ids (global ++ ms) _ H) as [-> ->].
  exists g2. rewrite !flat_map_app.
  eapply gen_ok_trans; [|by eapply gen_ok_member_mtcs].
  destruct (anno_get (c_annotations c) "triple" []) as [|x l].
  - injection Hg as <- <-. apply gen_ok_refl.
  - apply bind_Ok in Hg as ([mtc g0] & Hm & [= <- <-]).
    cbn [flat_map]. rewrite !app_nil_r. by eapply gen_ok_build_mtc.
Qed.

(** X26: the objects made for a class have ids of their own: no two of the
    containers, the triples and the nodes of a class share an id. *)
Theorem class_ids_unique (cls : nat) (c : Class) (mtcs : list MemberTripleContainer) :
  class_mtcs json_dumps json_loads cls c = Ok mtcs → NoDup (flat_map mtc_ids mtcs).
Proof. intros H. by destruct (gen_ok_class_mtcs _ _ _ H) as (g' & _ & _ & _ & _ & N & _). Qed.

(** X27: blank nodes are stable within a class: two blank nodes of the
    triples of a class have the same variable exactly when they have the same
    label. *)
Theorem blank_nodes_stable (cls : nat) (c : Class) (mtcs : list MemberTripleContainer)
    (l1 v1 l2 v2 : string) (i1 i2 : nat) :
  class_mtcs json_dumps json_loads cls c = Ok mtcs →
  Blank l1 v1 i1 ∈ flat_map mtc_nodes mtcs →
  Blank l2 v2 i2 ∈ flat_map mtc_nodes mtcs →
  (l1 = l2 ↔ v1 = v2).
Proof.
  intros H H1 H2. destruct (gen_ok_class_mtcs _ _ _ H) as (g' & B & _ & R & _).
  destruct B as (_ & Hnd & Hvar); [by repeat split; try constructor|].
  rewrite Forall_forall in R.
  pose proof (R _ H1 _ _ _ eq_refl) as R1. pose proof (R _ H2 _ _ _ eq_refl) as R2.
  apply list_elem_of_lookup in R1 as [k1 K1]. apply list_elem_of_lookup in R2 as [k2 K2].
  pose proof (Hvar _ _ K1) as E1. pose proof (Hvar _ _ K2) as E2. simpl in E1, E2.
  split.
  - intros <-.
    assert (k1 = k2) as <-.
    { eapply NoDup_lookup; [exact Hnd| |]; rewrite list_lookup_fmap.
      - by rewrite K1.
      - by rewrite K2. }
    congruence.
  - intros <-. rewrite E1 in E2. injection E2 as E2. apply str_of_nat_inj in E2 as <-.
    congruence.
Qed.

End WithJson.

(** A class with two triples that share the label [_:b1]. *)
Definition two_blanks_class : Class :=
  mkClass "::C"
    {[ "triple" := [AVTuple ["_:b1"; "rdf:type"; "ex:T"]; AVTuple ["_:b1"; "ex:p"; "_:b2"]] ]}
    [] [] [] [] [] [].

Definition two_blanks_mtcs : list MemberTripleContainer :=
  Eval vm_compute in
    match class_mtcs PathFacts.dumps_plain loads_plain 0 two_blanks_class with
    | Ok mtcs => mtcs
    | Raise _ => []
    end.

Lemma class_ids_unique_witness : NoDup (flat_map mtc_ids two_blanks_mtcs).
Proof.
  apply (class_ids_unique PathFacts.dumps_plain loads_plain 0 two_blanks_class two_blanks_mtcs).
  vm_compute. reflexivity.
Defined.

Lemma blank_nodes_stable_witness : "_:b1"%string = "_:b2"%string ↔ "_b0"%string = "_b1"%string.
Proof.
  apply (blank_nodes_stable PathFacts.dumps_plain loads_plain 0 two_blanks_class two_blanks_mtcs
           "_:b1" "_b0" "_:b2" "_b1" 6 8).
  - vm_compute. reflexivity.
  - apply list_elem_of_In. vm_compute. repeat (first [left; reflexivity | right]).
  - apply list_elem_of_In. vm_compute. repeat (first [left; reflexivity | right]).
Defined.

End TripleBuildFacts.

Module OrderedSetFacts.
Import Py Collections.

Local Open Scope nat_scope.

Section Facts.
Context {K : Type} {eq_dec_K : EqDecision K} {countable_K : Countable K}.

(** ** The linked list behind a set *)

(** The nodes at the addresses [kl.*2] form a list linked both ways that
    holds the keys [kl.*1]: it starts at [cur], the node before it is [prev],
    its last node is [lst] ([prev] when it is empty), and it ends at the
    sentinel. *)
Fixpoint chain (h : list (Node K)) (prev cur : nat) (kl : list (K * nat)) (lst : nat) : Prop :=
  match kl with
  | [] => cur = END ∧ lst = prev
  | ka :: kl' =>
      cur = ka.2
      ∧ ∃ nxt, h !! ka.2 = Some (mkNode (Some ka.1) prev nxt) ∧ chain h ka.2 nxt kl' lst
  end.

(** The set [self] holds the keys [kl.*1], in this order, in nodes at the
    addresses [kl.*2]. *)
Definition rep (self : OrderedSet K) (kl : list (K * nat)) : Prop :=
  (∃ fst lst, os_nodes self !! END = Some (mkNode None lst fst)
              ∧ chain (os_nodes self) END fst kl lst)
  ∧ NoDup (END :: kl.*2)
  ∧ NoDup kl.*1
  ∧ os_map self = list_to_map kl.

Definition last_addr (p : nat) (kl : list (K * nat)) : nat := default p (last kl.*2).
Definition head_addr (kl : list (K * nat)) : nat := default END (head kl.*2).

Lemma chain_lst h p c kl lst : chain h p c kl lst → lst = last_addr p kl.
Proof.
  revert p c. induction kl as [|[k a] kl IH]; intros p c H; simpl in H.
  - by destruct H as [_ ->].
  - destruct H as (_ & nxt & _ & H). apply IH in H as ->.
    unfold last_addr. rewrite fmap_cons, last_cons. by destruct (last kl.*2).
Qed.

Lemma chain_cur h p c kl lst : chain h p c kl lst → c = head_addr kl.
Proof. destruct kl as [|[k a] kl]; simpl; by intros [-> _]. Qed.

Lemma last_addr_elem p kl : kl ≠ [] → last_addr p kl ∈ kl.*2.
Proof.
  intros H. unfold last_addr.
  destruct kl as [|ka kl _] using rev_ind; [done|].
  rewrite fmap_app. change ([ka].*2) with [ka.2]. rewrite last_snoc. simpl.
  apply elem_of_app. right. apply list_elem_of_here.
Qed.

Lemma chain_frame h h' p c kl lst :
  chain h p c kl lst → (∀ x, x ∈ kl.*2 → h' !! x = h !! x) → chain h' p c kl lst.
Proof.
  revert p c. induction kl as [|[k a] kl IH]; intros p c H Hf; [done|].
  simpl in *. destruct H as (-> & nxt & Ha & H). split; [done|]. exists nxt. split.
  - rewrite Hf; [done|]. apply list_elem_of_here.
  - apply IH; [done|]. intros x Hx. apply Hf. by apply list_elem_of_further.
Qed.

Lemma chain_lookup h p c kl lst x :
  chain h p c kl lst → x ∈ kl.*2 → is_Some (h !! x).
Proof.
  revert p c. induction kl as [|[k a] kl IH]; intros p c H Hx; simpl in *.
  - by apply elem_of_nil in Hx.
  - destruct H as (_ & nxt & Ha & H).
    apply elem_of_cons in Hx as [->|Hx]; [by eexists|by eapply IH].
Qed.

(** Walking the list. *)
Lemma iter_from_S fuel (h : list (Node K)) c :
  iter_from (S fuel) h c
  = if (c =? END) then Ok []
    else rest ← iter_from fuel h (n_next (deref h c)); Ok (n_key (deref h c) :: rest).
Proof. reflexivity. Qed.

Lemma deref_Some (h : list (Node K)) a n : h !! a = Some n → deref h a = n.
Proof. unfold deref. by intros ->. Qed.

Lemma iter_chain h kl :
  ∀ p c lst, chain h p c kl lst → END ∉ kl.*2 →
    iter_from (S (length kl)) h c = Ok (Some <$> kl.*1).
Proof.
  induction kl as [|[k a] kl IH]; intros p c lst H Hend; simpl in H.
  - by destruct H as [-> _].
  - destruct H as (-> & nxt & Ha & H). simpl in Hend.
    apply not_elem_of_cons in Hend as [Hne Hend].
    cbn [length]. rewrite iter_from_S.
    replace (a =? END) with false by (symmetry; apply Nat.eqb_neq; done).
    rewrite (deref_Some _ _ _ Ha). cbn [n_next n_key].
    rewrite (IH _ _ _ H Hend). done.
Qed.

Lemma rep_len self kl : rep self kl → len self = length kl.
Proof. intros (_ & _ & Hk & Hm). unfold len. rewrite Hm. by apply map_size_list_to_map. Qed.

Lemma rep_contains self kl k : rep self kl → contains k self = bool_decide (k ∈ kl.*1).
Proof.
  intros (_ & _ & Hk & Hm). unfold contains. rewrite Hm. apply bool_decide_ext.
  rewrite <- not_eq_None_Some, <- not_elem_of_list_to_map.
  split; [intros H; by apply dec_stable|intros H Hn; by apply Hn].
Qed.

Lemma rep_iter self kl : rep self kl → iter self = Ok (Some <$> kl.*1).
Proof.
  intros H. unfold iter. rewrite (rep_len _ _ H).
  destruct H as ((fst & lst & He & Hc) & Ha & _).
  rewrite (deref_Some _ _ _ He). cbn [n_next].
  eapply iter_chain; [done|]. by apply NoDup_cons in Ha as [? _].
Qed.

Lemma rep_new : rep (new (K := K)) [].
Proof.
  split; [|split; [|split]].
  - by exists END, END.
  - apply NoDup_singleton.
  - constructor.
  - done.
Qed.

(** ** [add] *)

Lemma chain_snoc h h' kl :
  ∀ p c lst k a,
    kl ≠ [] → chain h p c kl lst → NoDup kl.*2 →
    (∀ x, x ∈ kl.*2 → x ≠ lst → h' !! x = h !! x) →
    (∀ nd, h !! lst = Some nd → h' !! lst = Some (set_next a nd)) →
    h' !! a = Some (mkNode (Some k) lst END) →
    chain h' p c (kl ++ [(k, a)]) a.
Proof.
  induction kl as [|[k0 a0] kl IH]; intros p c lst k a Hne H Hnd Hf Hl Ha; [done|].
  simpl in H. destruct H as (-> & nxt & Ha0 & H). simpl.
  split; [done|]. destruct kl as [|ka kl'].
  - simpl in H. destruct H as [-> ->]. exists a. split.
    + by rewrite (Hl _ Ha0).
    + simpl. split; [done|]. by exists END.
  - pose proof (chain_lst _ _ _ _ _ H) as Hlst.
    assert (Hin : lst ∈ (ka :: kl').*2) by (rewrite Hlst; by apply last_addr_elem).
    apply NoDup_cons in Hnd as [Hn0 Hnd]. simpl in Hn0.
    exists nxt. split.
    + rewrite Hf; [done|apply list_elem_of_here|]. intros ->. done.
    + apply (IH a0 nxt lst k a); try done.
      intros x Hx Hxl. apply Hf; [by apply list_elem_of_further|done].
Qed.

Lemma rep_add self kl k :
  rep self kl → k ∉ kl.*1 →
  rep (add k self) (kl ++ [(k, length (os_nodes self))]).
Proof.
  intros Hrep Hk. unfold add.
  rewrite (rep_contains _ _ k Hrep), bool_decide_eq_false_2 by done.
  destruct Hrep as ((fst & lst & He & Hc) & Ha & Hks & Hm).
  set (h := os_nodes self) in *. set (a := length h).
  rewrite (deref_Some _ _ _ He). cbn [n_prev].
  assert (Hlt : ∀ x, x ∈ kl.*2 → x < a).
  { intros x Hx. apply lookup_lt_is_Some. by eapply chain_lookup. }
  assert (Hpos : END < length h) by (by eapply lookup_lt_Some).
  assert (Ha0 : a ≠ END) by (unfold a, END in *; lia).
  assert (Hfresh : a ∉ kl.*2).
  { intros Hx. apply Hlt in Hx. lia. }
  apply NoDup_cons in Ha as [Hend Hnd].
  set (new_node := mkNode (Some k) lst END).
  set (h3 := alter (set_prev a) END (alter (set_next a) lst (h ++ [new_node]))).
  assert (Hnew : h3 !! a = Some new_node).
  { unfold h3. rewrite list_lookup_alter_ne by done.
    destruct (decide (lst = a)) as [Hla|Hla].
    - exfalso. destruct kl as [|ka kl'].
      + simpl in Hc. destruct Hc as [_ ->]. done.
      + apply Hfresh. rewrite <- Hla, (chain_lst _ _ _ _ _ Hc). by apply last_addr_elem.
    - rewrite list_lookup_alter_ne by done. by rewrite lookup_app_r, Nat.sub_diag. }
  assert (Hold : ∀ x, x ≠ END → x ≠ lst → x < a → h3 !! x = h !! x).
  { intros x H1 H2 H3. unfold h3.
    rewrite !list_lookup_alter_ne by done. by apply lookup_app_l. }
  split; [|split; [|split]]; cbn [os_nodes os_map]; fold new_node; fold h3.
  - destruct kl as [|ka kl'].
    + simpl in Hc. destruct Hc as [-> ->].
      exists a, a. split.
      * unfold h3. rewrite !list_lookup_alter_eq, lookup_app_l by done.
        by rewrite He.
      * simpl. split; [done|]. by exists END.
    + pose proof (chain_lst _ _ _ _ _ Hc) as Hlst.
      assert (Hin : lst ∈ (ka :: kl').*2) by (rewrite Hlst; by apply last_addr_elem).
      assert (Hle : lst ≠ END) by (by intros ->).
      exists fst, a. split.
      * unfold h3. rewrite list_lookup_alter_eq, list_lookup_alter_ne by done.
        rewrite lookup_app_l by done. by rewrite He.
      * apply (chain_snoc h h3 (ka :: kl') END fst lst k a); try done.
        -- intros x Hx Hxl. apply Hold; [by intros ->|done|by apply Hlt].
        -- intros nd Hnd'. unfold h3. rewrite list_lookup_alter_ne by done.
           rewrite list_lookup_alter_eq, lookup_app_l by (by apply Hlt). by rewrite Hnd'.
  - rewrite fmap_app. simpl. apply NoDup_cons. split.
    + intros [Hx|Hx%list_elem_of_singleton]%elem_of_app; [done|]. by apply Ha0.
    + apply NoDup_app. split; [done|]. split; [|apply NoDup_singleton].
      intros x Hx ->%list_elem_of_singleton. done.
  - rewrite fmap_app. apply NoDup_app. split; [done|]. split; [|apply NoDup_singleton].
    intros x Hx ->%list_elem_of_singleton. done.
  - cbn [os_map]. rewrite Hm. by rewrite list_to_map_snoc.
Qed.

(** ** [discard] *)

Lemma last_addr_cons p ka kl : last_addr p (ka :: kl) = last_addr ka.2 kl.
Proof. unfold last_addr. rewrite fmap_cons, last_cons. by destruct (last kl.*2). Qed.

Lemma chain_mid h l1 k a l2 :
  ∀ p c lst, chain h p c (l1 ++ (k, a) :: l2) lst →
    h !! a = Some (mkNode (Some k) (last_addr p l1) (head_addr l2)).
Proof.
  induction l1 as [|[k1 a1] l1 IH]; intros p c lst H; simpl in H.
  - destruct H as (_ & nxt & Ha & H). by rewrite <- (chain_cur _ _ _ _ _ H).
  - destruct H as (_ & nxt & _ & H). rewrite last_addr_cons. by eapply IH.
Qed.

(** The store after [discard] unlinked the node between the nodes at [prv]
    and [nxt]. *)
Definition unlinked (prv nxt : nat) (h h' : list (Node K)) (x : nat) : Prop :=
  ∀ nd, h !! x = Some nd →
    h' !! x = Some ((if decide (nxt = x) then set_prev prv else id)
                      ((if decide (prv = x) then set_next nxt else id) nd)).

Lemma chain_remove h h' l1 k a l2 :
  ∀ p c lst,
    chain h p c (l1 ++ (k, a) :: l2) lst →
    NoDup (p :: (l1 ++ (k, a) :: l2).*2) →
    END ∉ (l1 ++ (k, a) :: l2).*2 →
    (∀ x, x ∈ (l1 ++ l2).*2 → unlinked (last_addr p l1) (head_addr l2) h h' x) →
    chain h' p (match l1 with [] => head_addr l2 | _ => c end) (l1 ++ l2)
          (match l2 with [] => last_addr p l1 | _ => lst end).
Proof.
  induction l1 as [|[k1 a1] l1 IH]; intros p c lst H Hnd Hend Hu.
  - simpl in H. destruct H as (-> & n0 & Ha & H). simpl app in *.
    change (last_addr p []) with p in *.
    destruct l2 as [|[k2 a2] l2]; [done|].
    simpl in H. destruct H as (-> & n3 & Ha2 & H).
    change (head_addr ((k2, a2) :: l2)) with a2 in *.
    simpl. split; [done|]. exists n3.
    rewrite !fmap_cons in Hnd. simpl in Hnd.
    apply NoDup_cons in Hnd as [Hp Hnd]. apply NoDup_cons in Hnd as [Hna Hnd].
    apply NoDup_cons in Hnd as [Hna2 Hnd].
    apply not_elem_of_cons in Hp as [Hpa Hp]. apply not_elem_of_cons in Hp as [Hpa2 Hp].
    split.
    + rewrite (Hu a2 ltac:(apply list_elem_of_here) _ Ha2).
      rewrite decide_True, decide_False by done. done.
    + apply (chain_frame h); [done|]. intros x Hx.
      destruct (chain_lookup _ _ _ _ _ x H Hx) as [nd Hnd'].
      rewrite (Hu x ltac:(by apply list_elem_of_further) _ Hnd'), Hnd'.
      rewrite decide_False, decide_False; [done| |]; by intros ->.
  - simpl in H. destruct H as (-> & n1 & Ha1 & H).
    rewrite last_addr_cons in *. cbn [snd] in *.
    rewrite <- !app_comm_cons, !fmap_cons in Hnd, Hend. cbn [snd] in *.
    apply NoDup_cons in Hnd as [Hp Hnd].
    apply not_elem_of_cons in Hend as [Hea1 Hend].
    assert (IH' := IH a1 n1 lst H Hnd Hend).
    simpl. split; [done|].
    assert (Hnx : head_addr l2 ≠ a1).
    { apply NoDup_cons in Hnd as [Hn1 _]. intros E. destruct l2 as [|[k2 a2] l2].
      - by rewrite <- E in Hea1.
      - apply Hn1. rewrite <- E, fmap_app. apply elem_of_app. right.
        apply list_elem_of_further, list_elem_of_here. }
    exists (match l1 with [] => head_addr l2 | _ => n1 end). split.
    + rewrite (Hu a1 ltac:(apply list_elem_of_here) _ Ha1).
      rewrite (decide_False (P := head_addr l2 = a1)) by done.
      destruct l1 as [|ka l1].
      * change (last_addr a1 []) with a1. by rewrite decide_True.
      * rewrite decide_False; [done|]. intros E.
        apply NoDup_cons in Hnd as [Hn1 _]. apply Hn1.
        rewrite <- E, fmap_app. apply elem_of_app. left.
        by apply last_addr_elem.
    + apply IH'. intros x Hx. apply Hu. by apply list_elem_of_further.
Qed.

Lemma list_to_map_delete_mid (l1 : list (K * nat)) k a l2 :
  NoDup (l1 ++ (k, a) :: l2).*1 →
  delete k (list_to_map (l1 ++ (k, a) :: l2)) =@{gmap K nat} list_to_map (l1 ++ l2).
Proof.
  rewrite fmap_app, fmap_cons. intros Hnd.
  apply NoDup_app in Hnd as (_ & Hd & Hnd). apply NoDup_cons in Hnd as [Hk _].
  rewrite !list_to_map_app, list_to_map_cons, delete_union, delete_insert_eq.
  rewrite !delete_id; [done| |].
  - by apply not_elem_of_list_to_map_1.
  - apply not_elem_of_list_to_map_1. intros Hin. apply (Hd _ Hin). apply list_elem_of_here.
Qed.

Lemma lookup_unlink (h : list (Node K)) prv nxt x nd :
  h !! x = Some nd →
  alter (set_prev prv) nxt (alter (set_next nxt) prv h) !! x
  = Some ((if decide (nxt = x) then set_prev prv else id)
            ((if decide (prv = x) then set_next nxt else id) nd)).
Proof.
  intros Hx. rewrite list_lookup_alter.
  destruct (decide (nxt = x)) as [->|]; rewrite list_lookup_alter;
    destruct (decide (prv = x)) as [->|]; by rewrite ?Hx.
Qed.

Lemma NoDup_remove_mid {A} (l1 : list A) x l2 : NoDup (l1 ++ x :: l2) → NoDup (l1 ++ l2).
Proof.
  intros Hn. eapply sublist_NoDup; [done|]. apply sublist_app; [done|].
  by apply sublist_cons.
Qed.

Lemma rep_lookup_map self kl k a :
  rep self kl → (k, a) ∈ kl → os_map self !! k = Some a.
Proof. intros (_ & _ & Hk & ->) Hin. by apply elem_of_list_to_map_1. Qed.

Lemma rep_discard self l1 k a l2 :
  rep self (l1 ++ (k, a) :: l2) → rep (discard k self) (l1 ++ l2).
Proof.
  intros Hrep. unfold discard.
  rewrite (rep_lookup_map _ _ k a Hrep) by (apply elem_of_app; right; apply list_elem_of_here).
  destruct Hrep as ((fst & lst & He & Hc) & Ha & Hks & Hm).
  set (h := os_nodes self) in *.
  rewrite (deref_Some _ _ _ (chain_mid _ _ _ _ _ _ _ _ Hc)). cbn [n_prev n_next].
  set (prv := last_addr END l1). set (nxt := head_addr l2).
  pose proof Ha as Ha'. apply NoDup_cons in Ha' as [Hend Hnd].
  assert (Hend' : (END ∉ l1.*2) ∧ (END ∉ l2.*2)).
  { rewrite fmap_app, fmap_cons in Hend.
    split; intros Hx; apply Hend, elem_of_app; [by left|right].
    by apply list_elem_of_further. }
  destruct Hend' as [He1 He2].
  split; [|split; [|split]]; cbn [os_nodes os_map].
  - exists (match l1 with [] => nxt | _ => fst end), (match l2 with [] => prv | _ => lst end).
    split.
    + rewrite (lookup_unlink _ _ _ _ _ He). f_equal.
      assert (Hp : match l1 with [] => prv = END | _ => prv ≠ END end).
      { destruct l1 as [|ka l1']; [done|]. intros E. apply He1. rewrite <- E.
        by apply last_addr_elem. }
      assert (Hn : match l2 with [] => nxt = END | _ => nxt ≠ END end).
      { destruct l2 as [|[k2 a2] l2']; [done|]. intros E. apply He2. rewrite <- E.
        apply list_elem_of_here. }
      destruct l1 as [|ka l1'], l2 as [|kb l2']; cbn beta iota in Hp, Hn.
      * by rewrite (decide_True (P := nxt = END)), (decide_True (P := prv = END)).
      * by rewrite (decide_False (P := nxt = END)), (decide_True (P := prv = END)).
      * by rewrite (decide_True (P := nxt = END)), (decide_False (P := prv = END)).
      * by rewrite (decide_False (P := nxt = END)), (decide_False (P := prv = END)).
    + apply (chain_remove h _ l1 k a l2 END fst lst Hc Ha Hend).
      intros x Hx nd Hn. by apply lookup_unlink.
  - rewrite fmap_app, fmap_cons in Ha. rewrite fmap_app.
    exact (NoDup_remove_mid (END :: l1.*2) a l2.*2 Ha).
  - rewrite fmap_app, fmap_cons in Hks. rewrite fmap_app.
    by apply NoDup_remove_mid in Hks.
  - rewrite Hm. by apply list_to_map_delete_mid.
Qed.

Lemma discard_absent self kl k : rep self kl → k ∉ kl.*1 → discard k self = self.
Proof.
  intros (_ & _ & Hk & Hm) Hin. unfold discard. rewrite Hm.
  by rewrite (not_elem_of_list_to_map_1 _ _ Hin).
Qed.

(** ** [__reversed__] *)

Lemma reversed_from_S fuel (h : list (Node K)) c :
  reversed_from (S fuel) h c
  = if (c =? END) then Ok []
    else rest ← reversed_from fuel h (n_prev (deref h c)); Ok (n_key (deref h c) :: rest).
Proof. reflexivity. Qed.

Lemma reversed_chain h c lst l1 :
  ∀ l2, chain h END c (l1 ++ l2) lst → END ∉ (l1 ++ l2).*2 →
    reversed_from (S (length l1)) h (last_addr END l1) = Ok (Some <$> rev l1.*1).
Proof.
  induction l1 as [|[k a] l1 IH] using rev_ind; intros l2 Hc Hend; [done|].
  rewrite <- app_assoc in Hc, Hend. simpl in Hc, Hend.
  assert (Hl : last_addr END (l1 ++ [(k, a)]) = a).
  { unfold last_addr. rewrite fmap_app. change ([(k, a)].*2) with [a]. by rewrite last_snoc. }
  assert (Ha : a ≠ END).
  { intros ->. apply Hend. rewrite fmap_app. apply elem_of_app. right. apply list_elem_of_here. }
  rewrite Hl, length_app, Nat.add_1_r, reversed_from_S.
  replace (a =? END) with false by (symmetry; by apply Nat.eqb_neq).
  rewrite (deref_Some _ _ _ (chain_mid _ _ _ _ _ _ _ _ Hc)). cbn [n_prev n_key].
  rewrite (IH _ Hc Hend). rewrite fmap_app, rev_app_distr. done.
Qed.

Lemma rep_reversed self kl : rep self kl → reversed self = Ok (Some <$> rev kl.*1).
Proof.
  intros Hrep. unfold reversed. rewrite (rep_len _ _ Hrep).
  destruct Hrep as ((fst & lst & He & Hc) & Ha & _).
  rewrite (deref_Some _ _ _ He). cbn [n_prev].
  rewrite (chain_lst _ _ _ _ _ Hc).
  apply NoDup_cons in Ha as [Hend _].
  apply (reversed_chain _ fst lst kl []); by rewrite app_nil_r.
Qed.

(** ** Sets built by [add] and [discard] *)

(** A call that changes a set. *)
Inductive Op :=
| Add (key : K)
| Discard (key : K).

Definition apply_op (self : OrderedSet K) (op : Op) : OrderedSet K :=
  match op with
  | Add key => add key self
  | Discard key => discard key self
  end.

(** The set after the calls [ops] on [OrderedSet()]. *)
Definition after (ops : list Op) : OrderedSet K := fold_left apply_op ops new.

(** The keys a list of distinct keys holds after a call: a new key goes to
    the end, a key that is there stays where it is, a discarded key leaves. *)
Definition keys_op (l : list K) (op : Op) : list K :=
  match op with
  | Add key => if decide (key ∈ l) then l else l ++ [key]
  | Discard key => filter (λ x, x ≠ key) l
  end.

Definition keys_after (ops : list Op) : list K := fold_left keys_op ops [].

Lemma filter_absent (k : K) (l : list K) : k ∉ l → filter (λ x, x ≠ k) l = l.
Proof.
  induction l as [|x l IH]; [done|]. intros [Hx Hl]%not_elem_of_cons.
  rewrite filter_cons_True by done. by rewrite IH.
Qed.

Lemma rep_step self kl op :
  rep self kl → ∃ kl', rep (apply_op self op) kl' ∧ kl'.*1 = keys_op kl.*1 op.
Proof.
  intros Hrep. destruct op as [k|k]; simpl.
  - destruct (decide (k ∈ kl.*1)) as [Hin|Hin].
    + exists kl. split; [|done]. unfold add.
      by rewrite (rep_contains _ _ k Hrep), bool_decide_eq_true_2.
    + eexists. split; [by apply rep_add|]. by rewrite fmap_app.
  - destruct (decide (k ∈ kl.*1)) as [Hin|Hin].
    + apply list_elem_of_fmap in Hin as ([k' a] & -> & Hin).
      apply list_elem_of_split in Hin as (l1 & l2 & ->). cbn [fst].
      exists (l1 ++ l2). split; [by eapply rep_discard|].
      destruct Hrep as (_ & _ & Hks & _).
      rewrite fmap_app, fmap_cons in Hks. cbn [fst] in Hks.
      apply NoDup_app in Hks as (_ & Hd & Hks). apply NoDup_cons in Hks as [Hk2 _].
      rewrite !fmap_app, fmap_cons, filter_app, filter_cons_False by (by intros ?).
      rewrite !filter_absent; [done|done|]. intros Hx. apply (Hd _ Hx), list_elem_of_here.
    + exists kl. split; [by rewrite (discard_absent _ _ _ Hrep)|].
      by rewrite filter_absent.
Qed.

Lemma rep_fold ops :
  ∀ self kl, rep self kl →
    ∃ kl', rep (fold_left apply_op ops self) kl' ∧ kl'.*1 = fold_left keys_op ops kl.*1.
Proof.
  induction ops as [|op ops IH]; intros self kl Hrep; [by exists kl|].
  destruct (rep_step _ _ op Hrep) as (kl1 & Hrep1 & E). simpl. rewrite <- E.
  by apply IH.
Qed.

Lemma rep_after ops : ∃ kl, rep (after ops) kl ∧ kl.*1 = keys_after ops.
Proof. apply (rep_fold ops new []), rep_new. Qed.

(** X28: After any calls of [add] and [discard] on a new [OrderedSet],
    iterating over the set gives the keys that were added and not discarded
    since, each once, in the order in which they were added, and [reversed]
    gives them in the opposite order; [len] is their number and [in] tells
    whether a key is one of them. *)
Theorem ordered_set_keeps_insertion_order (ops : list Op) :
  iter (after ops) = Ok (Some <$> keys_after ops)
  ∧ reversed (after ops) = Ok (Some <$> rev (keys_after ops))
  ∧ NoDup (keys_after ops)
  ∧ len (after ops) = length (keys_after ops)
  ∧ ∀ key, contains key (after ops) = bool_decide (key ∈ keys_after ops).
Proof.
  destruct (rep_after ops) as (kl & Hrep & <-).
  split; [by apply rep_iter|]. split; [by apply rep_reversed|].
  split; [by destruct Hrep as (_ & _ & ? & _)|].
  split; [by rewrite (rep_len _ _ Hrep), length_fmap|].
  intros key. by apply rep_contains.
Qed.

(** X29: [pop] raises [KeyError] on a set without keys.  On another set it
    returns the key added last, or with [last=False] the key added first,
    and leaves the other keys in their order. *)
Theorem ordered_set_pop (ops : list Op) (lst : bool) :
  match (if lst then last (keys_after ops) else head (keys_after ops)) with
  | None => keys_after ops = [] ∧ pop lst (after ops) = KeyError
  | Some key =>
      ∃ self, pop lst (after ops) = Pop (Some key) self
              ∧ iter self = Ok (Some <$> (if lst then removelast (keys_after ops)
                                          else tail (keys_after ops)))
  end.
Proof.
  destruct (rep_after ops) as (kl & Hrep & <-).
  unfold pop. rewrite (rep_len _ _ Hrep).
  destruct kl as [|[k0 a0] kl0] using rev_ind.
  - by destruct lst.
  - clear IHkl0. rewrite length_app, Nat.add_1_r. cbn [Nat.eqb].
    pose proof Hrep as ((fst & lst' & He & Hc) & _).
    rewrite (deref_Some _ _ _ He). cbn [n_prev n_next].
    destruct lst.
    + rewrite fmap_app. change ([(k0, a0)].*1) with [k0].
      rewrite last_snoc, removelast_last.
      rewrite (chain_lst _ _ _ _ _ Hc).
      assert (Hl : last_addr END (kl0 ++ [(k0, a0)]) = a0).
      { unfold last_addr. rewrite fmap_app. change ([(k0, a0)].*2) with [a0].
        by rewrite last_snoc. }
      rewrite Hl, (deref_Some _ _ _ (chain_mid _ _ _ _ _ _ _ _ Hc)). cbn [n_key].
      eexists. split; [done|].
      rewrite (rep_iter _ (kl0 ++ [])); [by rewrite app_nil_r|].
      by apply (rep_discard _ _ _ a0).
    + destruct kl0 as [|[k1 a1] kl1].
      * simpl in Hc. destruct Hc as (-> & nxt & Ha & _).
        rewrite (deref_Some _ _ _ Ha). cbn [n_key fmap list_fmap app head tail].
        eexists. split; [done|].
        apply (rep_iter _ ([] ++ [])). by apply (rep_discard _ _ _ a0).
      * rewrite <- app_comm_cons in *. simpl in Hc. destruct Hc as (-> & nxt & Ha & _).
        rewrite (deref_Some _ _ _ Ha). rewrite fmap_cons. cbn [n_key head tail fst].
        eexists. split; [done|].
        apply (rep_iter _ ([] ++ (kl1 ++ [(k0, a0)]))). by apply (rep_discard _ _ _ a1).
Qed.

End Facts.

End OrderedSetFacts.

Module UseVisitorFacts.
Import Py Decoder Model UseVisitor ModelFacts.

Local Open Scope nat_scope.

Section Classes.

Variable cls : list Class.

(** The annotated base classes and sub-classes of the class at [i]. *)
Definition bases_at (i : nat) : list nat :=
  from_option _annotated_base_classes [] (cls !! i).

Definition subs_at (i : nat) : list nat :=
  from_option _annotated_sub_classes [] (cls !! i).

(** [j] is an annotated base class or sub-class of [i]. *)
Definition linked (i j : nat) : Prop := j ∈ bases_at i ++ subs_at i.

(** The relations refer to classes of the environment. *)
Definition relations_ok : Prop :=
  Forall (λ c, Forall (λ j, j < length cls)
                      (_annotated_base_classes c ++ _annotated_sub_classes c)) cls.

(** The class at [i] has a [use-visitor] annotation. *)
Definition asks_visitor (i : nat) : Prop :=
  ∃ c, cls !! i = Some c ∧ is_Some (c_annotations c !! "use-visitor").

Definition is_top (i : nat) : bool := bool_decide (bases_at i = []).

(** What a run of calls started at the classes [roots] did to the state:
    it visited the roots, and every class it visited is linked to visited
    classes only, is reached from a root and has its attributes set. *)
Definition visited (roots : list nat) (st st' : State) : Prop :=
  use_visitor_classes st ⊆ use_visitor_classes st'
  ∧ (∀ r, r ∈ roots → r ∈ use_visitor_classes st')
  ∧ (∀ u, u ∈ use_visitor_classes st' → u ∉ use_visitor_classes st →
       (∀ j, linked u j → j ∈ use_visitor_classes st')
       ∧ (∃ r, r ∈ roots ∧ rtc linked r u)
       ∧ use_visitor st' !! u = Some true
       ∧ use_visitor_top_class st' !! u = Some (is_top u))
  ∧ (∀ u, u ∈ use_visitor_classes st ∨ u ∉ use_visitor_classes st' →
       use_visitor st' !! u = use_visitor st !! u
       ∧ use_visitor_top_class st' !! u = use_visitor_top_class st !! u).

Lemma visited_nil st : visited [] st st.
Proof.
  split; [done|]. split; [by intros r Hr%elem_of_nil|].
  split; [by intros u Hu Hn|]. done.
Qed.

Lemma visited_app l1 l2 a b c : visited l1 a b → visited l2 b c → visited (l1 ++ l2) a c.
Proof.
  intros (S1 & R1 & N1 & U1) (S2 & R2 & N2 & U2).
  split; [by etrans|]. split.
  { intros r [Hr|Hr]%elem_of_app; [apply S2, R1, Hr|by apply R2]. }
  split.
  - intros u Hc Ha. destruct (decide (u ∈ use_visitor_classes b)) as [Hb|Hb].
    + destruct (N1 u Hb Ha) as (C & (r & Hr & Hp) & Hu & Ht).
      destruct (U2 u (or_introl Hb)) as [-> ->].
      split; [intros j Hj; by apply S2, C|].
      split; [exists r; split; [apply elem_of_app; by left|done]|done].
    + destruct (N2 u Hc Hb) as (C & (r & Hr & Hp) & Hu & Ht).
      split; [done|]. split; [exists r; split; [apply elem_of_app; by right|done]|done].
  - intros u Hu.
    assert (Hb : u ∈ use_visitor_classes b ∨ u ∉ use_visitor_classes c).
    { destruct Hu as [Hu|Hu]; [left; by apply S1|by right]. }
    assert (Ha : u ∈ use_visitor_classes a ∨ u ∉ use_visitor_classes b).
    { destruct Hu as [Hu|Hu]; [by left|right]. intros Hb'. by apply Hu, S2. }
    destruct (U2 u Hb) as [-> ->]. by apply U1.
Qed.

(** The classes not visited yet. *)
Definition unvisited (st : State) : gset nat :=
  set_seq 0 (length cls) ∖ use_visitor_classes st.

Lemma unvisited_mono st st' :
  use_visitor_classes st ⊆ use_visitor_classes st' → size (unvisited st') ≤ size (unvisited st).
Proof. intros Hs. apply subseteq_size. unfold unvisited. by apply difference_mono_l. Qed.

Lemma unvisited_mark st i :
  i < length cls → i ∉ use_visitor_classes st →
  size (unvisited (mark i st)) < size (unvisited st).
Proof.
  intros Hi Hn. apply subset_size. unfold unvisited, mark. cbn [use_visitor_classes].
  apply strict_spec_alt. split; [apply difference_mono_l, union_subseteq_r|].
  intros E. assert (Hin : i ∈ set_seq (C := gset nat) 0 (length cls) ∖ use_visitor_classes st).
  { apply elem_of_difference. split; [|done]. apply elem_of_set_seq. lia. }
  rewrite <- E in Hin. apply elem_of_difference in Hin as [_ Hn'].
  apply Hn', elem_of_union. left. by apply elem_of_singleton.
Qed.

Lemma linked_lt i j : relations_ok → linked i j → j < length cls.
Proof.
  unfold relations_ok, linked, bases_at, subs_at. intros Hok Hj.
  destruct (cls !! i) as [c|] eqn:E; simpl in Hj; [|by apply elem_of_nil in Hj].
  rewrite Forall_forall in Hok. pose proof (Hok c (list_elem_of_lookup_2 _ _ _ E)) as Hc.
  rewrite Forall_forall in Hc. by apply Hc.
Qed.

(** A loop of calls, given that each call does what it should. *)
Lemma fold_visited fuel :
  (∀ st i, i < length cls → size (unvisited st) < fuel →
     ∃ st', propagate_use_visitor fuel cls st i = Ok st' ∧ visited [i] st st') →
  ∀ l st, (∀ j, j ∈ l → j < length cls) → size (unvisited st) < fuel →
    ∃ st', foldM (propagate_use_visitor fuel cls) l st = Ok st' ∧ visited l st st'.
Proof.
  intros Hcall l. induction l as [|j l IH]; intros st Hl Hf.
  - exists st. split; [done|apply visited_nil].
  - destruct (Hcall st j (Hl j ltac:(apply list_elem_of_here)) Hf) as (st1 & E1 & V1).
    destruct (IH st1) as (st' & E & V).
    { intros x Hx. by apply Hl, list_elem_of_further. }
    { pose proof (unvisited_mono st st1 (proj1 V1)). lia. }
    exists st'. split.
    + simpl. by rewrite E1.
    + by apply (visited_app [j] l st st1 st').
Qed.

Lemma propagate_use_visitor_visited fuel :
  relations_ok →
  ∀ st i, i < length cls → size (unvisited st) < fuel →
    ∃ st', propagate_use_visitor fuel cls st i = Ok st' ∧ visited [i] st st'.
Proof.
  intros Hok. induction fuel as [|fuel IH]; intros st i Hi Hf; [lia|].
  simpl. case_bool_decide as Hin.
  { exists st. split; [done|]. split; [done|]. split.
    - by intros r ->%list_elem_of_singleton.
    - split; [by intros u Hu Hn|done]. }
  destruct (cls !! i) as [c|] eqn:Ec; [|by apply lookup_ge_None_1 in Ec; lia].
  assert (Hb : bases_at i = _annotated_base_classes c) by (unfold bases_at; by rewrite Ec).
  assert (Hs : subs_at i = _annotated_sub_classes c) by (unfold subs_at; by rewrite Ec).
  rewrite <- Hb, <- Hs.
  pose proof (unvisited_mark st i Hi Hin) as Hm.
  set (st2 := set_top_class i (is_top i) (mark i st)).
  assert (Hf2 : size (unvisited st2) < fuel) by (change (unvisited st2) with (unvisited (mark i st)); lia).
  assert (Hnb : ∃ st', (if length (bases_at i) =? 0
                        then Ok (set_top_class i true (mark i st))
                        else foldM (propagate_use_visitor fuel cls) (bases_at i)
                                   (set_top_class i false (mark i st))) = Ok st'
                       ∧ visited (bases_at i) st2 st').
  { unfold st2, is_top. destruct (bases_at i) as [|b bs] eqn:Eb.
    - exists (set_top_class i true (mark i st)). split; [done|]. apply visited_nil.
    - rewrite bool_decide_eq_false_2 by done. cbn [length Nat.eqb].
      apply (fold_visited fuel IH); [|done].
      intros j Hj. apply (linked_lt i j Hok). unfold linked. rewrite Eb.
      apply elem_of_app. by left. }
  destruct Hnb as (st3 & E3 & V3). rewrite E3. cbn [mbind bind].
  destruct (fold_visited fuel IH (subs_at i) st3) as (st' & E & V).
  { intros j Hj. apply (linked_lt i j Hok). unfold linked. apply elem_of_app. by right. }
  { pose proof (unvisited_mono st2 st3 (proj1 V3)). lia. }
  exists st'. split; [done|].
  pose proof (visited_app _ _ _ _ _ V3 V) as (S & R & N & U).
  assert (Hi2 : i ∈ use_visitor_classes st2).
  { unfold st2, set_top_class, mark. cbn [use_visitor_classes].
    apply elem_of_union. left. by apply elem_of_singleton. }
  assert (Hst : use_visitor_classes st ⊆ use_visitor_classes st2).
  { unfold st2, set_top_class, mark. cbn [use_visitor_classes]. apply union_subseteq_r. }
  assert (Hnew : ∀ u, u ∈ use_visitor_classes st2 → u = i ∨ u ∈ use_visitor_classes st).
  { unfold st2, set_top_class, mark. cbn [use_visitor_classes].
    intros u [->%elem_of_singleton|Hu]%elem_of_union; [by left|by right]. }
  split; [by etrans|]. split; [intros r ->%list_elem_of_singleton; by apply S|].
  split.
  - intros u Hu Hn. destruct (decide (u = i)) as [->|Hne].
    + destruct (U i (or_introl Hi2)) as [-> ->].
      split; [intros j Hj; by apply R|].
      split; [exists i; split; [apply list_elem_of_here|done]|].
      unfold st2, set_top_class, mark. cbn [use_visitor use_visitor_top_class].
      by rewrite !lookup_insert_eq.
    + assert (Hn2 : u ∉ use_visitor_classes st2).
      { intros [?|?]%Hnew; done. }
      destruct (N u Hu Hn2) as (C & (r & Hr & Hp) & Hv & Ht).
      split; [done|]. split; [|done]. exists i. split; [apply list_elem_of_here|].
      by apply (rtc_l _ _ r).
  - intros u Hu.
    assert (Hne : u ≠ i).
    { intros ->. destruct Hu as [Hu|Hu]; [done|]. by apply Hu, S. }
    assert (H2 : u ∈ use_visitor_classes st2 ∨ u ∉ use_visitor_classes st').
    { destruct Hu as [Hu|Hu]; [left; by apply Hst|by right]. }
    destruct (U u H2) as [-> ->].
    unfold st2, set_top_class, mark. cbn [use_visitor use_visitor_top_class].
    by rewrite !lookup_insert_ne.
Qed.

(** ** The loop over the annotated classes *)

Lemma linked_closed (V : gset nat) s u :
  (∀ x j, x ∈ V → linked x j → j ∈ V) → s ∈ V → rtc linked s u → u ∈ V.
Proof. intros Hc Hs Hp. induction Hp as [|x y z Hxy _ IH]; [done|]. eapply IH, Hc; done. Qed.

(** [u] is reached, over the relations, from a class among [done] that has a
    [use-visitor] annotation. *)
Definition reached (done : list nat) (u : nat) : Prop :=
  ∃ s, s ∈ done ∧ asks_visitor s ∧ rtc linked s u.

Section Loop.

Variables use0 top0 : gmap nat bool.

(** The state after the loop went over the classes [done]. *)
Definition pass_inv (done : list nat) (st : State) : Prop :=
  (∀ x j, x ∈ use_visitor_classes st → linked x j → j ∈ use_visitor_classes st)
  ∧ (∀ u, u ∈ use_visitor_classes st ↔ reached done u)
  ∧ (∀ u, use_visitor st !! u
          = if decide (u ∈ use_visitor_classes st) then Some true
            else if decide (u ∈ done) then Some (default false (use0 !! u))
            else use0 !! u)
  ∧ (∀ u, use_visitor_top_class st !! u
          = if decide (u ∈ use_visitor_classes st) then Some (is_top u) else top0 !! u).

Lemma pass_inv_start : pass_inv [] (mkState ∅ use0 top0).
Proof.
  split; [by intros x j Hx%elem_of_empty|]. split.
  - intros u. split; [by intros Hx%elem_of_empty|]. by intros (s & Hs%elem_of_nil & _).
  - split; intros u; cbn [use_visitor use_visitor_classes use_visitor_top_class].
    + rewrite decide_False by apply not_elem_of_empty.
      by rewrite decide_False by apply not_elem_of_nil.
    + by rewrite decide_False by apply not_elem_of_empty.
Qed.

Lemma reached_snoc done i u :
  reached (done ++ [i]) u ↔ reached done u ∨ (asks_visitor i ∧ rtc linked i u).
Proof.
  split.
  - intros (s & [Hs| ->%list_elem_of_singleton]%elem_of_app & Ha & Hp).
    + left. by exists s.
    + by right.
  - intros [(s & Hs & Ha & Hp)|[Ha Hp]].
    + exists s. split; [apply elem_of_app; by left|done].
    + exists i. split; [apply elem_of_app; right; apply list_elem_of_here|done].
Qed.

Lemma use_visitor_step_inv fuel done st i :
  relations_ok → length cls < fuel → i < length cls → pass_inv done st →
  ∃ st', use_visitor_step fuel cls st i = Ok st' ∧ pass_inv (done ++ [i]) st'.
Proof.
  intros Hok Hfuel Hi (Hc & Hr & Hu & Ht). unfold use_visitor_step.
  destruct (cls !! i) as [c|] eqn:Ec; [|by apply lookup_ge_None_1 in Ec; lia].
  case_bool_decide as Hask.
  - assert (Ha : asks_visitor i) by (by exists c).
    destruct (propagate_use_visitor_visited fuel Hok st i Hi) as (st' & E & S & R & N & U).
    { pose proof (subseteq_size (unvisited st) (set_seq 0 (length cls))) as Hsz.
      rewrite size_set_seq in Hsz. unfold unvisited in *.
      pose proof (Hsz (subseteq_difference_l _ _ _ (reflexivity _))). lia. }
    exists st'. split; [done|].
    assert (Hi' : i ∈ use_visitor_classes st') by apply R, list_elem_of_here.
    assert (Hc' : ∀ x j, x ∈ use_visitor_classes st' → linked x j → j ∈ use_visitor_classes st').
    { intros x j Hx Hl. destruct (decide (x ∈ use_visitor_classes st)) as [Hx0|Hx0].
      - by apply S, (Hc x).
      - by apply (N x Hx Hx0). }
    split; [done|]. split; [|split].
    + intros u. rewrite reached_snoc. split.
      * intros Hin. destruct (decide (u ∈ use_visitor_classes st)) as [Hu0|Hu0].
        -- left. by apply Hr.
        -- right. split; [done|].
           destruct (N u Hin Hu0) as (_ & (r & ->%list_elem_of_singleton & Hp) & _). done.
      * intros [Hre|[_ Hp]]; [by apply S, Hr|]. by apply (linked_closed _ i).
    + intros u. destruct (decide (u ∈ use_visitor_classes st')) as [Hin|Hin].
      * destruct (decide (u ∈ use_visitor_classes st)) as [Hu0|Hu0].
        -- destruct (U u (or_introl Hu0)) as [-> _]. by rewrite Hu, decide_True.
        -- by apply (N u Hin Hu0).
      * destruct (U u (or_intror Hin)) as [-> _]. rewrite Hu.
        rewrite decide_False by (intros Hu0; by apply Hin, S).
        assert (Hne : u ≠ i) by (by intros ->).
        destruct (decide (u ∈ done)) as [Hd|Hd].
        -- by rewrite decide_True by (apply elem_of_app; by left).
        -- rewrite decide_False; [done|].
           by intros [?| ?%list_elem_of_singleton]%elem_of_app.
    + intros u. destruct (decide (u ∈ use_visitor_classes st')) as [Hin|Hin].
      * destruct (decide (u ∈ use_visitor_classes st)) as [Hu0|Hu0].
        -- destruct (U u (or_introl Hu0)) as [_ ->]. by rewrite Ht, decide_True.
        -- by apply (N u Hin Hu0).
      * destruct (U u (or_intror Hin)) as [_ ->]. rewrite Ht.
        by rewrite decide_False by (intros Hu0; by apply Hin, S).
  - assert (Ha : ¬ asks_visitor i).
    { intros (c' & Ec' & Hs). rewrite Ec in Ec'. by injection Ec' as <-. }
    assert (Hre : ∀ u, reached (done ++ [i]) u ↔ reached done u).
    { intros u. rewrite reached_snoc. split; [by intros [?|[? _]]|by left]. }
    assert (Hnew : ∀ u, use_visitor (if bool_decide (use_visitor st !! i = None)
                                     then unmark i st else st) !! u
                        = if decide (u ∈ use_visitor_classes st) then Some true
                          else if decide (u ∈ done ++ [i]) then Some (default false (use0 !! u))
                          else use0 !! u).
    { intros u. destruct (decide (u = i)) as [->|Hne].
      - rewrite (decide_True (P := i ∈ done ++ [i]))
          by (apply elem_of_app; right; apply list_elem_of_here).
        case_bool_decide as Hnone.
        + cbn [unmark use_visitor]. rewrite lookup_insert_eq.
          rewrite Hu in Hnone. destruct (decide (i ∈ use_visitor_classes st)); [done|].
          destruct (decide (i ∈ done)); [done|]. by rewrite Hnone.
        + rewrite Hu in *. destruct (decide (i ∈ use_visitor_classes st)); [done|].
          destruct (decide (i ∈ done)); [done|]. by destruct (use0 !! i).
      - assert (Hd : u ∈ done ++ [i] ↔ u ∈ done).
        { rewrite elem_of_app, list_elem_of_singleton. split; [by intros [?|?]|by left]. }
        rewrite (decide_ext _ _ _ _ Hd).
        case_bool_decide; [|by apply Hu].
        cbn [unmark use_visitor]. rewrite lookup_insert_ne by done. by apply Hu. }
    exists (if bool_decide (use_visitor st !! i = None) then unmark i st else st).
    split; [by case_bool_decide|].
    assert (Hv : use_visitor_classes (if bool_decide (use_visitor st !! i = None)
                                      then unmark i st else st) = use_visitor_classes st)
      by (by case_bool_decide).
    assert (Htop : use_visitor_top_class (if bool_decide (use_visitor st !! i = None)
                                          then unmark i st else st) = use_visitor_top_class st)
      by (by case_bool_decide).
    split; [by rewrite Hv|]. split; [intros u; by rewrite Hv, Hre|].
    split; intros u; rewrite ?Hv, ?Htop; [by apply Hnew|by apply Ht].
Qed.

Lemma use_visitor_fold_inv fuel l :
  relations_ok → length cls < fuel →
  ∀ done st, Forall (λ i, i < length cls) l → pass_inv done st →
    ∃ st', foldM (use_visitor_step fuel cls) l st = Ok st' ∧ pass_inv (done ++ l) st'.
Proof.
  intros Hok Hfuel. induction l as [|i l IH]; intros done st Hl Hinv.
  - exists st. split; [done|]. by rewrite app_nil_r.
  - apply Forall_cons in Hl as [Hi Hl].
    destruct (use_visitor_step_inv fuel done st i Hok Hfuel Hi Hinv) as (st1 & E1 & Hinv1).
    destruct (IH (done ++ [i]) st1 Hl Hinv1) as (st' & E & Hinv').
    exists st'. split; [simpl; by rewrite E1|]. by rewrite <- app_assoc in Hinv'.
Qed.

End Loop.

End Classes.

(** X30: The use-visitor pass of [process_environment] ends, and marks the
    classes joined, over annotated base and sub-class relations followed in
    either direction, to an annotated class with a [use-visitor] annotation:
    these get [use_visitor = True] and [use_visitor_top_class] telling
    whether they have no annotated base class.  Another annotated class gets
    [use_visitor = False] unless it has the attribute already, and nothing
    else is changed. *)
Theorem use_visitor_marks_linked_classes (cls : list Class) (annotated_classes : list nat)
    (use0 top0 : gmap nat bool) (fuel : nat) :
  relations_ok cls →
  Forall (λ i, i < length cls) annotated_classes →
  length cls < fuel →
  ∃ st, process_use_visitor fuel cls annotated_classes use0 top0 = Ok st
    ∧ ∀ u,
        (reached cls annotated_classes u →
           use_visitor st !! u = Some true
           ∧ use_visitor_top_class st !! u = Some (is_top cls u))
        ∧ (¬ reached cls annotated_classes u →
           use_visitor st !! u
           = (if decide (u ∈ annotated_classes) then Some (default false (use0 !! u))
              else use0 !! u)
           ∧ use_visitor_top_class st !! u = top0 !! u).
Proof.
  intros Hok Hann Hfuel.
  destruct (use_visitor_fold_inv cls use0 top0 fuel annotated_classes Hok Hfuel [] _ Hann
              (pass_inv_start cls use0 top0)) as (st & E & _ & Hr & Hu & Ht).
  exists st. split; [done|]. intros u. rewrite app_nil_l in Hr. split.
  - intros Hin%Hr. by rewrite Hu, Ht, !decide_True.
  - intros Hn. assert (Hin : u ∉ use_visitor_classes st) by (by rewrite Hr).
    by rewrite Hu, Ht, !(decide_False (P := u ∈ use_visitor_classes st)).
Qed.

(** Three annotated classes: [::A] asks for the visitor and has the
    sub-class [::B]; [::C] is on its own. *)
Definition three_classes : list Class :=
  [mkClass "::A" {[ "use-visitor" := [AVStr "V"] ]} [] [] [] [] [] [1];
   mkClass "::B" {[ "semantic" := [AVStr "ex:B"] ]} [] [] ["::A"] [] [0] [];
   mkClass "::C" {[ "semantic" := [AVStr "ex:C"] ]} [] [] [] [] [] []].

Lemma use_visitor_marks_linked_witness :
  ∃ st, process_use_visitor 4 three_classes [0; 1; 2] ∅ ∅ = Ok st
    ∧ ∀ u,
        (reached three_classes [0; 1; 2] u →
           use_visitor st !! u = Some true
           ∧ use_visitor_top_class st !! u = Some (is_top three_classes u))
        ∧ (¬ reached three_classes [0; 1; 2] u →
           use_visitor st !! u
           = (if decide (u ∈ [0; 1; 2]) then Some (default false ((∅ : gmap nat bool) !! u))
              else (∅ : gmap nat bool) !! u)
           ∧ use_visitor_top_class st !! u = (∅ : gmap nat bool) !! u).
Proof.
  apply (use_visitor_marks_linked_classes three_classes [0; 1; 2] ∅ ∅ 4).
  - unfold relations_ok. repeat constructor.
  - repeat constructor.
  - simpl. lia.
Defined.

End UseVisitorFacts.
